(** * The Sia binary encoding: a shallow embedding of package [encoding]

    The development follows the code of package [encoding], the codec
    behind [encoding.Marshal] and [encoding.Unmarshal]: [Encoder.encode],
    [Marshal], [MarshalAll], [Decoder.Read], [Decoder.Decode],
    [Decoder.decode] and [Unmarshal].

    Modelling choices, all stated where they are made:
    - a [reflect.Value] is a pair of a [type] and a [value]; the accessors
      of package [reflect] ([Bool], [Int], [Len], [Index], [IsNil], ...)
      are functions on [value];
    - the decoder mutates its target in place, so [decode] returns the
      target as the code leaves it, also when it panics;
    - a panic is an outcome, and [Decode] is where [recover] turns it into
      an error;
    - [int] and [uint] are 64 bits wide.

    After the codec come the code that calls it and the modules beside
    it: the loop of package [miner] that fills a block with encoded
    transactions, the update of package [blockexplorer], and the gate
    and the routes of package [api]. What these call outside their own
    files is a parameter of the model. *)

From Stdlib Require Import String ZArith List Bool Lia.
From Stdlib Require Import Strings.Byte.
Import ListNotations.
Set Warnings "-register-all".
Open Scope Z_scope.

(** ** Bytes *)

Definition Z_of_byte (b : byte) : Z := Z.of_N (Byte.to_N b).

Definition byte_of_Z (z : Z) : byte :=
  match Byte.of_N (Z.to_N (z mod 256)) with
  | Some b => b
  | None => x00
  end.

(** ** Errors and panics *)

(** The error values that travel through the package. [ErrLength] is the
    error [ReadPrefix] builds when a prefix declares more than its limit. *)
Inductive error : Type :=
| EOF
| ErrUnexpectedEOF
| ErrShortWrite
| ErrNoProgress
| ErrLength (dataLen maxLen : Z).

(** ** Types and values, as package [reflect] shows them *)

Inductive int_kind : Type := Int | Int8 | Int16 | Int32 | Int64.
Inductive uint_kind : Type := Uint | Uint8 | Uint16 | Uint32 | Uint64.

(** The kinds the two [switch] statements have no case for. *)
Inductive other_kind : Type :=
| Uintptr | Float32 | Float64 | Complex64 | Complex128
| Chan | Func | Interface | Map | UnsafePointer.

(** A struct type is the list of its fields in declaration order; a field
    records whether its name is exported. [TNamed] is a defined type
    ([type Currency struct ...]): the only types that carry methods. *)
Inductive type : Type :=
| TBool
| TInt (k : int_kind)
| TUint (k : uint_kind)
| TString
| TSlice (elem : type)
| TArray (size : nat) (elem : type)
| TStruct (fs : fields)
| TPtr (elem : type)
| TNamed (name : string) (underlying : type)
| TOther (k : other_kind)
with fields : Type :=
| FNil
| FCons (exported : bool) (t : type) (rest : fields).

(** What [panic] is called with: a string, an error value, or the string
    ["could not marshal type " + val.Type().String()], kept as the type. *)
Inductive panic_value : Type :=
| PString (s : string)
| PError (e : error)
| PCouldNotMarshal (t : type).

Scheme type_fields_ind := Induction for type Sort Prop
  with fields_type_ind := Induction for fields Sort Prop.
Combined Scheme type_mutind from type_fields_ind, fields_type_ind.

(** A nil slice is [VSlice None] and a nil pointer [VPtr None]. A pointer
    owns its pointee: the target of a decode is a tree. *)
Inductive value : Type :=
| VBool (b : bool)
| VInt (i : Z)
| VUint (u : Z)
| VString (s : list byte)
| VSlice (s : option (list value))
| VArray (a : list value)
| VStruct (fs : list value)
| VPtr (p : option value)
| VOther.

Definition int_bits (k : int_kind) : Z :=
  match k with Int => 64 | Int8 => 8 | Int16 => 16 | Int32 => 32 | Int64 => 64 end.

Definition uint_bits (k : uint_kind) : Z :=
  match k with Uint => 64 | Uint8 => 8 | Uint16 => 16 | Uint32 => 32 | Uint64 => 64 end.

(** Conversion to an unsigned, and to a signed, integer of [bits] bits. *)
Definition wrap_unsigned (bits z : Z) : Z := z mod 2 ^ bits.

Definition wrap_signed (bits z : Z) : Z :=
  (z + 2 ^ (bits - 1)) mod 2 ^ bits - 2 ^ (bits - 1).

(** *** Accessors of [reflect.Value] *)

Definition val_Bool (v : value) : bool :=
  match v with VBool b => b | _ => false end.

Definition val_Int (v : value) : Z :=
  match v with VInt i => i | _ => 0 end.

Definition val_Uint (v : value) : Z :=
  match v with VUint u => u | _ => 0 end.

Definition val_String (v : value) : list byte :=
  match v with VString s => s | _ => [] end.

Definition val_IsNil (v : value) : bool :=
  match v with
  | VPtr None | VSlice None => true
  | _ => false
  end.

(** The elements of a slice or an array; a nil slice has none. *)
Definition val_elems (v : value) : list value :=
  match v with
  | VSlice (Some l) => l
  | VArray l => l
  | _ => []
  end.

Definition val_Len (v : value) : Z := Z.of_nat (length (val_elems v)).

(** [val.Elem()] of a pointer. *)
Definition val_Elem (v : value) : value :=
  match v with VPtr (Some x) => x | _ => VOther end.

Definition val_fields (v : value) : list value :=
  match v with VStruct l => l | _ => [] end.

(** [val.SetInt] and [val.SetUint] narrow to the kind of the target. *)
Definition SetInt (k : int_kind) (x : Z) : value := VInt (wrap_signed (int_bits k) x).
Definition SetUint (k : uint_kind) (x : Z) : value := VUint (wrap_unsigned (uint_bits k) x).

(** [val.Bytes()] of a byte slice, and the values a byte buffer holds. *)
Definition val_Bytes (v : value) : list byte :=
  map (fun e => byte_of_Z (val_Uint e)) (val_elems v).

Definition bytes_values (bs : list byte) : list value :=
  map (fun b => VUint (Z_of_byte b)) bs.

(** [val.Type().Elem().Kind() == reflect.Uint8]: the kind of a defined
    type is the kind of its underlying type. *)
Fixpoint is_Uint8 (t : type) : bool :=
  match t with
  | TUint Uint8 => true
  | TNamed _ u => is_Uint8 u
  | _ => false
  end.

(** The zero value of a type: what [var x T], [reflect.New] and the
    elements of [reflect.MakeSlice] hold. *)
Fixpoint zero (t : type) : value :=
  match t with
  | TBool => VBool false
  | TInt _ => VInt 0
  | TUint _ => VUint 0
  | TString => VString []
  | TSlice _ => VSlice None
  | TArray n e => VArray (repeat (zero e) n)
  | TStruct fs => VStruct (zero_fields fs)
  | TPtr _ => VPtr None
  | TNamed _ u => zero u
  | TOther _ => VOther
  end
with zero_fields (fs : fields) : list value :=
  match fs with
  | FNil => []
  | FCons _ t rest => zero t :: zero_fields rest
  end.

(** ** The integer codec *)

(** The [n] low bytes of [u], the lowest first, and the number that a
    list of bytes spells that way. *)
Fixpoint le_bytes (n : nat) (u : Z) : list byte :=
  match n with
  | O => []
  | S n' => byte_of_Z u :: le_bytes n' (Z.shiftr u 8)
  end.

Fixpoint le_value (bs : list byte) : Z :=
  match bs with
  | [] => 0
  | b :: bs' => Z_of_byte b + Z.shiftl (le_value bs') 8
  end.

(** Modelled from the spec: [EncUint64] (the file of the package with the
    integer helpers is not among the sources). The spec: an integer is
    "exactly 8 bytes, little-endian". *)
Definition EncUint64 (u : Z) : list byte := le_bytes 8 u.

(** Modelled from the spec: [EncInt64], missing like [EncUint64]. The
    spec: "convert to a 64-bit little-endian byte pattern", a signed
    integer being "sign/zero-extended to 64 bits". *)
Definition EncInt64 (i : Z) : list byte := EncUint64 (wrap_unsigned 64 i).

(** Modelled from the spec: [DecUint64], missing like [EncUint64]. The
    spec: "decode reverses this". Of a longer slice the first 8 bytes
    count, a shorter one stands for its bytes followed by zeros. *)
Definition DecUint64 (b : list byte) : Z := le_value (firstn 8 b).

(** Modelled from the spec: [DecInt64], missing like [EncUint64]. The
    spec: "decode reverses this". *)
Definition DecInt64 (b : list byte) : Z := wrap_signed 64 (DecUint64 b).

(** [len] of a byte slice, as a Go [int]. *)
Definition len {A : Type} (l : list A) : Z := Z.of_nat (length l).

Definition maxDecodeLen : Z := 10 * 1024 * 1024.
Definition maxSliceLen : Z := 4 * 1024 * 1024.

(** ** The program around the package

    What the package asks of the program it is linked into: the
    [MarshalSia] and [UnmarshalSia] methods that defined types declare
    (looked up by the name of the type), and the size the compiler gives
    to a type ([reflect.Type.Size]). [MarshalSia] is declared on a value
    receiver; [UnmarshalSia] on a pointer receiver, so it updates the
    variable it is called on and may panic half-way: it returns the
    variable as it leaves it, and the panic if there is one. *)
Record Env : Type := {
  MarshalSia : string -> option (value -> list byte);
  UnmarshalSia : string -> option (list byte -> value -> value * option panic_value);
  Size : type -> Z
}.

(** ** Encoder *)

(** How a call that returns an [error] ends: [nil], an error, or a panic. *)
Inductive result : Type :=
| Nil
| Err (e : error)
| Panic (p : panic_value).

(** The sink [w] is a [bytes.Buffer], as in [Marshal] and [MarshalAll]:
    the bytes written so far. *)
Record Encoder : Type := { w : list byte }.

Definition Enc : Type := Encoder -> result * Encoder.

(** [if err := m; err != nil { return err }; k] *)
Definition and_then (m k : Enc) : Enc :=
  fun e => match m e with
           | (Nil, e') => k e'
           | r => r
           end.

Notation "m ;; k" := (and_then m k) (at level 61, right associativity).

Definition return_nil : Enc := fun e => (Nil, e).
Definition do_panic (p : panic_value) : Enc := fun e => (Panic p, e).

(** [bytes.Buffer.Write]: appends all of [p], returns [len(p), nil]. *)
Definition Buffer_Write (p : list byte) (e : Encoder) : (Z * option error) * Encoder :=
  ((len p, None), {| w := w e ++ p |}).

Definition write (p : list byte) : Enc :=
  fun e =>
    let '((n, err), e') := Buffer_Write p e in
    if negb (n =? len p) then (Err ErrShortWrite, e')
    else match err with
         | None => (Nil, e')
         | Some x => (Err x, e')
         end.

(** Modelled from the spec: [WritePrefix] (the file of the package with
    the prefix helpers is not among the sources). The spec: "write an
    8-byte little-endian length, then the raw bytes". *)
Definition WritePrefix (data : list byte) : Enc :=
  write (EncUint64 (len data)) ;; write data.

(** [for i := 0; i < n; i++ { if err := f(vs[i]); err != nil { return err } }] *)
Fixpoint each (f : value -> Enc) (vs : list value) : Enc :=
  match vs with
  | [] => return_nil
  | v :: vs' => f v ;; each f vs'
  end.

(** [val.Interface().(SiaMarshaler)]: the method set of a defined type
    holds its [MarshalSia]; so does the method set of a pointer to it,
    where the call dereferences the pointer and panics on nil. The result
    is what [m.MarshalSia()] returns, or its panic. *)
Definition marshaler_of (env : Env) (t : type) : option (value -> list byte + panic_value) :=
  match t with
  | TNamed name _ =>
      match MarshalSia env name with
      | Some m => Some (fun v => inl (m v))
      | None => None
      end
  | TPtr (TNamed name _) =>
      match MarshalSia env name with
      | Some m =>
          Some (fun v => if val_IsNil v
                         then inr (PString "value method MarshalSia called using nil pointer")
                         else inl (m (val_Elem v)))
      | None => None
      end
  | _ => None
  end.

(** The first statement of [encode]; [kind] is the [switch] below it. *)
Definition encode_with (env : Env) (kind : type -> value -> Enc) (t : type) (val : value) : Enc :=
  match marshaler_of env t with
  | Some m =>
      match m val with
      | inl b => WritePrefix b
      | inr p => do_panic p
      end
  | None => kind t val
  end.

(** The [reflect.Bool] case. *)
Definition encode_bool (b : bool) : Enc :=
  if b then write [x01] else write [x00].

(** The [reflect.Array] case, which the [reflect.Slice] case falls
    through to. *)
Definition encode_array (enc : value -> Enc) (elem : type) (val : value) : Enc :=
  if is_Uint8 elem then write (val_Bytes val)
  else each enc (val_elems val).

(** [val.Interface()] panics on a value reached through an unexported
    field, and it is the first thing [encode] calls. *)
Definition unexported_panic : panic_value :=
  PString "reflect.Value.Interface: cannot return value obtained from unexported field or method".

(** The [switch val.Kind()] of [Encoder.encode]. The presence byte of a
    pointer goes through [e.Encode] on a [bool], which has no methods and
    so ends in the [reflect.Bool] case. *)
Fixpoint encode_kind (env : Env) (t : type) (val : value) {struct t} : Enc :=
  match t with
  | TPtr elem =>
      encode_bool (negb (val_IsNil val)) ;;
      if negb (val_IsNil val)
      then encode_with env (encode_kind env) elem (val_Elem val)
      else return_nil
  | TBool => encode_bool (val_Bool val)
  | TInt _ => write (EncInt64 (val_Int val))
  | TUint _ => write (EncUint64 (val_Uint val))
  | TString => WritePrefix (val_String val)
  | TSlice elem =>
      write (EncUint64 (val_Len val)) ;;
      encode_array (encode_with env (encode_kind env) elem) elem val
  | TArray _ elem =>
      encode_array (encode_with env (encode_kind env) elem) elem val
  | TStruct fs => encode_fields env fs (val_fields val)
  | TNamed _ u => encode_kind env u val
  | TOther _ => do_panic (PCouldNotMarshal t)
  end
with encode_fields (env : Env) (fs : fields) (vals : list value) {struct fs} : Enc :=
  match fs, vals with
  | FCons exported t rest, v :: vals' =>
      (if exported then encode_with env (encode_kind env) t v
       else do_panic unexported_panic) ;;
      encode_fields env rest vals'
  | _, _ => return_nil
  end.

Definition encode (env : Env) (t : type) (val : value) : Enc :=
  encode_with env (encode_kind env) t val.

(** An [interface{}]: nil, or a dynamic type with its value. *)
Definition iface : Type := option (type * value).

(** [reflect.ValueOf(nil)] is the zero [Value], on which [Interface]
    panics. *)
Definition Encode (env : Env) (v : iface) : Enc :=
  match v with
  | Some (t, val) => encode env t val
  | None => do_panic (PString "reflect: call of reflect.Value.Interface on zero Value")
  end.

Definition NewEncoder (b : list byte) : Encoder := {| w := b |}.

(** How a call that returns a value ends. *)
Inductive outcome (A : Type) : Type :=
| Returned (a : A)
| Panicked (p : panic_value).
Arguments Returned {A} a.
Arguments Panicked {A} p.

(** [Marshal] drops the error of [Encode]; a panic goes through it. *)
Definition Marshal (env : Env) (v : iface) : outcome (list byte) :=
  match Encode env v (NewEncoder []) with
  | (Panic p, _) => Panicked p
  | (_, e) => Returned (w e)
  end.

Fixpoint MarshalAll_loop (env : Env) (v : list iface) (enc : Encoder) : outcome Encoder :=
  match v with
  | [] => Returned enc
  | x :: v' =>
      match Encode env x enc with
      | (Panic p, _) => Panicked p
      | (_, enc') => MarshalAll_loop env v' enc'
      end
  end.

Definition MarshalAll (env : Env) (v : list iface) : outcome (list byte) :=
  match MarshalAll_loop env v (NewEncoder []) with
  | Returned enc => Returned (w enc)
  | Panicked p => Panicked p
  end.

(** ** Decoder *)

(** The source [r] is a [bytes.Reader], as in [Unmarshal]: the bytes not
    yet read. [n] is the read count of the source. [allocated] is a ghost
    field: the bytes asked of the allocator so far, by [make],
    [reflect.MakeSlice] and [reflect.New]. *)
Record Decoder : Type := {
  r : list byte;
  n : Z;
  allocated : Z
}.

Definition Dec (A : Type) : Type := Decoder -> outcome A * Decoder.

Definition ret {A : Type} (a : A) : Dec A := fun d => (Returned a, d).

Definition bind {A B : Type} (m : Dec A) (k : A -> Dec B) : Dec B :=
  fun d => match m d with
           | (Returned a, d') => k a d'
           | (Panicked p, d') => (Panicked p, d')
           end.

Definition panic {A : Type} (p : panic_value) : Dec A := fun d => (Panicked p, d).

Notation "'let*' x ':=' m 'in' k" := (bind m (fun x => k))
  (at level 10, x name, m at level 100, k at level 200).
Notation "'let*' ' pat ':=' m 'in' k" :=
  (bind m (fun x => match x with pat => k end))
  (at level 10, pat pattern, m at level 100, k at level 200).

Definition alloc (k : Z) : Dec unit :=
  fun d => (Returned tt, {| r := r d; n := n d; allocated := allocated d + k |}).

(** [bytes.Reader.Read(p)] with [len(p) = k]: [0, io.EOF] at the end of
    the bytes, else as many bytes as [p] takes. *)
Definition Reader_Read (k : Z) (s : list byte) : (list byte * option error) * list byte :=
  match s with
  | [] => (([], Some EOF), [])
  | _ => ((firstn (Z.to_nat k) s, None), skipn (Z.to_nat k) s)
  end.

(** [Decoder.Read]: the read comes first, the count and its check after. *)
Definition Read (k : Z) : Dec (list byte * option error) :=
  fun d =>
    let '((p, err), s) := Reader_Read k (r d) in
    let d' := {| r := s; n := n d + len p; allocated := allocated d |} in
    if n d' >? maxDecodeLen
    then (Panicked (PString "encoded type exceeds size limit"), d')
    else (Returned (p, err), d').

(** [io.ReadAtLeast(d, buf, min)] with [min = len(buf) = k]: the loop
    [for n < min && err == nil], then the choice of the error. [got] is
    the filled part of [buf]. A [bytes.Reader] ends the loop within two
    rounds (see [ReadFull_rounds]); the loop of the model gives up with
    [io.ErrNoProgress] past its fuel. *)
Fixpoint ReadAtLeast (fuel : nat) (k : Z) (got : list byte) (err : option error)
  : Dec (list byte * option error) :=
  if (len got <? k) && (match err with None => true | Some _ => false end) then
    match fuel with
    | O => ret (got, Some ErrNoProgress)
    | S fuel' =>
        let* '(p, err') := Read (k - len got) in
        ReadAtLeast fuel' k (got ++ p) err'
    end
  else if len got >=? k then ret (got, None)
  else if (0 <? len got) && (match err with Some EOF => true | _ => false end)
  then ret (got, Some ErrUnexpectedEOF)
  else ret (got, err).

Definition ReadFull (k : Z) : Dec (list byte * option error) :=
  ReadAtLeast 2 k [] None.

(** [readN]: the second component of [ReadFull] decides; the buffer is
    full when it is [nil]. *)
Definition readN (k : Z) : Dec (list byte) :=
  let* _ := alloc k in
  let* '(b, err) := ReadFull k in
  match err with
  | Some e => panic (PError e)
  | None => ret b
  end.

(** Modelled from the spec: [ReadPrefix], missing like [WritePrefix]. Its
    reads go through [Decoder.Read]. The spec: "read the 8-byte length,
    validate it against the maximum permitted sequence length before
    allocating, then read exactly that many bytes; a length that would
    exceed the configured ceiling is a malformed-input error, not a
    partial read". *)
Definition ReadPrefix (maxLen : Z) : Dec (list byte * option error) :=
  let* _ := alloc 8 in
  let* '(prefix, err) := ReadFull 8 in
  match err with
  | Some e => ret ([], Some e)
  | None =>
      let dataLen := DecUint64 prefix in
      if dataLen >? maxLen then ret ([], Some (ErrLength dataLen maxLen))
      else
        let* _ := alloc dataLen in
        ReadFull dataLen
  end.

Definition readPrefix : Dec (list byte) :=
  let* '(b, err) := ReadPrefix maxSliceLen in
  match err with
  | Some e => panic (PError e)
  | None => ret b
  end.

(** A decoding step works on its target in place: it ends with the target
    as it leaves it, and with the panic if it panicked. *)
Definition Upd : Type := Decoder -> (value * option panic_value) * Decoder.

(** Run [m], then go on with [k]; if [m] panics the target is as it was. *)
Definition read_then {A : Type} (val : value) (m : Dec A) (k : A -> Upd) : Upd :=
  fun d => match m d with
           | (Returned a, d') => k a d'
           | (Panicked p, d') => ((val, Some p), d')
           end.

Definition set (v : value) : Upd := fun d => ((v, None), d).
Definition raise (val : value) (p : panic_value) : Upd := fun d => ((val, Some p), d).

(** [uint64(val.Type().Elem().Size())] *)
Definition Size64 (env : Env) (t : type) : Z := wrap_unsigned 64 (Size env t).

(** The largest request the allocator of the runtime takes; beyond it
    [reflect.MakeSlice] panics. *)
Definition maxAlloc : Z := 2 ^ 48.

(** [val.Addr().Interface().(SiaUnmarshaler)]: every value [decode] meets
    is addressable, and the method set of a pointer to a defined type
    holds its [UnmarshalSia]. *)
Definition unmarshaler_of (env : Env) (t : type)
  : option (list byte -> value -> value * option panic_value) :=
  match t with
  | TNamed name _ => UnmarshalSia env name
  | _ => None
  end.

(** The first statement of [decode]; [kind] is the [switch] below it. *)
Definition decode_with (env : Env) (kind : type -> value -> Upd) (t : type) (val : value) : Upd :=
  match unmarshaler_of env t with
  | Some u => read_then val readPrefix (fun b d => (u b val, d))
  | None => kind t val
  end.

(** The [reflect.Bool] case. *)
Definition decode_bool (val : value) : Upd :=
  read_then val (readN 1) (fun b =>
    if Z_of_byte (nth 0 b x00) >? 1
    then raise val (PString "boolean value was not 0 or 1")
    else set (VBool (Z_of_byte (nth 0 b x00) =? 1))).

(** [for i := 0; i < val.Len(); i++ { d.decode(val.Index(i)) }]: the
    elements before a panic are decoded, the ones after it untouched. *)
Fixpoint each_in_place (f : value -> Upd) (vs : list value) (d : Decoder)
  : (list value * option panic_value) * Decoder :=
  match vs with
  | [] => (([], None), d)
  | v :: vs' =>
      match f v d with
      | ((v', None), d') =>
          let '((vs'', st), d'') := each_in_place f vs' d' in
          ((v' :: vs'', st), d'')
      | ((v', Some p), d') => ((v' :: vs', Some p), d')
      end
  end.

(** The slice or array [val] with its elements replaced. *)
Definition set_elems (val : value) (l : list value) : value :=
  match val with
  | VSlice _ => VSlice (Some l)
  | VArray _ => VArray l
  | _ => val
  end.

(** The bytes read from the source between two states of the decoder. *)
Definition consumed (d d' : Decoder) : list byte :=
  firstn (length (r d) - length (r d')) (r d).

(** [buf] after a read that put [got] at its start. *)
Definition fill (buf : list value) (got : list byte) : list value :=
  bytes_values got ++ skipn (length got) buf.

(** The [reflect.Array] case, which the [reflect.Slice] case falls
    through to. [io.ReadFull] reads into the memory of [val]: what it
    read is in [val] also when the read ends in an error or in the panic
    of [Decoder.Read]. *)
Definition decode_array (dec : value -> Upd) (elem : type) (val : value) : Upd :=
  if is_Uint8 elem then
    fun d =>
      match ReadFull (val_Len val) d with
      | (Returned (got, err), d') =>
          ((set_elems val (fill (val_elems val) got),
            match err with Some e => Some (PError e) | None => None end), d')
      | (Panicked p, d') =>
          ((set_elems val (fill (val_elems val) (consumed d d')), Some p), d')
      end
  else
    fun d =>
      let '((l, st), d') := each_in_place dec (val_elems val) d in
      ((set_elems val l, st), d').

(** [reflect.MakeSlice(val.Type(), int(sliceLen), int(sliceLen))] *)
Definition MakeSlice (env : Env) (elem : type) (sliceLen : Z) : Dec value :=
  if sliceLen * Size64 env elem >? maxAlloc
  then panic (PString "runtime: allocation size out of range")
  else
    let* _ := alloc (sliceLen * Size64 env elem) in
    ret (VSlice (Some (repeat (zero elem) (Z.to_nat sliceLen)))).

(** The [switch val.Kind()] of [Decoder.decode]. The presence byte of a
    pointer is decoded into a local [bool], which has no methods and so
    ends in the [reflect.Bool] case. *)
Fixpoint decode_kind (env : Env) (t : type) (val : value) {struct t} : Upd :=
  match t with
  | TPtr elem =>
      fun d =>
        match decode_bool (VBool false) d with
        | ((_, Some p), d') => ((val, Some p), d')
        | ((valid, None), d') =>
            if negb (val_Bool valid) then ((val, None), d')
            else
              let '(val1, d1) :=
                if val_IsNil val
                then (VPtr (Some (zero elem)), snd (alloc (Size64 env elem) d'))
                else (val, d') in
              let '((x, st), d2) :=
                decode_with env (decode_kind env) elem (val_Elem val1) d1 in
              ((VPtr (Some x), st), d2)
        end
  | TBool => decode_bool val
  | TInt k => read_then val (readN 8) (fun b => set (SetInt k (DecInt64 b)))
  | TUint k => read_then val (readN 8) (fun b => set (SetUint k (DecUint64 b)))
  | TString => read_then val readPrefix (fun b => set (VString b))
  | TSlice elem =>
      read_then val (readN 8) (fun b =>
        let sliceLen := DecUint64 b in
        if (sliceLen >? 2 ^ 31 - 1)
           || (wrap_unsigned 64 (sliceLen * Size64 env elem) >? maxSliceLen)
        then raise val (PString "slice is too large")
        else
          read_then val (MakeSlice env elem sliceLen) (fun val' =>
            decode_array (decode_with env (decode_kind env) elem) elem val'))
  | TArray _ elem =>
      decode_array (decode_with env (decode_kind env) elem) elem val
  | TStruct fs =>
      fun d =>
        let '((l, st), d') := decode_fields env fs (val_fields val) d in
        ((VStruct l, st), d')
  | TNamed _ u => decode_kind env u val
  | TOther _ => raise val (PString "unknown type")
  end
with decode_fields (env : Env) (fs : fields) (vals : list value) (d : Decoder) {struct fs}
  : (list value * option panic_value) * Decoder :=
  match fs, vals with
  | FCons exported t rest, v :: vals' =>
      if exported then
        match decode_with env (decode_kind env) t v d with
        | ((v', None), d') =>
            let '((l, st), d'') := decode_fields env rest vals' d' in
            ((v' :: l, st), d'')
        | ((v', Some p), d') => ((v' :: vals', Some p), d')
        end
      else ((vals, Some unexported_panic), d)
  | _, _ => ((vals, None), d)
  end.

Definition decode (env : Env) (t : type) (val : value) : Upd :=
  decode_with env (decode_kind env) t val.

(** The errors of [Decode]: [errBadPointer], and what the deferred
    function builds, ["could not decode type %s: %v"], kept as the type
    and the recovered value. *)
Inductive decode_error : Type :=
| errBadPointer
| errCouldNotDecode (t : type) (r : panic_value).

(** The element type of a type whose kind is [reflect.Ptr]. *)
Fixpoint ptr_elem (t : type) : option type :=
  match t with
  | TPtr e => Some e
  | TNamed _ u => ptr_elem u
  | _ => None
  end.

(** [Decode] returns its error; the target [v] is given back as the call
    leaves it. *)
Definition Decode (env : Env) (v : iface) (d : Decoder)
  : (option decode_error * iface) * Decoder :=
  match v with
  | Some (t, pval) =>
      match ptr_elem t with
      | Some elem =>
          if val_IsNil pval then ((Some errBadPointer, v), d)
          else
            let d0 := {| r := r d; n := 0; allocated := allocated d |} in
            let '((x, st), d') := decode env elem (val_Elem pval) d0 in
            ((match st with
              | Some p => Some (errCouldNotDecode elem p)
              | None => None
              end, Some (t, VPtr (Some x))), d')
      | None => ((Some errBadPointer, v), d)
      end
  | None => ((Some errBadPointer, v), d)
  end.

Definition NewDecoder (b : list byte) : Decoder :=
  {| r := b; n := 0; allocated := 0 |}.

Definition Unmarshal (env : Env) (b : list byte) (v : iface) : option decode_error * iface :=
  fst (Decode env v (NewDecoder b)).

(** ** A program to run the package in

    The layout of the gc compiler on a 64-bit target, and a program none
    of whose types declares [MarshalSia] or [UnmarshalSia]. *)

Definition round_up (x a : Z) : Z := (x + a - 1) / a * a.

Fixpoint align_gc (t : type) : Z :=
  match t with
  | TBool => 1
  | TInt k => int_bits k / 8
  | TUint k => uint_bits k / 8
  | TArray _ e => align_gc e
  | TStruct fs => align_fields fs
  | TNamed _ u => align_gc u
  | TOther Float32 => 4
  | _ => 8
  end
with align_fields (fs : fields) : Z :=
  match fs with
  | FNil => 1
  | FCons _ t rest => Z.max (align_gc t) (align_fields rest)
  end.

Fixpoint Size_gc (t : type) : Z :=
  match t with
  | TBool => 1
  | TInt k => int_bits k / 8
  | TUint k => uint_bits k / 8
  | TString => 16
  | TSlice _ => 24
  | TArray size e => Z.of_nat size * Size_gc e
  | TStruct fs => round_up (end_fields fs 0) (align_fields fs)
  | TPtr _ => 8
  | TNamed _ u => Size_gc u
  | TOther Float32 => 4
  | TOther (Complex128 | Interface) => 16
  | TOther _ => 8
  end
with end_fields (fs : fields) (off : Z) : Z :=
  match fs with
  | FNil => off
  | FCons _ t rest => end_fields rest (round_up off (align_gc t) + Size_gc t)
  end.

Definition plain : Env :=
  {| MarshalSia := fun _ => None;
     UnmarshalSia := fun _ => None;
     Size := Size_gc |}.

(** [type foo struct { S string; I int }] and [foo{"bar", 3}], the
    example of the package comment. *)
Definition foo : type := TNamed "foo" (TStruct (FCons true TString (FCons true (TInt Int) FNil))).
Definition bar : list byte := [x62; x61; x72].
Definition foo_bar_3 : value := VStruct [VString bar; VInt 3].

(** ** Vocabulary of the statements *)

(** *** Reading and writing *)

(** [d'] is [d] after [got] was read from the source. *)
Definition moved (d : Decoder) (got : list byte) (d' : Decoder) : Prop :=
  r d = got ++ r d' /\ n d' = n d + len got /\ allocated d' = allocated d.

(** How a call of [io.ReadFull] on the decoder ends. *)
Inductive ReadFull_outcome (k : Z) (d : Decoder)
  : outcome (list byte * option error) * Decoder -> Prop :=
| RF_full (got : list byte) (d' : Decoder) :
    moved d got d' -> len got = Z.max 0 k ->
    (n d <= maxDecodeLen -> n d' <= maxDecodeLen) ->
    ReadFull_outcome k d (Returned (got, None), d')
| RF_error (got : list byte) (d' : Decoder) :
    moved d got d' -> r d' = [] -> len got < k ->
    (n d <= maxDecodeLen -> n d' <= maxDecodeLen) ->
    ReadFull_outcome k d
      (Returned (got, Some (match got with [] => EOF | _ => ErrUnexpectedEOF end)), d')
| RF_over (got : list byte) (d' : Decoder) :
    moved d got d' -> len got <= k -> maxDecodeLen < n d' ->
    ReadFull_outcome k d (Panicked (PString "encoded type exceeds size limit"), d').

(** What an encoding step does to a buffer that already holds bytes is
    what it does to an empty one, after those bytes; and it never returns
    an error, the sink being a [bytes.Buffer]. *)
Definition buffered (m : Enc) : Prop :=
  (forall err, fst (m (NewEncoder [])) <> Err err) /\
  forall e, m e = (fst (m (NewEncoder [])), {| w := w e ++ w (snd (m (NewEncoder []))) |}).

(** The bytes an encoding step writes to an empty buffer. *)
Definition bytes_of (enc : Enc) : list byte := w (snd (enc (NewEncoder []))).

(** The concatenation of what a list of calls returns; the first panic
    if one of them panics. *)
Fixpoint concat_all (os : list (outcome (list byte))) : outcome (list byte) :=
  match os with
  | [] => Returned []
  | Returned b :: os' =>
      match concat_all os' with
      | Returned bs => Returned (b ++ bs)
      | Panicked p => Panicked p
      end
  | Panicked p :: _ => Panicked p
  end.

(** *** Types and values the codec handles *)




(** A value of the type: what a Go variable of type [t] can hold. *)
Fixpoint has_type (t : type) (v : value) : bool :=
  match t with
  | TBool => match v with VBool _ => true | _ => false end
  | TInt k =>
      match v with
      | VInt i => (- 2 ^ (int_bits k - 1) <=? i) && (i <? 2 ^ (int_bits k - 1))
      | _ => false
      end
  | TUint k =>
      match v with
      | VUint u => (0 <=? u) && (u <? 2 ^ uint_bits k)
      | _ => false
      end
  | TString => match v with VString _ => true | _ => false end
  | TSlice e =>
      match v with
      | VSlice None => true
      | VSlice (Some l) => forallb (has_type e) l
      | _ => false
      end
  | TArray size e =>
      match v with
      | VArray l => Nat.eqb (length l) size && forallb (has_type e) l
      | _ => false
      end
  | TStruct fs => match v with VStruct l => has_types fs l | _ => false end
  | TPtr e =>
      match v with
      | VPtr None => true
      | VPtr (Some x) => has_type e x
      | _ => false
      end
  | TNamed _ u => has_type u v
  | TOther _ => match v with VOther => true | _ => false end
  end
with has_types (fs : fields) (l : list value) : bool :=
  match fs, l with
  | FNil, [] => true
  | FCons _ t rest, v :: l' => has_type t v && has_types rest l'
  | _, _ => false
  end.

Definition is_None {A : Type} (o : option A) : bool :=
  match o with None => true | Some _ => false end.

(** The types the switch of [encode] and of [decode] handles all through:
    no kind without a case, no unexported field, and no defined type that
    brings its own [MarshalSia] or [UnmarshalSia]. *)
Fixpoint supported (env : Env) (t : type) : bool :=
  match t with
  | TBool | TInt _ | TUint _ | TString => true
  | TSlice e => supported env e
  | TArray _ e => supported env e
  | TStruct fs => supported_fields env fs
  | TPtr e => supported env e
  | TNamed name u =>
      is_None (MarshalSia env name) && is_None (UnmarshalSia env name) && supported env u
  | TOther _ => false
  end
with supported_fields (env : Env) (fs : fields) : bool :=
  match fs with
  | FNil => true
  | FCons exported t rest => exported && supported env t && supported_fields env rest
  end.

(** The value passes the checks that the decoder makes on a length
    prefix: every slice in it has at most [1<<31-1] elements that take at
    most [maxSliceLen] bytes of memory, and every string at most
    [maxSliceLen] bytes. *)
Fixpoint within_limits (env : Env) (t : type) (v : value) : bool :=
  match t with
  | TString => len (val_String v) <=? maxSliceLen
  | TSlice e =>
      match v with
      | VSlice (Some l) =>
          (len l <=? 2 ^ 31 - 1) && (len l * Size64 env e <=? maxSliceLen)
          && forallb (within_limits env e) l
      | _ => true
      end
  | TArray _ e => forallb (within_limits env e) (val_elems v)
  | TStruct fs => within_fields env fs (val_fields v)
  | TPtr e =>
      match v with
      | VPtr (Some x) => within_limits env e x
      | _ => true
      end
  | TNamed _ u => within_limits env u v
  | _ => true
  end
with within_fields (env : Env) (fs : fields) (l : list value) : bool :=
  match fs, l with
  | FCons _ t rest, v :: l' => within_limits env t v && within_fields env rest l'
  | _, _ => true
  end.

(** The value with every nil slice in it replaced by the empty slice. *)
Fixpoint normalize (v : value) : value :=
  match v with
  | VSlice None => VSlice (Some [])
  | VSlice (Some l) => VSlice (Some (map normalize l))
  | VArray l => VArray (map normalize l)
  | VStruct l => VStruct (map normalize l)
  | VPtr (Some x) => VPtr (Some (normalize x))
  | _ => v
  end.



(** *** How a decode ends *)

(** The panic of [Decoder.Read]. *)
Definition size_limit : panic_value := PString "encoded type exceeds size limit".

(** The panics that [decode] can end in. *)
Inductive violation (env : Env) : panic_value -> Prop :=
| V_bool : violation env (PString "boolean value was not 0 or 1")
| V_slice : violation env (PString "slice is too large")
| V_alloc : violation env (PString "runtime: allocation size out of range")
| V_prefix (dataLen : Z) :
    maxSliceLen < dataLen -> violation env (PError (ErrLength dataLen maxSliceLen))
| V_total : violation env size_limit
| V_eof : violation env (PError EOF)
| V_unexpected_eof : violation env (PError ErrUnexpectedEOF)
| V_custom (name : string) (u : list byte -> value -> value * option panic_value)
           (b : list byte) (v v' : value) (p : panic_value) :
    UnmarshalSia env name = Some u -> u b v = (v', Some p) -> violation env p
| V_kind : violation env (PString "unknown type")
| V_unexported : violation env unexported_panic.

(** A step from [d] to [d'] that ends in [st] ends well: it has kept the
    read count within the ceiling unless it ends in the panic of
    [Decoder.Read], and if it ends in a panic it is one of [violation]. *)
Definition ends_well (env : Env) (d : Decoder) (st : option panic_value) (d' : Decoder) : Prop :=
  (n d <= maxDecodeLen -> n d' <= maxDecodeLen \/ st = Some size_limit) /\
  (forall p, st = Some p -> violation env p).

Definition status {A : Type} (o : outcome A) : option panic_value :=
  match o with
  | Returned _ => None
  | Panicked p => Some p
  end.

Definition guarded (env : Env) (u : Upd) : Prop :=
  forall d, ends_well env d (snd (fst (u d))) (snd (u d)).

Definition guarded_read {A : Type} (env : Env) (m : Dec A) : Prop :=
  forall d, ends_well env d (status (fst (m d))) (snd (m d)).

(** What [Decode] decodes into: the type and the value behind [v], when
    [v] is a pointer that is not nil. *)
Definition target_of (v : iface) : option (type * value) :=
  match v with
  | Some (t, pval) =>
      match ptr_elem t with
      | Some elem => if val_IsNil pval then None else Some (elem, val_Elem pval)
      | None => None
      end
  | None => None
  end.

(** The type an error of [Decode] names, if it names one. *)
Definition error_type (e : decode_error) : option type :=
  match e with
  | errBadPointer => None
  | errCouldNotDecode t _ => Some t
  end.

(** Encoding and decoding of a value of the type agree: the encoder
    writes some bytes [bs] and returns nil, and the decoder, on a source
    that starts with [bs] and a target that holds the zero value, reads
    just [bs] and leaves the normalized value in the target. *)
Definition agree (enc : Enc) (dec : Upd) (v : value) : Prop :=
  exists bs : list byte,
    (forall e, enc e = (Nil, {| w := w e ++ bs |})) /\
    forall d rest,
      r d = bs ++ rest -> n d + len bs <= maxDecodeLen ->
      exists a, dec d = ((v, None), {| r := rest; n := n d + len bs; allocated := a |}).

(** The two errors of a read that finds the source too short. *)
Definition eofish (p : panic_value) : Prop :=
  p = PError EOF \/ p = PError ErrUnexpectedEOF.

(** A decoding step fails on every source that stops inside [bs]: given
    only a proper prefix of [bs], it ends in the panic of a short read. *)
Definition cut_fails {A : Type} (dec : Decoder -> (A * option panic_value) * Decoder)
           (bs : list byte) : Prop :=
  forall p q d,
    bs = p ++ q -> q <> [] -> r d = p -> n d + len p <= maxDecodeLen ->
    exists x st d', dec d = ((x, Some st), d') /\ eofish st.

(** *** Values and programs of the examples *)

(** The length prefix of an empty sequence. *)
Definition zeros8 : list byte := [x00; x00; x00; x00; x00; x00; x00; x00].

(** A [*bool] that is set. *)
Definition set_pointer : value := VPtr (Some (VBool true)).


(** A number of bytes above the total ceiling, and the type of an array
    of that many bytes. *)
Definition over_ceiling : nat := Z.to_nat (maxDecodeLen + 1).
Definition big_array : type := TArray over_ceiling (TUint Uint8).


(** A program with one defined type, [checked], whose [UnmarshalSia]
    takes a blob of one byte and panics on any other. *)
Definition checked_UnmarshalSia (b : list byte) (v : value) : value * option panic_value :=
  match b with
  | [x] => (VUint (Z_of_byte x), None)
  | _ => (v, Some (PString "checked: bad length"))
  end.

Definition with_checked : Env :=
  {| MarshalSia := fun name =>
       if String.eqb name "checked"
       then Some (fun v => [byte_of_Z (val_Uint v)])
       else None;
     UnmarshalSia := fun name =>
       if String.eqb name "checked" then Some checked_UnmarshalSia else None;
     Size := Size_gc |}.

Definition checked : type := TNamed "checked" (TUint Uint8).


(** *** Tactics *)

(** Tactics: the outcome of a comparison that [lia] can decide, and the
    constants of the package as numbers. *)
Ltac cmp_true c :=
  replace c with true
    by (symmetry; first [apply Z.ltb_lt | apply Z.leb_le | apply Z.eqb_eq]; lia).

Ltac cmp_false c :=
  replace c with false
    by (symmetry; first [apply Z.ltb_ge | apply Z.leb_gt | apply Z.eqb_neq]; lia).

Ltac decide_cmp :=
  rewrite ?Z.gtb_ltb, ?Z.geb_leb;
  repeat match goal with
  | |- context [?a <? ?b] => first [cmp_true (a <? b) | cmp_false (a <? b)]
  | |- context [?a <=? ?b] => first [cmp_true (a <=? b) | cmp_false (a <=? b)]
  | |- context [?a =? ?b] => first [cmp_true (a =? b) | cmp_false (a =? b)]
  end.

Ltac consts :=
  unfold maxSliceLen, maxDecodeLen, maxAlloc in *;
  change (2 ^ 64) with 18446744073709551616 in *;
  change (2 ^ 48) with 281474976710656 in *;
  change (2 ^ 31) with 2147483648 in *.

(** *** Vocabulary of the further properties *)

(** What [Marshal] makes of an encoding step run on an empty buffer. *)
Definition run (m : Enc) : outcome (list byte) :=
  match m (NewEncoder []) with
  | (Panic p, _) => Panicked p
  | (_, e) => Returned (w e)
  end.


(** [d'] is [d] after some bytes were taken from the front of the source
    and counted. *)
Definition took (d d' : Decoder) : Prop :=
  exists got, r d = got ++ r d' /\ n d' = n d + len got.

(** A decoding step only takes bytes from the front of the source and
    counts each of them. *)
Definition counting {A : Type} (m : Decoder -> A * Decoder) : Prop :=
  forall d, took d (snd (m d)).



(** The variable of type [t] that holds [v], by its address. *)
Definition holding (t : type) (v : value) : iface := Some (TPtr t, VPtr (Some v)).



(** The number of bytes that every value of the type encodes to, for a
    type with no string, slice or pointer in it: a byte of an array
    takes one byte, every other integer eight. *)
Fixpoint fixed_size (t : type) : option Z :=
  match t with
  | TBool => Some 1
  | TInt _ | TUint _ => Some 8
  | TArray size e =>
      if is_Uint8 e then Some (Z.of_nat size)
      else match fixed_size e with
           | Some k => Some (Z.of_nat size * k)
           | None => None
           end
  | TStruct fs => fixed_fields fs
  | TNamed _ u => fixed_size u
  | _ => None
  end
with fixed_fields (fs : fields) : option Z :=
  match fs with
  | FNil => Some 0
  | FCons _ t rest =>
      match fixed_size t, fixed_fields rest with
      | Some a, Some b => Some (a + b)
      | _, _ => None
      end
  end.

(** * The callers of the package and the modules beside it *)

(** [l[i]]; [None] stands for the panic of an index out of range. *)
Definition index {A : Type} (l : list A) (i : Z) : option A :=
  if i <? 0 then None else nth_error l (Z.to_nat i).

Definition index_out_of_range : panic_value := PString "runtime error: index out of range".

(** ** Package miner: [ReceiveTransactionPoolUpdate]

    The types of package [types] ([Block], [BlockID], [Target],
    [Timestamp]) are parameters, and so is what the miner calls outside
    its own file. The lock of the miner is left out: a call runs alone. *)
Module miner.
Section Model.
Context {Block BlockID Target Timestamp : Type}.

(** The fields of [modules.ConsensusChange] that the miner reads. *)
Record ConsensusChange : Type := {
  RevertedBlocks : list Block;
  AppliedBlocks : list Block
}.

(** What is declared outside the file: the method [ID] of a block, the
    two queries of the consensus set [m.cs], the constants [build.DEBUG]
    and [types.BlockSizeLimit], the conversion to the integer type
    [types.BlockHeight], and the type [types.Transaction] as [reflect]
    sees it. *)
Record World : Type := {
  ID : Block -> BlockID;
  ChildTarget : BlockID -> Target * bool;
  EarliestChildTimestamp : BlockID -> Timestamp * bool;
  DEBUG : bool;
  BlockSizeLimit : Z;
  BlockHeight : Z -> Z;
  Transaction : type
}.

(** The fields of [Miner] that the update touches. [notified] is a ghost
    field: the number of calls of [notifySubscribers]. *)
Record Miner : Type := {
  height : Z;
  transactions : list value;
  parent : BlockID;
  target : Target;
  earliestTimestamp : Timestamp;
  notified : nat
}.

Definition notifySubscribers (m : Miner) : Miner :=
  {| height := height m; transactions := transactions m; parent := parent m;
     target := target m; earliestTimestamp := earliestTimestamp m;
     notified := S (notified m) |}.

(** The [for] loop: [remainingSize] is an [int] of 64 bits. A panic of
    [encoding.Marshal] leaves [m.transactions] as filled so far. *)
Fixpoint ReceiveTransactionPoolUpdate_loop (w : World) (env : Env)
         (unconfirmedTransactions : list value) (remainingSize : Z)
         (transactions : list value) : list value * option panic_value :=
  match unconfirmedTransactions with
  | [] => (transactions, None)
  | tx :: unconfirmedTransactions' =>
      match Marshal env (Some (Transaction w, tx)) with
      | Panicked p => (transactions, Some p)
      | Returned b =>
          let remainingSize := wrap_signed 64 (remainingSize - len b) in
          if remainingSize <? 0 then (transactions, None)
          else ReceiveTransactionPoolUpdate_loop w env unconfirmedTransactions'
                 remainingSize (transactions ++ [tx])
      end
  end.

(** The call ends with the panic it raised, if any, and with the miner
    as it leaves it; the deferred [notifySubscribers] runs either way. *)
Definition ReceiveTransactionPoolUpdate (w : World) (env : Env) (cc : ConsensusChange)
           (unconfirmedTransactions : list value) (m : Miner)
  : option panic_value * Miner :=
  let height1 := BlockHeight w (height m - BlockHeight w (len (RevertedBlocks cc))) in
  let height2 := BlockHeight w (height1 + BlockHeight w (len (AppliedBlocks cc))) in
  let '(txs, st) :=
    ReceiveTransactionPoolUpdate_loop w env unconfirmedTransactions
      (BlockSizeLimit w - 5000) [] in
  let m1 := {| height := height2; transactions := txs; parent := parent m;
               target := target m; earliestTimestamp := earliestTimestamp m;
               notified := notified m |} in
  match st with
  | Some p => (Some p, notifySubscribers m1)
  | None =>
      if len (AppliedBlocks cc) =? 0 then
        if DEBUG w && negb (len (RevertedBlocks cc) =? 0)
        then (Some (PString "blocks reverted without being added"), notifySubscribers m1)
        else (None, notifySubscribers m1)
      else
        match index (AppliedBlocks cc) (len (AppliedBlocks cc) - 1) with
        | None => (Some index_out_of_range, notifySubscribers m1)
        | Some block =>
            let parent' := ID w block in
            let '(target', exists_1) := ChildTarget w parent' in
            let '(timestamp, exists_2) := EarliestChildTimestamp w parent' in
            let m2 := {| height := height2; transactions := txs; parent := parent';
                         target := target m; earliestTimestamp := earliestTimestamp m;
                         notified := notified m |} in
            if DEBUG w && negb exists_1
            then (Some (PString "could not get child target"), notifySubscribers m2)
            else if DEBUG w && negb exists_2
            then (Some (PString "could not get child earliest timestamp"),
                  notifySubscribers m2)
            else (None,
                  notifySubscribers
                    {| height := height2; transactions := txs; parent := parent';
                       target := target'; earliestTimestamp := timestamp;
                       notified := notified m |})
        end
  end.

End Model.

(** The number of bytes a transaction encodes to, and the sum over a
    list of transactions. *)
Definition size (env : Env) (t : type) (tx : value) : Z :=
  match Marshal env (Some (t, tx)) with
  | Returned b => len b
  | Panicked _ => 0
  end.

Definition total_size (env : Env) (t : type) (txs : list value) : Z :=
  fold_right (fun tx acc => size env t tx + acc) 0 txs.

(** A small program around the miner: blocks, identifiers, targets and
    timestamps carry nothing, transactions are strings, and a block
    takes 5020 bytes. *)
Definition small_world : @World unit unit unit unit :=
  {| ID := fun b => b;
     ChildTarget := fun _ => (tt, true);
     EarliestChildTimestamp := fun _ => (tt, true);
     DEBUG := true;
     BlockSizeLimit := 5020;
     BlockHeight := wrap_unsigned 64;
     Transaction := TString |}.

Definition one_block : @ConsensusChange unit :=
  {| RevertedBlocks := []; AppliedBlocks := [tt] |}.

Definition idle : @Miner unit unit unit :=
  {| height := 0; transactions := []; parent := tt; target := tt;
     earliestTimestamp := tt; notified := 0 |}.

Definition pool : list value := [VString bar; VString bar; VString []].

End miner.

(** ** Package blockexplorer: [ReceiveConsensusSetUpdate]

    The types [Block] and [Currency] of package [types] and the database
    behind [be.db] are parameters. The lock of the explorer is left out:
    a call runs alone. *)
Module blockexplorer.
Section Model.
Context {Block Currency DB : Type}.

(** A [modules.FileContractDiff], as far as the explorer reads it:
    whether [Direction] is [modules.DiffApply], and
    [FileContract.Payout]. *)
Record FileContractDiff : Type := {
  Direction : bool;
  Payout : Currency
}.

(** The fields of [modules.ConsensusChange] that the explorer reads. *)
Record ConsensusChange : Type := {
  FileContractDiffs : list FileContractDiff;
  RevertedBlocks : list Block;
  AppliedBlocks : list Block
}.

(** What is declared outside the file: the methods [Add] and [Sub] of a
    [types.Currency], the conversion to the integer type
    [types.BlockHeight], and [addBlockDB], which returns the database as
    it leaves it and the text of its error, if any. *)
Record World : Type := {
  Add : Currency -> Currency -> Currency;
  Sub : Currency -> Currency -> Currency;
  BlockHeight : Z -> Z;
  addBlockDB : DB -> Block -> DB * option string
}.

(** The fields of [BlockExplorer] that the update touches. The two
    counters are [uint64]. [printed] and [updates] are ghost fields: the
    errors printed so far, and the number of calls of
    [updateSubscribers]. *)
Record BlockExplorer : Type := {
  db : DB;
  currentBlock : Block;
  blockchainHeight : Z;
  activeContracts : Z;
  totalContracts : Z;
  activeContractCost : Currency;
  totalContractCost : Currency;
  printed : list string;
  updates : nat
}.

(** The body of the loop over [cc.FileContractDiffs]. *)
Definition count_diff (w : World) (be : BlockExplorer) (diff : FileContractDiff)
  : BlockExplorer :=
  if Direction diff then
    {| db := db be; currentBlock := currentBlock be;
       blockchainHeight := blockchainHeight be;
       activeContracts := wrap_unsigned 64 (activeContracts be + 1);
       totalContracts := wrap_unsigned 64 (totalContracts be + 1);
       activeContractCost := Add w (activeContractCost be) (Payout diff);
       totalContractCost := Add w (totalContractCost be) (Payout diff);
       printed := printed be; updates := updates be |}
  else
    {| db := db be; currentBlock := currentBlock be;
       blockchainHeight := blockchainHeight be;
       activeContracts := wrap_unsigned 64 (activeContracts be - 1);
       totalContracts := totalContracts be;
       activeContractCost := Sub w (activeContractCost be) (Payout diff);
       totalContractCost := totalContractCost be;
       printed := printed be; updates := updates be |}.

(** The body of the loop over [cc.AppliedBlocks]. *)
Definition add_block (w : World) (be : BlockExplorer) (block : Block) : BlockExplorer :=
  let '(db', err) := addBlockDB w (db be) block in
  {| db := db'; currentBlock := currentBlock be;
     blockchainHeight := BlockHeight w (blockchainHeight be + 1);
     activeContracts := activeContracts be; totalContracts := totalContracts be;
     activeContractCost := activeContractCost be;
     totalContractCost := totalContractCost be;
     printed := match err with
                | Some e => printed be ++ [e]
                | None => printed be
                end;
     updates := updates be |}.

(** The call ends with the panic it raised, if any, and with the explorer
    as it leaves it. *)
Definition ReceiveConsensusSetUpdate (w : World) (cc : ConsensusChange) (be : BlockExplorer)
  : option panic_value * BlockExplorer :=
  let be1 := fold_left (count_diff w) (FileContractDiffs cc) be in
  let be2 :=
    {| db := db be1; currentBlock := currentBlock be1;
       blockchainHeight :=
         BlockHeight w (blockchainHeight be1 - BlockHeight w (len (RevertedBlocks cc)));
       activeContracts := activeContracts be1; totalContracts := totalContracts be1;
       activeContractCost := activeContractCost be1;
       totalContractCost := totalContractCost be1;
       printed := printed be1; updates := updates be1 |} in
  let be3 := fold_left (add_block w) (AppliedBlocks cc) be2 in
  match index (AppliedBlocks cc) (len (AppliedBlocks cc) - 1) with
  | None => (Some index_out_of_range, be3)
  | Some block =>
      (None,
       {| db := db be3; currentBlock := block;
          blockchainHeight := blockchainHeight be3;
          activeContracts := activeContracts be3; totalContracts := totalContracts be3;
          activeContractCost := activeContractCost be3;
          totalContractCost := totalContractCost be3;
          printed := printed be3; updates := S (updates be3) |})
  end.

End Model.

(** The number of diffs of a list that apply a contract, and that revert
    one. *)
Definition applied {Currency : Type} (diffs : list (@FileContractDiff Currency)) : Z :=
  len (filter Direction diffs).

Definition reverted {Currency : Type} (diffs : list (@FileContractDiff Currency)) : Z :=
  len (filter (fun diff => negb (Direction diff)) diffs).

(** The errors that [addBlockDB] returns for the blocks of a list, added
    one after the other, and the database after them. *)
Fixpoint add_errors {Block Currency DB : Type} (w : @World Block Currency DB)
         (d : DB) (blocks : list Block) : list string :=
  match blocks with
  | [] => []
  | block :: blocks' =>
      match addBlockDB w d block with
      | (d', Some e) => e :: add_errors w d' blocks'
      | (d', None) => add_errors w d' blocks'
      end
  end.

Definition add_all {Block Currency DB : Type} (w : @World Block Currency DB)
           (d : DB) (blocks : list Block) : DB :=
  fold_left (fun d block => fst (addBlockDB w d block)) blocks d.

(** A small program around the explorer: a block is a number, the
    database the list of the blocks added, a block 0 is refused, and
    currency is counted in [Z]. *)
Definition small_world : @World Z Z (list Z) :=
  {| Add := Z.add; Sub := Z.sub; BlockHeight := wrap_unsigned 64;
     addBlockDB := fun d block =>
       if block =? 0 then (d, Some "no block 0"%string) else (d ++ [block], None) |}.

Definition fresh : @BlockExplorer Z Z (list Z) :=
  {| db := []; currentBlock := 0; blockchainHeight := 0;
     activeContracts := 0; totalContracts := 0;
     activeContractCost := 0; totalContractCost := 0;
     printed := []; updates := 0 |}.

(** An update with two diffs and no block, and one with three blocks,
    the second of which the database refuses. *)
Definition two_diffs : @ConsensusChange Z Z :=
  {| FileContractDiffs := [{| Direction := true; Payout := 5 |};
                           {| Direction := false; Payout := 5 |}];
     RevertedBlocks := [7];
     AppliedBlocks := [] |}.

Definition three_blocks : @ConsensusChange Z Z :=
  {| FileContractDiffs := []; RevertedBlocks := []; AppliedBlocks := [1; 0; 2] |}.

End blockexplorer.

(** ** Package api: [handleHTTPRequest] and [initAPI]

    The [http.ResponseWriter] is a parameter, and so are [http.Error] and
    the handlers, which are methods of [Server] declared in other files.
    A [http.ServeMux] is the list of the patterns registered with their
    handlers. *)
Module api.

(** [strings.Contains] *)
Fixpoint Contains (s substr : string) : bool :=
  if String.prefix substr s then true
  else match s with
       | EmptyString => false
       | String _ s' => Contains s' substr
       end.

Definition StatusInternalServerError : Z := 500.

Section Model.
Context {ResponseWriter : Type}.

(** A [http.Request], as far as the wrapper reads it. *)
Record Request : Type := { UserAgent : string }.

Definition HandlerFunc : Type := ResponseWriter -> Request -> ResponseWriter.

Definition ServeMux : Type := list (string * HandlerFunc).

(** [http.Error], and the method of [Server] of a given name. *)
Record World : Type := {
  http_Error : ResponseWriter -> string -> Z -> ResponseWriter;
  method : string -> HandlerFunc
}.

(** The modules of a [Server]: [true] for a field that is not nil. *)
Record Server : Type := {
  host : bool;
  hostdb : bool;
  miner : bool;
  renter : bool;
  tpool : bool;
  wallet : bool;
  blocke : bool
}.

(** [mux.HandleFunc]: it panics on an empty pattern and on a pattern
    that is registered already. *)
Definition HandleFunc (mux : ServeMux) (pattern : string) (handler : HandlerFunc)
  : outcome ServeMux :=
  if String.eqb pattern EmptyString then Panicked (PString ("http: invalid pattern " ++ pattern))
  else if existsb (fun e => String.eqb (fst e) pattern) mux
  then Panicked (PString ("http: multiple registrations for " ++ pattern))
  else Returned (mux ++ [(pattern, handler)]).

Definition writeError (W : World) (w : ResponseWriter) (msg : string) (err : Z)
  : ResponseWriter :=
  http_Error W w msg err.

Definition handleHTTPRequest (W : World) (mux : ServeMux) (url : string)
           (handler : HandlerFunc) : outcome ServeMux :=
  HandleFunc mux url (fun w req =>
    if negb (Contains (UserAgent req) "Sia-Miner")
       && negb (String.eqb (UserAgent req) EmptyString)
       && negb (String.eqb (UserAgent req) "Go 1.1 package http")
       && negb (Contains (UserAgent req) "Electron")
       && negb (Contains (UserAgent req) "AtomShell")
    then writeError W w
           "Browser access disabled due to security vulnerability. Use Sia-UI or siac."
           StatusInternalServerError
    else handler w req).

(** The call [handleHTTPRequest(mux, url, srv.name)]: its [url] and the
    name of the method. *)
Definition call (url name : string) : string * string := (url, name).

(** The calls [handleHTTPRequest(mux, url, srv.name)] of [initAPI], in
    order: the [url] and the name of the method of each. *)
Definition routes (srv : Server) : list (string * string) :=
    ([call "/" "unrecognizedCallHandler";
      call "/consensus/status" "consensusStatusHandler";
      call "/consensus/synchronize" "consensusSynchronizeHandler";
      call "/daemon/stop" "daemonStopHandler";
      call "/daemon/version" "daemonVersionHandler";
      call "/daemon/updates/apply" "daemonUpdatesApplyHandler";
      call "/daemon/updates/check" "daemonUpdatesCheckHandler";
      call "/debug/constants" "debugConstantsHandler";
      call "/debug/mutextest" "debugMutextestHandler";
      call "/gateway/status" "gatewayStatusHandler";
      call "/gateway/peers/add" "gatewayPeersAddHandler";
      call "/gateway/peers/remove" "gatewayPeersRemoveHandler"]
     ++ (if host srv then
           [call "/host/announce" "hostAnnounceHandler";
            call "/host/configure" "hostConfigureHandler";
            call "/host/status" "hostStatusHandler"]
         else [])
     ++ (if hostdb srv then
           [call "/hostdb/hosts/active" "hostdbHostsActiveHandler";
            call "/hostdb/hosts/all" "hostdbHostsAllHandler"]
         else [])
     ++ (if miner srv then
           [call "/miner/start" "minerStartHandler";
            call "/miner/status" "minerStatusHandler";
            call "/miner/stop" "minerStopHandler";
            call "/miner/blockforwork" "minerBlockforworkHandler";
            call "/miner/submitblock" "minerSubmitblockHandler";
            call "/miner/headerforwork" "minerHeaderforworkHandler";
            call "/miner/submitheader" "minerSubmitheaderHandler"]
         else [])
     ++ (if renter srv then
           [call "/renter/downloadqueue" "renterDownloadqueueHandler";
            call "/renter/files/delete" "renterFilesDeleteHandler";
            call "/renter/files/download" "renterFilesDownloadHandler";
            call "/renter/files/list" "renterFilesListHandler";
            call "/renter/files/load" "renterFilesLoadHandler";
            call "/renter/files/loadascii" "renterFilesLoadAsciiHandler";
            call "/renter/files/rename" "renterFilesRenameHandler";
            call "/renter/files/share" "renterFilesShareHandler";
            call "/renter/files/shareascii" "renterFilesShareAsciiHandler";
            call "/renter/files/upload" "renterFilesUploadHandler";
            call "/renter/status" "renterStatusHandler"]
         else [])
     ++ (if tpool srv then
           [call "/transactionpool/transactions" "transactionpoolTransactionsHandler"]
         else [])
     ++ (if wallet srv then
           [call "/wallet/address" "walletAddressHandler";
            call "/wallet/merge" "walletMergeHandler";
            call "/wallet/send" "walletSendHandler";
            call "/wallet/status" "walletStatusHandler";
            call "/wallet/siafunds/balance" "walletSiafundsBalanceHandler";
            call "/wallet/siafunds/send" "walletSiafundsSendHandler";
            call "/wallet/siafunds/watchsiagaddress" "walletSiafundsWatchsiagaddressHandler"]
         else [])
     ++ (if blocke srv then
           [call "/blockexplorer/status" "blockexplorerStatusHandler";
            call "/blockexplorer/blockdata" "blockexplorerBlockDataHandler"]
         else [])).

(** The calls one after the other, up to the first panic. *)
Fixpoint register (W : World) (calls : list (string * string)) (mux : ServeMux)
  : outcome ServeMux :=
  match calls with
  | [] => Returned mux
  | (url, name) :: calls' =>
      match handleHTTPRequest W mux url (method W name) with
      | Returned mux' => register W calls' mux'
      | Panicked p => Panicked p
      end
  end.

(** [initAPI], up to the [mux] it hands to the server. *)
Definition initAPI (W : World) (srv : Server) : outcome ServeMux :=
  register W (routes srv) [].

End Model.

(** The text [marker] stands somewhere in [s]. *)
Definition mentions (s marker : string) : Prop :=
  exists before after : string, s = (before ++ marker ++ after)%string.

(** The user agents that the wrapper lets through. *)
Definition let_through (ua : string) : Prop :=
  mentions ua "Sia-Miner" \/ ua = EmptyString \/ ua = "Go 1.1 package http"%string \/
  mentions ua "Electron" \/ mentions ua "AtomShell".

(** What a refused request is answered with. *)
Definition refusal {ResponseWriter : Type} (W : @World ResponseWriter)
           (w : ResponseWriter) : ResponseWriter :=
  writeError W w "Browser access disabled due to security vulnerability. Use Sia-UI or siac."
             StatusInternalServerError.

(** The handler answers every request that is not let through with the
    refusal. *)
Definition gated {ResponseWriter : Type} (W : @World ResponseWriter)
           (h : @HandlerFunc ResponseWriter) : Prop :=
  forall w req, ~ let_through (UserAgent req) -> h w req = refusal W w.

(** No string of the list is empty or occurs twice in it. *)
Fixpoint distinct (l : list string) : bool :=
  match l with
  | [] => true
  | x :: l' => negb (String.eqb x EmptyString) && negb (existsb (String.eqb x) l') && distinct l'
  end.

End api.

(** * Properties *)

(** ** Bytes and the integer codec *)

Lemma Z_of_byte_range (b : byte) : 0 <= Z_of_byte b < 256.
Proof.
  unfold Z_of_byte. pose proof (Byte.to_N_bounded b) as H. lia.
Qed.


Lemma Z_of_byte_of_Z (z : Z) : Z_of_byte (byte_of_Z z) = z mod 256.
Proof.
  unfold byte_of_Z, Z_of_byte.
  assert (Hr : 0 <= z mod 256 < 256) by (apply Z.mod_pos_bound; lia).
  destruct (Byte.of_N (Z.to_N (z mod 256))) as [b|] eqn:E.
  - apply Byte.to_of_N in E. rewrite E. lia.
  - apply Byte.of_N_None_iff in E. lia.
Qed.

Lemma len_nonneg {A : Type} (l : list A) : 0 <= len l.
Proof. unfold len. lia. Qed.

Lemma len_app {A : Type} (l1 l2 : list A) : len (l1 ++ l2) = len l1 + len l2.
Proof. unfold len. rewrite length_app. lia. Qed.

Lemma len_cons {A : Type} (a : A) (l : list A) : len (a :: l) = 1 + len l.
Proof. unfold len. simpl length. lia. Qed.

Lemma length_le_bytes (k : nat) : forall u, length (le_bytes k u) = k.
Proof. induction k; intros u; simpl; [reflexivity | now rewrite IHk]. Qed.

Lemma le_value_le_bytes (k : nat) :
  forall u, le_value (le_bytes k u) = u mod 2 ^ (8 * Z.of_nat k).
Proof.
  induction k as [|k IH]; intros u.
  - simpl. now rewrite Z.mod_1_r.
  - cbn [le_bytes le_value]. rewrite IH, Z_of_byte_of_Z.
    rewrite Z.shiftl_mul_pow2, Z.shiftr_div_pow2 by lia.
    replace (8 * Z.of_nat (S k)) with (8 + 8 * Z.of_nat k) by lia.
    rewrite Z.pow_add_r by lia.
    change (2 ^ 8) with 256.
    rewrite (Z.rem_mul_r u 256 (2 ^ (8 * Z.of_nat k))) by lia.
    lia.
Qed.

Lemma len_EncUint64 (u : Z) : len (EncUint64 u) = 8.
Proof. unfold len, EncUint64. now rewrite length_le_bytes. Qed.

Lemma len_EncInt64 (i : Z) : len (EncInt64 i) = 8.
Proof. apply len_EncUint64. Qed.

Lemma DecUint64_EncUint64 (u : Z) : DecUint64 (EncUint64 u) = u mod 2 ^ 64.
Proof.
  unfold DecUint64, EncUint64.
  rewrite firstn_all2 by (rewrite length_le_bytes; lia).
  apply (le_value_le_bytes 8).
Qed.

Lemma DecUint64_EncUint64_small (u : Z) :
  0 <= u < 2 ^ 64 -> DecUint64 (EncUint64 u) = u.
Proof. intros H. rewrite DecUint64_EncUint64. now apply Z.mod_small. Qed.

Lemma wrap_signed_small (bits z : Z) :
  0 < bits -> - 2 ^ (bits - 1) <= z < 2 ^ (bits - 1) -> wrap_signed bits z = z.
Proof.
  intros Hb Hz. unfold wrap_signed.
  assert (E : 2 ^ bits = 2 * 2 ^ (bits - 1)).
  { replace bits with (1 + (bits - 1)) at 1 by lia.
    rewrite Z.pow_add_r by lia. reflexivity. }
  rewrite Z.mod_small by lia. lia.
Qed.

Lemma wrap_signed_unsigned (bits z : Z) :
  0 < bits -> wrap_signed bits (wrap_unsigned bits z) = wrap_signed bits z.
Proof.
  intros Hb. unfold wrap_signed, wrap_unsigned.
  rewrite Zplus_mod_idemp_l. reflexivity.
Qed.

Lemma wrap_signed_mod (bits z : Z) :
  0 < bits -> wrap_signed bits (z mod 2 ^ bits) = wrap_signed bits z.
Proof. apply wrap_signed_unsigned. Qed.

Lemma DecInt64_EncInt64 (i : Z) :
  - 2 ^ 63 <= i < 2 ^ 63 -> DecInt64 (EncInt64 i) = i.
Proof.
  intros H. unfold DecInt64, EncInt64.
  rewrite DecUint64_EncUint64. unfold wrap_unsigned.
  rewrite Z.mod_mod by lia.
  rewrite (wrap_signed_mod 64 i) by lia.
  apply wrap_signed_small; lia.
Qed.

(** ** Reading from the source *)

Lemma moved_refl (d : Decoder) : moved d [] d.
Proof. unfold moved, len. simpl. repeat split; lia. Qed.

Lemma moved_trans (d d1 d2 : Decoder) (g1 g2 : list byte) :
  moved d g1 d1 -> moved d1 g2 d2 -> moved d (g1 ++ g2) d2.
Proof.
  unfold moved. intros (H1 & H2 & H3) (H4 & H5 & H6).
  rewrite len_app, <- app_assoc, <- H4. repeat split; try lia; congruence.
Qed.

Lemma consumed_moved (d d' : Decoder) (got : list byte) :
  moved d got d' -> consumed d d' = got.
Proof.
  intros (H & _). unfold consumed. rewrite H, length_app.
  replace (length got + length (r d') - length (r d'))%nat with (length got) by lia.
  rewrite firstn_app, Nat.sub_diag, firstn_all. simpl. apply app_nil_r.
Qed.

Lemma app_same_length {A : Type} (a b c d : list A) :
  a ++ b = c ++ d -> length a = length c -> a = c /\ b = d.
Proof.
  revert c. induction a as [|x a IH]; intros [|y c] H L; simpl in *; try discriminate.
  - auto.
  - injection H as -> H. destruct (IH c H) as [-> ->]; auto.
Qed.

Lemma Decoder_eq (d : Decoder) (s : list byte) (m a : Z) :
  r d = s -> n d = m -> allocated d = a -> d = {| r := s; n := m; allocated := a |}.
Proof. destruct d; simpl; intros; subst; reflexivity. Qed.

Lemma Reader_Read_eq (k : Z) (s : list byte) :
  Reader_Read k s =
  ((firstn (Z.to_nat k) s, match s with [] => Some EOF | _ => None end),
   skipn (Z.to_nat k) s).
Proof.
  destruct s; simpl; [|reflexivity].
  now rewrite firstn_nil, skipn_nil.
Qed.

Lemma moved_Read (d : Decoder) (m : nat) :
  moved d (firstn m (r d))
    {| r := skipn m (r d); n := n d + len (firstn m (r d)); allocated := allocated d |}.
Proof. unfold moved. simpl. rewrite firstn_skipn. auto. Qed.

Lemma len_firstn_le {A : Type} (k : Z) (s : list A) :
  0 <= k -> len (firstn (Z.to_nat k) s) <= k.
Proof. intros H. unfold len. rewrite length_firstn. lia. Qed.

Lemma firstn_short {A : Type} (k : Z) (s : list A) :
  len (firstn (Z.to_nat k) s) < k -> firstn (Z.to_nat k) s = s /\ skipn (Z.to_nat k) s = [].
Proof.
  unfold len. rewrite length_firstn. intros H.
  assert (L : (length s <= Z.to_nat k)%nat) by lia.
  split; [now apply firstn_all2 | now apply skipn_all2].
Qed.

(** The loop of [io.ReadFull] over a [bytes.Reader] ends within two
    rounds, never on [io.ErrNoProgress], and in one of three ways. *)
Lemma ReadFull_rounds (k : Z) (d : Decoder) : ReadFull_outcome k d (ReadFull k d).
Proof.
  unfold ReadFull. cbn [ReadAtLeast]. change (len (@nil byte)) with 0.
  rewrite andb_true_r.
  destruct (0 <? k) eqn:Hk; [apply Z.ltb_lt in Hk | apply Z.ltb_ge in Hk].
  2:{ decide_cmp.
      apply RF_full; [apply moved_refl | change (len (@nil byte)) with 0; lia | auto]. }
  unfold bind at 1. unfold Read at 1.
  rewrite Reader_Read_eq, Z.sub_0_r. cbn [n r allocated app].
  set (p := firstn (Z.to_nat k) (r d)).
  set (d1 := {| r := skipn (Z.to_nat k) (r d); n := n d + len p; allocated := allocated d |}).
  assert (M1 : moved d p d1) by apply moved_Read.
  assert (Lp : len p <= k) by (apply len_firstn_le; lia).
  rewrite Z.gtb_ltb.
  destruct (maxDecodeLen <? n d + len p) eqn:Ho;
    [apply Z.ltb_lt in Ho | apply Z.ltb_ge in Ho].
  { apply RF_over with (got := p); auto. }
  destruct (len p <? k) eqn:Hl; [apply Z.ltb_lt in Hl | apply Z.ltb_ge in Hl].
  - destruct (firstn_short k (r d) Hl) as [Ep Es]. fold p in Ep.
    destruct (r d) as [|b0 s0] eqn:Er.
    + (* end of the source at once *)
      subst p. rewrite firstn_nil in *. cbn [andb ReadAtLeast].
      change (len (@nil byte)) with 0 in *. decide_cmp. cbn [andb].
      apply (RF_error k d [] d1); auto.
      intros _. subst d1. cbn [n]. rewrite firstn_nil.
      change (len (@nil byte)) with 0. lia.
    + (* a short read, then the end of the source *)
      cbn [andb ReadAtLeast]. decide_cmp. cbn [andb].
      unfold bind. unfold Read. rewrite Reader_Read_eq.
      subst d1. cbn [r n allocated]. rewrite Es, firstn_nil, skipn_nil.
      change (len (@nil byte)) with 0. rewrite Z.add_0_r.
      decide_cmp.
      cbn [ReadAtLeast]. rewrite app_nil_r, andb_false_r.
      assert (Hp' : 0 < len p).
      { rewrite Ep, len_cons. pose proof (len_nonneg s0). lia. }
      decide_cmp. cbn [andb].
      pose proof (RF_error k d p
        {| r := []; n := n d + len p; allocated := allocated d |}) as R.
      rewrite Es in M1.
      destruct p as [|b p']; [discriminate|]. apply R; auto.
  - cbn [andb ReadAtLeast]. decide_cmp. cbn [andb]. decide_cmp.
    apply RF_full; auto; try lia.
    all: intros _; subst d1; simpl; exact Ho.
Qed.

Lemma ReadFull_enough (k : Z) (d : Decoder) (bs rest : list byte) :
  r d = bs ++ rest -> len bs = k -> n d + k <= maxDecodeLen ->
  ReadFull k d =
  (Returned (bs, None), {| r := rest; n := n d + k; allocated := allocated d |}).
Proof.
  intros Hr Hl Hn. pose proof (len_nonneg bs) as Hk.
  pose proof (ReadFull_rounds k d) as R.
  inversion R as [got d' M L _ E | got d' M Hend L _ E | got d' M L Ho E].
  - destruct M as (M1 & M2 & M3). rewrite Hr in M1.
    destruct (app_same_length bs rest got (r d') M1) as [<- Hrest].
    { unfold len in *. lia. }
    f_equal. apply Decoder_eq; auto. lia.
  - destruct M as (M1 & _). rewrite Hend, app_nil_r, Hr in M1. subst got.
    rewrite len_app in L. pose proof (len_nonneg rest). lia.
  - destruct M as (_ & M2 & _). lia.
Qed.

Lemma readN_enough (k : Z) (d : Decoder) (bs rest : list byte) :
  r d = bs ++ rest -> len bs = k -> n d + k <= maxDecodeLen ->
  readN k d =
  (Returned bs, {| r := rest; n := n d + k; allocated := allocated d + k |}).
Proof.
  intros Hr Hl Hn. unfold readN, bind, alloc.
  rewrite (ReadFull_enough k _ bs rest); auto.
Qed.

Lemma le_value_nonneg (bs : list byte) : 0 <= le_value bs.
Proof.
  induction bs as [|b bs IH]; cbn [le_value]; [lia|].
  rewrite Z.shiftl_mul_pow2 by lia. pose proof (Z_of_byte_range b). lia.
Qed.

Lemma DecUint64_nonneg (b : list byte) : 0 <= DecUint64 b.
Proof. apply le_value_nonneg. Qed.

Lemma le_value_bound (bs : list byte) : le_value bs < 2 ^ (8 * len bs).
Proof.
  induction bs as [|b bs IH]; [cbn; lia|].
  cbn [le_value]. rewrite len_cons.
  rewrite Z.shiftl_mul_pow2 by lia. pose proof (Z_of_byte_range b).
  pose proof (len_nonneg bs).
  replace (8 * (1 + len bs)) with (8 + 8 * len bs) by lia.
  rewrite Z.pow_add_r by lia. change (2 ^ 8) with 256.
  pose proof (le_value_nonneg bs). nia.
Qed.

Lemma DecUint64_bound (b : list byte) : DecUint64 b < 2 ^ 64.
Proof.
  unfold DecUint64. pose proof (le_value_bound (firstn 8 b)) as H.
  assert (L : len (firstn 8 b) <= 8) by (unfold len; rewrite length_firstn; lia).
  pose proof (len_nonneg (firstn 8 b)).
  assert (2 ^ (8 * len (firstn 8 b)) <= 2 ^ 64) by (apply Z.pow_le_mono_r; lia).
  lia.
Qed.

(** [ReadPrefix] on a source that starts with a whole prefixed blob. *)
Lemma readPrefix_enough (d : Decoder) (data rest : list byte) :
  r d = EncUint64 (len data) ++ data ++ rest ->
  len data <= maxSliceLen ->
  n d + 8 + len data <= maxDecodeLen ->
  readPrefix d =
  (Returned data,
   {| r := rest; n := n d + (8 + len data); allocated := allocated d + 8 + len data |}).
Proof.
  intros Hr Hl Hn. pose proof (len_nonneg data) as Hd.
  unfold readPrefix, ReadPrefix, bind at 1 2 3, alloc.
  rewrite (ReadFull_enough 8 _ (EncUint64 (len data)) (data ++ rest))
    by first [assumption | apply len_EncUint64 | simpl; lia].
  assert (Hs : 0 <= len data < 2 ^ 64) by (consts; lia).
  rewrite (DecUint64_EncUint64_small _ Hs).
  decide_cmp. unfold bind. cbn [r n allocated].
  rewrite (ReadFull_enough (len data) _ data rest)
    by first [reflexivity | simpl; lia].
  cbn [r n allocated]. unfold ret. f_equal. f_equal. lia.
Qed.

(** ** Writing to the sink *)

Lemma write_eq (p : list byte) (e : Encoder) : write p e = (Nil, {| w := w e ++ p |}).
Proof. unfold write, Buffer_Write. now rewrite Z.eqb_refl. Qed.

Lemma Encoder_eta (e : Encoder) : {| w := w e |} = e.
Proof. now destruct e. Qed.

Lemma buffered_write (p : list byte) : buffered (write p).
Proof.
  split; intros; rewrite !write_eq; simpl; [discriminate | reflexivity].
Qed.

Lemma buffered_return_nil : buffered return_nil.
Proof.
  split; intros; unfold return_nil; simpl; [discriminate|].
  now rewrite app_nil_r, Encoder_eta.
Qed.

Lemma buffered_do_panic (p : panic_value) : buffered (do_panic p).
Proof.
  split; intros; unfold do_panic; simpl; [discriminate|].
  now rewrite app_nil_r, Encoder_eta.
Qed.

Lemma buffered_and_then (m k : Enc) : buffered m -> buffered k -> buffered (m ;; k).
Proof.
  intros [Hm1 Hm2] [Hk1 Hk2]. unfold buffered, and_then.
  destruct (m (NewEncoder [])) as [rm em] eqn:Em. simpl in Hm1, Hm2.
  split.
  - intros err. destruct rm; simpl; auto. rewrite (Hk2 em). simpl. apply Hk1.
  - intros e. rewrite (Hm2 e).
    destruct rm; simpl; try reflexivity.
    rewrite (Hk2 em), (Hk2 {| w := w e ++ w em |}). simpl.
    now rewrite app_assoc.
Qed.

Lemma buffered_each (f : value -> Enc) (vs : list value) :
  (forall v, buffered (f v)) -> buffered (each f vs).
Proof.
  intros Hf. induction vs as [|v vs IH]; simpl.
  - apply buffered_return_nil.
  - apply buffered_and_then; auto.
Qed.

Lemma buffered_WritePrefix (data : list byte) : buffered (WritePrefix data).
Proof. apply buffered_and_then; apply buffered_write. Qed.

Lemma buffered_encode_bool (b : bool) : buffered (encode_bool b).
Proof. destruct b; apply buffered_write. Qed.

Lemma buffered_encode_with (env : Env) (kind : type -> value -> Enc) (t : type) (val : value) :
  buffered (kind t val) -> buffered (encode_with env kind t val).
Proof.
  intros H. unfold encode_with.
  destruct (marshaler_of env t) as [m|]; auto.
  destruct (m val); [apply buffered_WritePrefix | apply buffered_do_panic].
Qed.

Lemma buffered_encode_array (enc : value -> Enc) (elem : type) (val : value) :
  (forall v, buffered (enc v)) -> buffered (encode_array enc elem val).
Proof.
  intros H. unfold encode_array.
  destruct (is_Uint8 elem); [apply buffered_write | now apply buffered_each].
Qed.

Create HintDb buffered.

#[local] Hint Resolve buffered_write buffered_return_nil buffered_do_panic
  buffered_and_then buffered_each buffered_WritePrefix buffered_encode_bool
  buffered_encode_with buffered_encode_array : buffered.

Lemma buffered_encode_kind (env : Env) :
  (forall t val, buffered (encode_kind env t val)) /\
  (forall fs vals, buffered (encode_fields env fs vals)).
Proof.
  apply type_mutind; intros; cbn [encode_kind encode_fields]; auto 6 with buffered.
  - apply buffered_and_then; [apply buffered_encode_bool|].
    destruct (negb (val_IsNil val)); auto with buffered.
  - destruct vals as [|v vals]; [apply buffered_return_nil|].
    apply buffered_and_then; auto.
    destruct exported; auto with buffered.
Qed.

Lemma buffered_encode (env : Env) (t : type) (val : value) : buffered (encode env t val).
Proof. apply buffered_encode_with, buffered_encode_kind. Qed.

Lemma buffered_Encode (env : Env) (v : iface) : buffered (Encode env v).
Proof.
  destruct v as [[t val]|]; [apply buffered_encode | apply buffered_do_panic].
Qed.

(** What [Marshal] returning [b] says of the encoding step behind it. *)
Lemma Marshal_Returned (m : Enc) (b : list byte) :
  buffered m ->
  match m (NewEncoder []) with
  | (Panic p, _) => Panicked p
  | (_, e) => Returned (w e)
  end = Returned b ->
  forall e, m e = (Nil, {| w := w e ++ b |}).
Proof.
  intros [H1 H2] H e. rewrite (H2 e).
  destruct (m (NewEncoder [])) as [[| err |p] e0]; simpl in *.
  - now injection H as ->.
  - now destruct (H1 err).
  - discriminate.
Qed.

Lemma Returned_Marshal (m : Enc) (b : list byte) :
  m (NewEncoder []) = (Nil, {| w := b |}) ->
  match m (NewEncoder []) with
  | (Panic p, _) => Panicked p
  | (_, e) => Returned (w e)
  end = Returned b.
Proof. now intros ->. Qed.

(** ** [Marshal] and [MarshalAll] *)

Lemma Marshal_eq (env : Env) (v : iface) (b : list byte) :
  Marshal env v = Returned b <-> forall e, Encode env v e = (Nil, {| w := w e ++ b |}).
Proof.
  split.
  - intros H. apply Marshal_Returned; [apply buffered_Encode | exact H].
  - intros H. unfold Marshal. now rewrite (H (NewEncoder [])).
Qed.

Lemma MarshalAll_loop_concat (env : Env) (v : list iface) (bs : list (list byte)) :
  Forall2 (fun x b => Marshal env x = Returned b) v bs ->
  forall enc, MarshalAll_loop env v enc = Returned {| w := w enc ++ concat bs |}.
Proof.
  induction 1 as [|x b v bs Hx _ IH]; intros enc; simpl.
  - now rewrite app_nil_r, Encoder_eta.
  - apply Marshal_eq with (e := enc) in Hx. rewrite Hx, IH. simpl.
    now rewrite app_assoc.
Qed.



Lemma MarshalAll_loop_all (env : Env) (v : list iface) :
  forall enc,
    MarshalAll_loop env v enc =
    match concat_all (map (Marshal env) v) with
    | Returned bs => Returned {| w := w enc ++ bs |}
    | Panicked p => Panicked p
    end.
Proof.
  induction v as [|x v IH]; intros enc; cbn [MarshalAll_loop map concat_all].
  - now rewrite app_nil_r, Encoder_eta.
  - destruct (buffered_Encode env x) as [_ H]. rewrite (H enc).
    assert (Hm : Marshal env x =
                 match fst (Encode env x (NewEncoder [])) with
                 | Panic p => Panicked p
                 | _ => Returned (w (snd (Encode env x (NewEncoder []))))
                 end).
    { unfold Marshal. now destruct (Encode env x (NewEncoder [])) as [[| |] ?]. }
    rewrite Hm.
    destruct (Encode env x (NewEncoder [])) as [[| err |p] e0]; cbn [fst snd];
      try reflexivity; rewrite IH; cbn [w];
      destruct (concat_all (map (Marshal env) v)); try reflexivity;
      now rewrite <- app_assoc.
Qed.

(** C6. Concatenation law: [MarshalAll] of a list of values is the
    concatenation, in order, of what [Marshal] returns on each of them
    (and its panic is the first panic of a [Marshal]). So when [Marshal]
    returns [b_i] on each of the values [v_1 ... v_k],
    [MarshalAll(v_1, ..., v_k)] returns [b_1 ++ ... ++ b_k]; for two
    values, [MarshalAll(v1, v2)] is [Marshal(v1)] followed by
    [Marshal(v2)]. *)
Theorem MarshalAll_concat (env : Env) (v : list iface) :
  MarshalAll env v = concat_all (map (Marshal env) v) /\
  forall bs : list (list byte),
    Forall2 (fun x b => Marshal env x = Returned b) v bs ->
    MarshalAll env v = Returned (concat bs).
Proof.
  split.
  - unfold MarshalAll. rewrite MarshalAll_loop_all.
    now destruct (concat_all (map (Marshal env) v)).
  - intros bs H. unfold MarshalAll.
    now rewrite (MarshalAll_loop_concat env v bs H).
Qed.

Lemma MarshalAll_concat_witness :
  MarshalAll plain [Some (TString, VString bar); Some (TInt Int, VInt 3)] =
  Returned (concat [EncUint64 3 ++ bar; EncInt64 3]).
Proof.
  apply (proj2 (MarshalAll_concat plain _)).
  repeat constructor.
Defined.



(** ** Booleans *)

Lemma decode_bool_ok (val : value) (d : Decoder) (b : byte) (rest : list byte) :
  r d = b :: rest -> n d + 1 <= maxDecodeLen -> Z_of_byte b <= 1 ->
  decode_bool val d =
  ((VBool (Z_of_byte b =? 1), None),
   {| r := rest; n := n d + 1; allocated := allocated d + 1 |}).
Proof.
  intros Hr Hn Hb. unfold decode_bool, read_then.
  rewrite (readN_enough 1 d [b] rest) by first [assumption | reflexivity].
  cbn [nth]. decide_cmp. reflexivity.
Qed.

Lemma decode_bool_bad (val : value) (d : Decoder) (b : byte) (rest : list byte) :
  r d = b :: rest -> n d + 1 <= maxDecodeLen -> 1 < Z_of_byte b ->
  decode_bool val d =
  ((val, Some (PString "boolean value was not 0 or 1")),
   {| r := rest; n := n d + 1; allocated := allocated d + 1 |}).
Proof.
  intros Hr Hn Hb. unfold decode_bool, read_then.
  rewrite (readN_enough 1 d [b] rest) by first [assumption | reflexivity].
  cbn [nth]. decide_cmp. reflexivity.
Qed.

(** C5. Decoding one byte into a [bool]: [0x00] gives [false], [0x01]
    gives [true], and a byte greater than 1 makes [Unmarshal] return the
    error "could not decode type bool: boolean value was not 0 or 1",
    the target keeping its value. *)
Theorem Unmarshal_bool (env : Env) (b : byte) (cur : bool) :
  let target x := Some (TPtr TBool, VPtr (Some (VBool x))) in
  (b = x00 -> Unmarshal env [b] (target cur) = (None, target false)) /\
  (b = x01 -> Unmarshal env [b] (target cur) = (None, target true)) /\
  (1 < Z_of_byte b ->
   Unmarshal env [b] (target cur) =
   (Some (errCouldNotDecode TBool (PString "boolean value was not 0 or 1")),
    target cur)).
Proof.
  intros target.
  assert (Hn : 0 + 1 <= maxDecodeLen) by (consts; lia).
  unfold Unmarshal, Decode, target, decode, decode_with, NewDecoder.
  cbn [ptr_elem val_IsNil val_Elem unmarshaler_of decode_kind r n allocated].
  repeat split.
  - intros ->.
    rewrite (decode_bool_ok _ _ x00 []) by first [reflexivity | exact Hn | cbv; discriminate].
    reflexivity.
  - intros ->.
    rewrite (decode_bool_ok _ _ x01 []) by first [reflexivity | exact Hn | cbv; discriminate].
    reflexivity.
  - intros Hb.
    rewrite (decode_bool_bad _ _ b []) by first [reflexivity | exact Hn | exact Hb].
    reflexivity.
Qed.

Lemma Unmarshal_bool_witness :
  1 < Z_of_byte x02 /\
  Unmarshal plain [x02] (Some (TPtr TBool, VPtr (Some (VBool false)))) =
  (Some (errCouldNotDecode TBool (PString "boolean value was not 0 or 1")),
   Some (TPtr TBool, VPtr (Some (VBool false)))).
Proof.
  assert (H : 1 < Z_of_byte x02) by reflexivity.
  split; [exact H|].
  exact (proj2 (proj2 (Unmarshal_bool plain x02 false)) H).
Defined.

(** ** Slices of length zero *)

Lemma ReadFull_zero (d : Decoder) : ReadFull 0 d = (Returned ([], None), d).
Proof.
  reflexivity.
Qed.

Lemma decode_slice_empty (env : Env) (elem : type) (val : value) (d : Decoder)
      (rest : list byte) :
  r d = zeros8 ++ rest -> n d + 8 <= maxDecodeLen ->
  decode_kind env (TSlice elem) val d =
  ((VSlice (Some []), None),
   {| r := rest; n := n d + 8; allocated := allocated d + 8 + 0 |}).
Proof.
  intros Hr Hn. cbn [decode_kind]. unfold read_then at 1.
  rewrite (readN_enough 8 d zeros8 rest) by first [assumption | reflexivity].
  change (DecUint64 zeros8) with 0. rewrite Z.mul_0_l.
  change (wrap_unsigned 64 0) with 0.
  change ((0 >? 2 ^ 31 - 1) || (0 >? maxSliceLen)) with false. cbv iota.
  unfold read_then, MakeSlice. rewrite Z.mul_0_l.
  change (0 >? maxAlloc) with false. cbv iota.
  unfold bind, alloc, ret. cbn [r n allocated Z.to_nat repeat].
  unfold decode_array. destruct (is_Uint8 elem).
  - change (val_Len (VSlice (Some []))) with 0. rewrite ReadFull_zero. reflexivity.
  - reflexivity.
Qed.

(** C10. A nil slice and an empty slice of the same type have the same
    encoding, the 8-byte prefix of length 0 and nothing else; decoding
    that encoding always gives the empty slice that is not nil, whatever
    the target held, so a nil slice does not come back as nil. *)
Theorem nil_slice_not_kept (env : Env) (elem : type) :
  Marshal env (Some (TSlice elem, VSlice None)) = Returned zeros8 /\
  Marshal env (Some (TSlice elem, VSlice (Some []))) = Returned zeros8 /\
  (forall cur : value,
      Unmarshal env zeros8 (Some (TPtr (TSlice elem), VPtr (Some cur))) =
      (None, Some (TPtr (TSlice elem), VPtr (Some (VSlice (Some [])))))) /\
  val_IsNil (VSlice (Some [])) = false.
Proof.
  repeat split.
  - unfold Marshal, Encode, encode, encode_with. cbn [marshaler_of encode_kind].
    unfold encode_array. destruct (is_Uint8 elem); reflexivity.
  - unfold Marshal, Encode, encode, encode_with. cbn [marshaler_of encode_kind].
    unfold encode_array. destruct (is_Uint8 elem); reflexivity.
  - intros cur. unfold Unmarshal, Decode, decode, decode_with, NewDecoder.
    cbn [ptr_elem val_IsNil val_Elem unmarshaler_of r n allocated].
    rewrite (decode_slice_empty env elem cur _ []);
      [reflexivity | reflexivity | cbn [n]; consts; lia].
Qed.

(** ** Pointers *)

Lemma decode_ptr_absent (env : Env) (elem : type) (val : value) (d : Decoder)
      (rest : list byte) :
  r d = x00 :: rest -> n d + 1 <= maxDecodeLen ->
  decode env (TPtr elem) val d =
  ((val, None), {| r := rest; n := n d + 1; allocated := allocated d + 1 |}).
Proof.
  intros Hr Hn. unfold decode, decode_with. cbn [unmarshaler_of decode_kind].
  rewrite (decode_bool_ok _ d x00 rest) by first [assumption | cbv; discriminate].
  reflexivity.
Qed.

Lemma decode_ptr_present (env : Env) (elem : type) (val : value) (d : Decoder)
      (rest : list byte) :
  r d = x01 :: rest -> n d + 1 <= maxDecodeLen ->
  decode env (TPtr elem) val d =
  let '((x, st), d') :=
    decode env elem (if val_IsNil val then zero elem else val_Elem val)
      {| r := rest; n := n d + 1;
         allocated := allocated d + 1 + (if val_IsNil val then Size64 env elem else 0) |} in
  ((VPtr (Some x), st), d').
Proof.
  intros Hr Hn. unfold decode at 1, decode_with at 1. cbn [unmarshaler_of decode_kind].
  rewrite (decode_bool_ok _ d x01 rest) by first [assumption | cbv; discriminate].
  change (negb (val_Bool (VBool (Z_of_byte x01 =? 1)))) with false. cbv iota.
  unfold alloc. cbn [snd r n allocated].
  destruct (val_IsNil val); cbn [val_Elem]; fold (decode env elem);
    [reflexivity | now rewrite Z.add_0_r].
Qed.

(** C8 (amended). Encoding a nil pointer gives the one byte [00], and
    encoding a pointer that is set gives [01] followed by the encoding of
    what it points to (a pointer to the integer 3: [01], then the 8 bytes
    of 3), for a pointer type with no [MarshalSia] in its method set.
    Decoding a presence byte [00] leaves the target as it was: nil if it
    was nil, still set if it was set. A presence byte [01] decodes the
    rest into what the target points to, or into a new zero value if the
    target was nil. *)
Theorem pointer_encoding :
  (forall (env : Env) (elem : type),
      marshaler_of env (TPtr elem) = None ->
      Marshal env (Some (TPtr elem, VPtr None)) = Returned [x00] /\
      forall (x : value) (b : list byte),
        Marshal env (Some (elem, x)) = Returned b ->
        Marshal env (Some (TPtr elem, VPtr (Some x))) = Returned (x01 :: b)) /\
  Marshal plain (Some (TPtr (TInt Int), VPtr (Some (VInt 3)))) =
  Returned (x01 :: EncInt64 3) /\
  (forall (env : Env) (elem : type) (val : value) (d : Decoder) (rest : list byte),
      r d = x00 :: rest -> n d + 1 <= maxDecodeLen ->
      decode env (TPtr elem) val d =
      ((val, None), {| r := rest; n := n d + 1; allocated := allocated d + 1 |})) /\
  (forall (env : Env) (elem : type) (val : value) (d : Decoder) (rest : list byte),
      r d = x01 :: rest -> n d + 1 <= maxDecodeLen ->
      decode env (TPtr elem) val d =
      let '((x, st), d') :=
        decode env elem (if val_IsNil val then zero elem else val_Elem val)
          {| r := rest; n := n d + 1;
             allocated := allocated d + 1 + (if val_IsNil val then Size64 env elem else 0) |} in
      ((VPtr (Some x), st), d')).
Proof.
  split; [|split; [reflexivity | split]].
  - intros env elem Hm. split.
    + unfold Marshal, Encode, encode, encode_with. rewrite Hm. reflexivity.
    + intros x b Hb. apply Marshal_eq. intros e.
      apply Marshal_eq with (e := {| w := w e ++ [x01] |}) in Hb.
      cbn [Encode] in *. unfold encode at 1, encode_with at 1. rewrite Hm.
      cbn [encode_kind val_IsNil negb encode_bool val_Elem]. unfold and_then.
      rewrite write_eq. fold (encode env elem x). rewrite Hb. simpl.
      now rewrite <- app_assoc.
  - exact decode_ptr_absent.
  - exact decode_ptr_present.
Qed.

Lemma pointer_encoding_witness :
  Marshal plain (Some (TPtr (TInt Int), VPtr (Some (VInt 3)))) =
  Returned (x01 :: EncInt64 3).
Proof.
  apply (proj2 (proj1 pointer_encoding plain (TInt Int) eq_refl)).
  reflexivity.
Defined.

(** C8 as stated fails: a presence byte [00] decoded into a pointer that
    is set leaves it set, not absent. *)
Lemma pointer_stays_set :
  exists after : value,
    Unmarshal plain [x00] (Some (TPtr (TPtr TBool), VPtr (Some set_pointer))) =
    (None, Some (TPtr (TPtr TBool), VPtr (Some after))) /\
    val_IsNil after = false.
Proof. exists set_pointer. split; reflexivity. Qed.

(** ** Every step of the decoder ends well *)

Lemma ends_well_refl (env : Env) (d : Decoder) : ends_well env d None d.
Proof. split; [auto | discriminate]. Qed.

Lemma ends_well_trans (env : Env) (d d1 d2 : Decoder) (st : option panic_value) :
  ends_well env d None d1 -> ends_well env d1 st d2 -> ends_well env d st d2.
Proof.
  intros [H1 _] [H2 H3]. split; auto.
  intros Hn. destruct (H1 Hn) as [H|H]; [auto | discriminate].
Qed.

Lemma ends_well_panic (env : Env) (d : Decoder) (p : panic_value) :
  violation env p -> ends_well env d (Some p) d.
Proof. intros H. split; [auto | now intros ? [= <-]]. Qed.

Lemma ends_well_alloc (env : Env) (d : Decoder) (k : Z) :
  ends_well env d None (snd (alloc k d)).
Proof. split; [simpl; auto | discriminate]. Qed.

Lemma guarded_read_ReadFull (env : Env) (k : Z) (d : Decoder) :
  ends_well env d
    (match fst (ReadFull k d) with
     | Returned (_, Some e) => Some (PError e)
     | Returned (_, None) => None
     | Panicked p => Some p
     end) (snd (ReadFull k d)).
Proof.
  pose proof (ReadFull_rounds k d) as R.
  inversion R as [got d' M L Hn E | got d' M Hend L Hn E | got d' M L Ho E]; simpl.
  - split; [auto | discriminate].
  - split; [auto|]. intros p [= <-]. destruct got; constructor.
  - split; [auto|]. intros p [= <-]. constructor.
Qed.

Lemma guarded_read_readN (env : Env) (k : Z) : guarded_read env (readN k).
Proof.
  intros d. unfold readN, bind. cbn [alloc].
  set (d0 := {| r := r d; n := n d; allocated := allocated d + k |}).
  apply ends_well_trans with (d1 := d0); [apply (ends_well_alloc env d k)|].
  pose proof (guarded_read_ReadFull env k d0) as H.
  destruct (ReadFull k d0) as [[[b [e|]]|p] d']; exact H.
Qed.

Lemma guarded_read_readPrefix (env : Env) : guarded_read env readPrefix.
Proof.
  intros d. unfold readPrefix, ReadPrefix, bind. cbn [alloc].
  set (d0 := {| r := r d; n := n d; allocated := allocated d + 8 |}).
  apply ends_well_trans with (d1 := d0); [apply (ends_well_alloc env d 8)|].
  pose proof (guarded_read_ReadFull env 8 d0) as H.
  destruct (ReadFull 8 d0) as [[[b [e|]]|p] d1]; cbn [fst snd] in H; try exact H.
  apply ends_well_trans with (d1 := d1); [exact H|]. clear H.
  destruct (DecUint64 b >? maxSliceLen) eqn:Hc.
  - apply Z.gtb_lt in Hc. cbn [fst snd status panic].
    apply ends_well_panic. constructor. lia.
  - set (d2 := {| r := r d1; n := n d1; allocated := allocated d1 + DecUint64 b |}).
    apply ends_well_trans with (d1 := d2); [apply (ends_well_alloc env d1)|].
    pose proof (guarded_read_ReadFull env (DecUint64 b) d2) as H.
    destruct (ReadFull (DecUint64 b) d2) as [[[b' [e|]]|p] d3]; exact H.
Qed.

Lemma guarded_read_MakeSlice (env : Env) (elem : type) (sliceLen : Z) :
  guarded_read env (MakeSlice env elem sliceLen).
Proof.
  intros d. unfold MakeSlice.
  destruct (sliceLen * Size64 env elem >? maxAlloc).
  - apply ends_well_panic. constructor.
  - apply (ends_well_alloc env d).
Qed.

Lemma guarded_read_then {A : Type} (env : Env) (val : value) (m : Dec A) (k : A -> Upd) :
  guarded_read env m -> (forall a, guarded env (k a)) -> guarded env (read_then val m k).
Proof.
  intros Hm Hk d. unfold read_then. specialize (Hm d).
  destruct (m d) as [[a|p] d1]; cbn [fst snd status] in *; [|exact Hm].
  apply ends_well_trans with (d1 := d1); [exact Hm | apply Hk].
Qed.

Lemma guarded_set (env : Env) (v : value) : guarded env (set v).
Proof. intros d. apply ends_well_refl. Qed.

Lemma guarded_raise (env : Env) (val : value) (p : panic_value) :
  violation env p -> guarded env (raise val p).
Proof. intros H d. now apply ends_well_panic. Qed.

Lemma guarded_decode_bool (env : Env) (val : value) : guarded env (decode_bool val).
Proof.
  apply guarded_read_then; [apply guarded_read_readN|].
  intros b. destruct (Z_of_byte (nth 0 b x00) >? 1);
    [apply guarded_raise; constructor | apply guarded_set].
Qed.

Lemma each_in_place_ends_well (env : Env) (f : value -> Upd) :
  (forall v, guarded env (f v)) ->
  forall vs d,
    ends_well env d (snd (fst (each_in_place f vs d))) (snd (each_in_place f vs d)).
Proof.
  intros Hf. induction vs as [|v vs IH]; intros d; cbn [each_in_place].
  - apply ends_well_refl.
  - specialize (Hf v d). destruct (f v d) as [[v' [p|]] d1]; cbn [fst snd] in *.
    + exact Hf.
    + specialize (IH d1).
      destruct (each_in_place f vs d1) as [[l st] d2]; cbn [fst snd] in *.
      now apply ends_well_trans with (d1 := d1).
Qed.

Lemma guarded_decode_array (env : Env) (dec : value -> Upd) (elem : type) (val : value) :
  (forall v, guarded env (dec v)) -> guarded env (decode_array dec elem val).
Proof.
  intros Hdec d. unfold decode_array. destruct (is_Uint8 elem).
  - pose proof (guarded_read_ReadFull env (val_Len val) d) as H.
    destruct (ReadFull (val_Len val) d) as [[[b [e|]]|p] d']; exact H.
  - pose proof (each_in_place_ends_well env dec Hdec (val_elems val) d) as H.
    destruct (each_in_place dec (val_elems val) d) as [[l st] d']; exact H.
Qed.

Lemma guarded_decode_with (env : Env) (kind : type -> value -> Upd) (t : type) (val : value) :
  guarded env (kind t val) -> guarded env (decode_with env kind t val).
Proof.
  intros H. unfold decode_with.
  destruct (unmarshaler_of env t) as [u|] eqn:Eu; [|exact H].
  apply guarded_read_then; [apply guarded_read_readPrefix|].
  intros b d. cbn [fst snd]. split; [auto|].
  intros p Hp. destruct t; try discriminate. cbn in Eu.
  destruct (u b val) as [v' st] eqn:Ev. cbn in Hp. subst st.
  now apply (V_custom env name u b val v' p).
Qed.

Lemma guarded_decode_kind (env : Env) :
  (forall t val, guarded env (decode_kind env t val)) /\
  (forall fs vals d,
      ends_well env d (snd (fst (decode_fields env fs vals d)))
                (snd (decode_fields env fs vals d))).
Proof.
  apply type_mutind; intros; cbn [decode_kind decode_fields].
  - apply guarded_decode_bool.
  - apply guarded_read_then; [apply guarded_read_readN | intros; apply guarded_set].
  - apply guarded_read_then; [apply guarded_read_readN | intros; apply guarded_set].
  - apply guarded_read_then; [apply guarded_read_readPrefix | intros; apply guarded_set].
  - apply guarded_read_then; [apply guarded_read_readN|]. intros b.
    destruct ((DecUint64 b >? 2 ^ 31 - 1)
              || (wrap_unsigned 64 (DecUint64 b * Size64 env elem) >? maxSliceLen));
      [apply guarded_raise; constructor|].
    apply guarded_read_then; [apply guarded_read_MakeSlice|]. intros val'.
    apply guarded_decode_array. intros v. now apply guarded_decode_with.
  - apply guarded_decode_array. intros v. now apply guarded_decode_with.
  - intros d. specialize (H (val_fields val) d).
    destruct (decode_fields env fs (val_fields val) d) as [[l st] d']. exact H.
  - intros d. pose proof (guarded_decode_bool env (VBool false) d) as Hb.
    destruct (decode_bool (VBool false) d) as [[valid [p|]] d1]; cbn [fst snd] in *;
      [exact Hb|].
    destruct (negb (val_Bool valid)); [exact Hb|].
    set (c := if val_IsNil val
              then (VPtr (Some (zero elem)), snd (alloc (Size64 env elem) d1))
              else (val, d1)).
    assert (Hc : ends_well env d None (snd c)).
    { subst c. destruct (val_IsNil val); [|exact Hb].
      apply ends_well_trans with (d1 := d1); [exact Hb | apply ends_well_alloc]. }
    destruct c as [val1 d2]. cbn [snd] in Hc.
    pose proof (guarded_decode_with env (decode_kind env) elem (val_Elem val1) (H _) d2) as Hd.
    destruct (decode_with env (decode_kind env) elem (val_Elem val1) d2) as [[x st] d3].
    now apply ends_well_trans with (d1 := d2).
  - apply H.
  - apply guarded_raise. constructor.
  - destruct vals; apply ends_well_refl.
  - destruct vals as [|v vals]; [apply ends_well_refl|].
    destruct exported; [|apply ends_well_panic; constructor].
    pose proof (guarded_decode_with env (decode_kind env) t v (H v) d) as Hd.
    destruct (decode_with env (decode_kind env) t v d) as [[v' [p|]] d1];
      cbn [fst snd] in *; [exact Hd|].
    specialize (H0 vals d1).
    destruct (decode_fields env rest vals d1) as [[l st] d2]; cbn [fst snd] in *.
    now apply ends_well_trans with (d1 := d1).
Qed.

Lemma guarded_decode (env : Env) (t : type) (val : value) : guarded env (decode env t val).
Proof. apply guarded_decode_with, guarded_decode_kind. Qed.

(** ** How [Decode] ends *)

(** Every way [Decode] ends: with [errBadPointer] and nothing touched,
    with nil, or with an error that carries the type of the target and
    one of the panics of [violation]. *)
Lemma Decode_classified (env : Env) (v : iface) (d : Decoder) :
  (target_of v = None -> Decode env v d = ((Some errBadPointer, v), d)) /\
  (forall t x, target_of v = Some (t, x) ->
     fst (fst (Decode env v d)) = None \/
     exists p, fst (fst (Decode env v d)) = Some (errCouldNotDecode t p) /\
               violation env p).
Proof.
  unfold target_of, Decode. destruct v as [[pt pval]|]; [|split; [auto | discriminate]].
  destruct (ptr_elem pt) as [elem|]; [|split; [auto | discriminate]].
  destruct (val_IsNil pval); [split; [auto | discriminate]|].
  split; [discriminate|]. intros t x [= <- <-].
  set (d0 := {| r := r d; n := 0; allocated := allocated d |}).
  pose proof (guarded_decode env elem (val_Elem pval) d0) as [_ H].
  destruct (decode env elem (val_Elem pval) d0) as [[x' [p|]] d']; cbn [fst snd] in *.
  - right. exists p. auto.
  - left. reflexivity.
Qed.

(** ** What a failed decode leaves in the target *)






(** ** The two ceilings *)

Lemma Size64_range (env : Env) (t : type) : 0 <= Size64 env t < 2 ^ 64.
Proof. unfold Size64, wrap_unsigned. apply Z.mod_pos_bound. consts. lia. Qed.

(** A slice whose prefix declares too much: the decoder panics after the
    8 bytes of the prefix, with nothing allocated but the buffer they
    were read into, and the target as it was. *)
Lemma decode_slice_over (env : Env) (elem : type) (val : value) (d : Decoder)
      (b rest : list byte) :
  r d = b ++ rest -> len b = 8 -> n d + 8 <= maxDecodeLen ->
  2 ^ 31 - 1 < DecUint64 b \/ maxSliceLen < DecUint64 b * Size64 env elem ->
  exists p,
    decode env (TSlice elem) val d =
    ((val, Some p), {| r := rest; n := n d + 8; allocated := allocated d + 8 |}).
Proof.
  intros Hr Hl Hn Hover.
  unfold decode, decode_with. cbn [unmarshaler_of decode_kind]. unfold read_then at 1.
  rewrite (readN_enough 8 d b rest) by assumption.
  pose proof (DecUint64_nonneg b) as H0. pose proof (Size64_range env elem) as HS.
  set (L := DecUint64 b) in *. set (S := Size64 env elem) in *.
  destruct ((L >? 2 ^ 31 - 1) || (wrap_unsigned 64 (L * S) >? maxSliceLen)) eqn:Hc.
  - eexists. reflexivity.
  - apply orb_false_elim in Hc as [Hc1 Hc2].
    rewrite Z.gtb_ltb in Hc1, Hc2. apply Z.ltb_ge in Hc1, Hc2.
    destruct Hover as [Hover|Hover]; [lia|].
    assert (Hbig : 2 ^ 64 <= L * S).
    { destruct (Z_lt_le_dec (L * S) (2 ^ 64)) as [Hlt|]; [|assumption].
      unfold wrap_unsigned in Hc2. rewrite Z.mod_small in Hc2 by nia. lia. }
    unfold read_then, MakeSlice. fold S. fold L.
    replace (L * S >? maxAlloc) with true
      by (symmetry; rewrite Z.gtb_ltb; apply Z.ltb_lt; consts; lia).
    eexists. reflexivity.
Qed.

(** A string whose prefix declares too much: the same. *)
Lemma decode_string_over (env : Env) (val : value) (d : Decoder) (b rest : list byte) :
  r d = b ++ rest -> len b = 8 -> n d + 8 <= maxDecodeLen ->
  maxSliceLen < DecUint64 b ->
  decode env TString val d =
  ((val, Some (PError (ErrLength (DecUint64 b) maxSliceLen))),
   {| r := rest; n := n d + 8; allocated := allocated d + 8 |}).
Proof.
  intros Hr Hl Hn Hover.
  unfold decode, decode_with. cbn [unmarshaler_of decode_kind].
  unfold read_then, readPrefix, ReadPrefix, bind, alloc.
  rewrite (ReadFull_enough 8 _ b rest) by first [assumption | simpl; lia].
  replace (DecUint64 b >? maxSliceLen) with true
    by (symmetry; rewrite Z.gtb_ltb; apply Z.ltb_lt; lia).
  reflexivity.
Qed.

(** [Decoder.Read] has taken its bytes from the source when it checks the
    count. *)
Lemma Read_moves (k : Z) (d : Decoder) :
  snd (Read k d) =
  {| r := skipn (Z.to_nat k) (r d);
     n := n d + len (firstn (Z.to_nat k) (r d));
     allocated := allocated d |}.
Proof.
  unfold Read. rewrite Reader_Read_eq.
  destruct (_ >? _); reflexivity.
Qed.

Lemma Decode_within_ceiling (env : Env) (v : iface) (d : Decoder) :
  fst (fst (Decode env v d)) = None -> n (snd (Decode env v d)) <= maxDecodeLen.
Proof.
  unfold Decode. destruct v as [[pt pval]|]; [|discriminate].
  destruct (ptr_elem pt) as [elem|]; [|discriminate].
  destruct (val_IsNil pval); [discriminate|].
  set (d0 := {| r := r d; n := 0; allocated := allocated d |}).
  pose proof (guarded_decode env elem (val_Elem pval) d0) as [H _].
  destruct (decode env elem (val_Elem pval) d0) as [[x' [p|]] d']; cbn [fst snd] in *;
    [discriminate|].
  intros _. destruct H as [H|H]; [subst d0; simpl; consts; lia | exact H | discriminate].
Qed.

(** C2 (amended). The ceiling of a sequence is checked before the
    allocation: when the prefix of a slice declares more than [1<<31-1]
    elements or more than [maxSliceLen] bytes, or the prefix of a string
    more than [maxSliceLen] bytes, the decoder panics having read the 8
    bytes of the prefix and allocated only the buffer they were read
    into. The total ceiling is checked after each read of the source:
    [Decoder.Read] takes the bytes, adds them to the count, then compares.
    So a decode that starts within the ceiling ends within it or in the
    panic of [Decoder.Read], and a [Decode] that returns nil has read at
    most [maxDecodeLen] bytes. *)
Theorem ceilings_checked (env : Env) :
  (forall (elem : type) (val : value) (d : Decoder) (b rest : list byte),
      r d = b ++ rest -> len b = 8 -> n d + 8 <= maxDecodeLen ->
      2 ^ 31 - 1 < DecUint64 b \/ maxSliceLen < DecUint64 b * Size64 env elem ->
      exists p,
        decode env (TSlice elem) val d =
        ((val, Some p), {| r := rest; n := n d + 8; allocated := allocated d + 8 |})) /\
  (forall (val : value) (d : Decoder) (b rest : list byte),
      r d = b ++ rest -> len b = 8 -> n d + 8 <= maxDecodeLen ->
      maxSliceLen < DecUint64 b ->
      decode env TString val d =
      ((val, Some (PError (ErrLength (DecUint64 b) maxSliceLen))),
       {| r := rest; n := n d + 8; allocated := allocated d + 8 |})) /\
  (forall (k : Z) (d : Decoder),
      snd (Read k d) =
      {| r := skipn (Z.to_nat k) (r d);
         n := n d + len (firstn (Z.to_nat k) (r d));
         allocated := allocated d |}) /\
  (forall (t : type) (val : value) (d : Decoder),
      n d <= maxDecodeLen ->
      n (snd (decode env t val d)) <= maxDecodeLen \/
      snd (fst (decode env t val d)) = Some size_limit) /\
  (forall (v : iface) (d : Decoder),
      fst (fst (Decode env v d)) = None -> n (snd (Decode env v d)) <= maxDecodeLen).
Proof.
  split; [exact (decode_slice_over env)|].
  split; [exact (decode_string_over env)|].
  split; [exact Read_moves|].
  split; [|exact (Decode_within_ceiling env)].
  intros t val d Hn. now apply (guarded_decode env t val d).
Qed.

Lemma ceilings_checked_witness :
  exists p,
    decode plain (TSlice TBool) (VSlice None)
      (NewDecoder [xff; xff; xff; xff; xff; xff; xff; xff; x01]) =
    ((VSlice None, Some p), {| r := [x01]; n := 0 + 8; allocated := 0 + 8 |}).
Proof.
  apply (proj1 (ceilings_checked plain) TBool (VSlice None)
           (NewDecoder [xff; xff; xff; xff; xff; xff; xff; xff; x01])
           [xff; xff; xff; xff; xff; xff; xff; xff] [x01]).
  - reflexivity.
  - reflexivity.
  - vm_compute. discriminate.
  - left. vm_compute. reflexivity.
Defined.

(** An array of [maxDecodeLen + 1] bytes read from a source of as many
    bytes: the one read takes them all, and the check comes after it. *)
Lemma array_read_past (k : nat) :
  Z.of_nat k = maxDecodeLen + 1 ->
  let res := Decode plain
               (Some (TPtr (TArray k (TUint Uint8)), VPtr (Some (zero (TArray k (TUint Uint8))))))
               (NewDecoder (repeat x00 k)) in
  fst (fst res) = Some (errCouldNotDecode (TArray k (TUint Uint8)) size_limit) /\
  r (snd res) = [] /\
  n (snd res) = maxDecodeLen + 1.
Proof.
  intros Hk. unfold Decode, decode, decode_with, NewDecoder.
  cbn [ptr_elem val_IsNil val_Elem unmarshaler_of plain decode_kind zero r n allocated].
  unfold decode_array. cbn [is_Uint8].
  set (d0 := {| r := repeat x00 k; n := 0; allocated := 0 |}).
  assert (Hlen : val_Len (VArray (repeat (VUint 0) k)) = Z.of_nat k).
  { unfold val_Len. cbn [val_elems]. now rewrite repeat_length. }
  rewrite Hlen.
  assert (H0 : 0 <= maxDecodeLen) by (consts; lia).
  pose proof (ReadFull_rounds (Z.of_nat k) d0) as R.
  inversion R as [got d' M L Hn E | got d' M Hend L Hn E | got d' M L Ho E];
    cbn [fst snd]; destruct M as (M1 & M2 & _); subst d0; cbn [r n] in *.
  - lia.
  - rewrite Hend, app_nil_r in M1. subst got.
    unfold len in L. rewrite repeat_length in L. lia.
  - assert (Hgot : len got = Z.of_nat k) by lia.
    split; [reflexivity|]. split; [|lia].
    apply (f_equal (@length byte)) in M1.
    rewrite length_app, repeat_length in M1. unfold len in Hgot.
    destruct (r d'); [reflexivity | simpl in M1; lia].
Qed.

(** C2 as stated fails: decoding into an array of [maxDecodeLen + 1]
    bytes from a source of as many bytes reads them all, one byte past
    the ceiling, and only then fails on the count. *)
Lemma read_past_ceiling :
  let res := Decode plain (Some (TPtr big_array, VPtr (Some (zero big_array))))
               (NewDecoder (repeat x00 over_ceiling)) in
  fst (fst res) = Some (errCouldNotDecode big_array size_limit) /\
  r (snd res) = [] /\
  n (snd res) = maxDecodeLen + 1.
Proof.
  apply array_read_past. unfold over_ceiling.
  rewrite Z2Nat.id; consts; lia.
Qed.

(** ** Round trip *)

Lemma supported_no_methods (env : Env) (t : type) :
  supported env t = true -> marshaler_of env t = None /\ unmarshaler_of env t = None.
Proof.
  destruct t; cbn; auto.
  - destruct t; cbn; auto.
    destruct (MarshalSia env name); cbn; [discriminate | auto].
  - destruct (MarshalSia env name), (UnmarshalSia env name); cbn; auto; discriminate.
Qed.

Lemma encode_supported (env : Env) (t : type) (v : value) :
  supported env t = true -> encode env t v = encode_kind env t v.
Proof.
  intros H. unfold encode, encode_with.
  now rewrite (proj1 (supported_no_methods env t H)).
Qed.

Lemma decode_supported (env : Env) (t : type) (v : value) :
  supported env t = true -> decode env t v = decode_kind env t v.
Proof.
  intros H. unfold decode, decode_with.
  now rewrite (proj2 (supported_no_methods env t H)).
Qed.

Lemma int_range (k : int_kind) (i : Z) :
  has_type (TInt k) (VInt i) = true ->
  - 2 ^ (int_bits k - 1) <= i < 2 ^ (int_bits k - 1) /\ - 2 ^ 63 <= i < 2 ^ 63.
Proof.
  cbn [has_type]. intros H. apply andb_prop in H as [H1 H2].
  apply Z.leb_le in H1. apply Z.ltb_lt in H2.
  assert (2 ^ (int_bits k - 1) <= 2 ^ 63)
    by (apply Z.pow_le_mono_r; destruct k; cbn; lia).
  lia.
Qed.

Lemma uint_range (k : uint_kind) (u : Z) :
  has_type (TUint k) (VUint u) = true ->
  0 <= u < 2 ^ uint_bits k /\ 0 <= u < 2 ^ 64.
Proof.
  cbn [has_type]. intros H. apply andb_prop in H as [H1 H2].
  apply Z.leb_le in H1. apply Z.ltb_lt in H2.
  assert (2 ^ uint_bits k <= 2 ^ 64)
    by (apply Z.pow_le_mono_r; destruct k; cbn; lia).
  lia.
Qed.

Lemma byte_value (e : type) (x : value) :
  is_Uint8 e = true -> has_type e x = true ->
  exists u, x = VUint u /\ 0 <= u < 256.
Proof.
  induction e; cbn [is_Uint8]; try discriminate; auto.
  destruct k; try discriminate. intros _ H.
  destruct x; try discriminate. exists u. split; [reflexivity|].
  apply uint_range in H. cbn in H. lia.
Qed.

Lemma byte_values_back (e : type) (l : list value) :
  is_Uint8 e = true -> forallb (has_type e) l = true ->
  bytes_values (map (fun x => byte_of_Z (val_Uint x)) l) = map normalize l.
Proof.
  intros He. induction l as [|x l IH]; cbn [forallb map bytes_values]; [reflexivity|].
  intros H. apply andb_prop in H as [Hx Hl].
  destruct (byte_value e x He Hx) as (u & -> & Hu).
  unfold bytes_values in IH. rewrite (IH Hl). cbn [val_Uint normalize].
  rewrite Z_of_byte_of_Z, Z.mod_small by lia. reflexivity.
Qed.

Lemma agree_nil (v : value) : agree return_nil (set v) v.
Proof.
  exists []. split.
  - intros e. unfold return_nil. now rewrite app_nil_r, Encoder_eta.
  - intros d rest Hr _. exists (allocated d). unfold set.
    change (len (@nil byte)) with 0. rewrite Z.add_0_r.
    f_equal. now apply Decoder_eq.
Qed.

(** The two loops over the elements of an array agree when the steps on
    an element do. *)
Lemma agree_each (f : value -> Enc) (g : value -> Upd) (z : value) (l : list value) :
  Forall (fun x => agree (f x) (g z) (normalize x)) l ->
  exists bs : list byte,
    (forall e, each f l e = (Nil, {| w := w e ++ bs |})) /\
    forall d rest,
      r d = bs ++ rest -> n d + len bs <= maxDecodeLen ->
      exists a,
        each_in_place g (repeat z (length l)) d =
        ((map normalize l, None), {| r := rest; n := n d + len bs; allocated := a |}).
Proof.
  induction 1 as [|x l (bx & Ex & Dx) _ (bl & El & Dl)].
  - exists []. split.
    + intros e. cbn. unfold return_nil. now rewrite app_nil_r, Encoder_eta.
    + intros d rest Hr _. exists (allocated d). cbn.
      change (len (@nil byte)) with 0. rewrite Z.add_0_r.
      f_equal. now apply Decoder_eq.
  - exists (bx ++ bl). split.
    + intros e. cbn [each]. unfold and_then. rewrite Ex, El. cbn [w].
      now rewrite app_assoc.
    + intros d rest Hr Hn. rewrite len_app in Hn. rewrite <- app_assoc in Hr.
      pose proof (len_nonneg bx). pose proof (len_nonneg bl).
      destruct (Dx d (bl ++ rest) Hr) as [a1 E1]; [lia|].
      cbn [length repeat each_in_place map]. rewrite E1.
      destruct (Dl {| r := bl ++ rest; n := n d + len bx; allocated := a1 |} rest)
        as [a2 E2]; [reflexivity | cbn [n]; lia |].
      rewrite E2. cbn [n]. exists a2. rewrite len_app. f_equal. f_equal. lia.
Qed.

Lemma agree_array (env : Env) (e : type) (val val' : value) (l : list value) :
  val_elems val = l -> val_elems val' = repeat (zero e) (length l) ->
  forallb (has_type e) l = true ->
  Forall (fun x => agree (encode env e x) (decode env e (zero e)) (normalize x)) l ->
  agree (encode_array (encode env e) e val) (decode_array (decode env e) e val')
        (set_elems val' (map normalize l)).
Proof.
  intros Hv Hv' Ht Hl. unfold encode_array, decode_array.
  destruct (is_Uint8 e) eqn:He.
  - exists (val_Bytes val). split; [intros e0; apply write_eq|].
    intros d rest Hr Hn. exists (allocated d).
    assert (Hlen : val_Len val' = len (val_Bytes val)).
    { unfold val_Len, val_Bytes, len. rewrite Hv, Hv', length_map, repeat_length.
      reflexivity. }
    rewrite Hlen, (ReadFull_enough _ d (val_Bytes val) rest) by auto.
    unfold fill. rewrite Hv'. unfold val_Bytes. rewrite Hv.
    rewrite (byte_values_back e l He Ht).
    rewrite skipn_all2 by (rewrite length_map, repeat_length; lia).
    now rewrite app_nil_r.
  - destruct (agree_each _ _ _ l Hl) as (bs & E & D).
    exists bs. rewrite Hv, Hv'. split; [exact E|].
    intros d rest Hr Hn. destruct (D d rest Hr Hn) as [a Ea].
    exists a. now rewrite Ea.
Qed.

Lemma forallb_Forall_agree (env : Env) (e : type) (l : list value) :
  (forall v, has_type e v = true -> within_limits env e v = true ->
             agree (encode env e v) (decode env e (zero e)) (normalize v)) ->
  forallb (has_type e) l = true -> forallb (within_limits env e) l = true ->
  Forall (fun x => agree (encode env e x) (decode env e (zero e)) (normalize x)) l.
Proof.
  intros H. induction l as [|x l IH]; cbn [forallb]; intros Ht Hw; constructor.
  - apply andb_prop in Ht as [Ht _]. apply andb_prop in Hw as [Hw _]. auto.
  - apply andb_prop in Ht as [_ Ht]. apply andb_prop in Hw as [_ Hw]. auto.
Qed.

Lemma roundtrip_kind (env : Env) :
  (forall t,
      supported env t = true ->
      forall v, has_type t v = true -> within_limits env t v = true ->
                agree (encode_kind env t v) (decode_kind env t (zero t)) (normalize v)) /\
  (forall fs,
      supported_fields env fs = true ->
      forall l, has_types fs l = true -> within_fields env fs l = true ->
                agree (encode_fields env fs l)
                      (fun d => let '((l', st), d') := decode_fields env fs (zero_fields fs) d in
                                ((VStruct l', st), d'))
                      (VStruct (map normalize l))).
Proof.
  apply type_mutind.
  - (* bool *)
    intros _ v Ht _. destruct v as [b| | | | | | | |]; try discriminate.
    exists [if b then x01 else x00]. split.
    + intros e. cbn. destruct b; apply write_eq.
    + intros d rest Hr Hn. exists (allocated d + 1). cbn [decode_kind zero normalize].
      rewrite (decode_bool_ok _ d (if b then x01 else x00) rest)
        by first [assumption | destruct b; cbv; discriminate].
      now destruct b.
  - (* signed integers *)
    intros k _ v Ht _. destruct v as [|i| | | | | | |]; try discriminate.
    destruct (int_range k i Ht) as [Hk H64].
    exists (EncInt64 i). split; [intros e; apply write_eq|].
    intros d rest Hr Hn. rewrite len_EncInt64 in *. exists (allocated d + 8).
    cbn [decode_kind zero normalize]. unfold read_then.
    rewrite (readN_enough 8 d (EncInt64 i) rest) by auto using len_EncInt64.
    unfold set, SetInt. rewrite DecInt64_EncInt64 by assumption.
    rewrite wrap_signed_small; [reflexivity | destruct k; cbn; lia | exact Hk].
  - (* unsigned integers *)
    intros k _ v Ht _. destruct v as [| |u| | | | | |]; try discriminate.
    destruct (uint_range k u Ht) as [Hk H64].
    exists (EncUint64 u). split; [intros e; apply write_eq|].
    intros d rest Hr Hn. rewrite len_EncUint64 in *. exists (allocated d + 8).
    cbn [decode_kind zero normalize]. unfold read_then.
    rewrite (readN_enough 8 d (EncUint64 u) rest) by auto using len_EncUint64.
    unfold set, SetUint, wrap_unsigned.
    rewrite DecUint64_EncUint64_small by assumption.
    rewrite Z.mod_small by assumption. reflexivity.
  - (* strings *)
    intros _ v Ht Hw. destruct v as [| | |s| | | | |]; try discriminate.
    cbn [within_limits val_String] in Hw. apply Z.leb_le in Hw.
    exists (EncUint64 (len s) ++ s). split.
    + intros e. cbn [encode_kind val_String]. unfold WritePrefix, and_then.
      rewrite !write_eq. cbn [w]. now rewrite app_assoc.
    + intros d rest Hr Hn. rewrite len_app, len_EncUint64 in *.
      rewrite <- app_assoc in Hr.
      exists (allocated d + 8 + len s). cbn [decode_kind zero normalize]. unfold read_then.
      rewrite (readPrefix_enough d s rest) by first [assumption | lia].
      reflexivity.
  - (* slices *)
    intros e IH Hs v Ht Hw. cbn [supported] in Hs.
    assert (IH' : forall x, has_type e x = true -> within_limits env e x = true ->
                  agree (encode env e x) (decode env e (zero e)) (normalize x)).
    { intros x Hx Hwx. rewrite encode_supported, decode_supported by assumption. auto. }
    destruct v as [| | | |[l|]| | | |]; try discriminate.
    + cbn [has_type] in Ht. cbn [within_limits] in Hw.
      apply andb_prop in Hw as [Hw Hwl]. apply andb_prop in Hw as [Hw1 Hw2].
      apply Z.leb_le in Hw1, Hw2.
      pose proof (len_nonneg l) as Hl0. pose proof (Size64_range env e) as HS.
      destruct (agree_array env e (VSlice (Some l))
                  (VSlice (Some (repeat (zero e) (length l)))) l eq_refl eq_refl Ht
                  (forallb_Forall_agree env e l IH' Ht Hwl)) as (body & E & D).
      exists (EncUint64 (len l) ++ body). split.
      * intros e0. cbn [encode_kind]. unfold and_then. rewrite write_eq.
        change (encode_with env (encode_kind env) e) with (encode env e).
        unfold val_Len. cbn [val_elems]. fold (len l).
        rewrite E. cbn [w]. now rewrite app_assoc.
      * intros d rest Hr Hn. rewrite len_app, len_EncUint64 in *.
        rewrite <- app_assoc in Hr. pose proof (len_nonneg body).
        cbn [decode_kind zero normalize]. unfold read_then at 1.
        rewrite (readN_enough 8 d (EncUint64 (len l)) (body ++ rest))
          by first [assumption | apply len_EncUint64 | lia].
        rewrite DecUint64_EncUint64_small by (consts; lia).
        assert (Hwrap : wrap_unsigned 64 (len l * Size64 env e) = len l * Size64 env e).
        { unfold wrap_unsigned. apply Z.mod_small. consts. nia. }
        rewrite Hwrap.
        replace ((len l >? 2 ^ 31 - 1) || (len l * Size64 env e >? maxSliceLen)) with false.
        2:{ symmetry. apply orb_false_intro; rewrite Z.gtb_ltb; apply Z.ltb_ge; lia. }
        unfold read_then, MakeSlice.
        replace (len l * Size64 env e >? maxAlloc) with false
          by (symmetry; rewrite Z.gtb_ltb; apply Z.ltb_ge; consts; lia).
        unfold bind, alloc, ret. unfold len at 1. rewrite Nat2Z.id.
        change (decode_with env (decode_kind env) e) with (decode env e).
        match goal with
        | |- context [decode_array _ _ _ ?d1] =>
            destruct (D d1 rest) as [a Ea]; [reflexivity | cbn [n]; lia |]
        end.
        exists a. rewrite Ea. cbn [set_elems n]. f_equal. f_equal. lia.
    + exists (EncUint64 0). split.
      * intros e0. cbn [encode_kind]. unfold and_then, encode_array. rewrite write_eq.
        change (val_Len (VSlice None)) with 0.
        destruct (is_Uint8 e).
        -- rewrite write_eq. change (val_Bytes (VSlice None)) with (@nil byte).
           cbn [w]. now rewrite app_nil_r.
        -- reflexivity.
      * intros d rest Hr Hn. rewrite len_EncUint64 in *. exists (allocated d + 8 + 0).
        cbn [zero normalize]. now apply decode_slice_empty.
  - (* arrays *)
    intros k e IH Hs v Ht Hw. cbn [supported] in Hs.
    assert (IH' : forall x, has_type e x = true -> within_limits env e x = true ->
                  agree (encode env e x) (decode env e (zero e)) (normalize x)).
    { intros x Hx Hwx. rewrite encode_supported, decode_supported by assumption. auto. }
    destruct v as [| | | | |l| | |]; try discriminate.
    cbn [has_type] in Ht. apply andb_prop in Ht as [Hk Ht]. apply Nat.eqb_eq in Hk.
    cbn [within_limits val_elems] in Hw. subst k.
    cbn [encode_kind decode_kind zero normalize].
    change (encode_with env (encode_kind env) e) with (encode env e).
    change (decode_with env (decode_kind env) e) with (decode env e).
    apply (agree_array env e (VArray l) (VArray (repeat (zero e) (length l))) l
             eq_refl eq_refl Ht (forallb_Forall_agree env e l IH' Ht Hw)).
  - (* structs *)
    intros fs IH Hs v Ht Hw. destruct v as [| | | | | |l| |]; try discriminate.
    cbn [supported has_type within_limits val_fields] in *.
    cbn [encode_kind decode_kind zero normalize val_fields].
    now apply IH.
  - (* pointers *)
    intros e IH Hs v Ht Hw. cbn [supported] in Hs.
    destruct v as [| | | | | | |[x|]|]; try discriminate.
    + cbn [has_type within_limits] in *.
      destruct (IH Hs x Ht Hw) as (bs & E & D).
      exists (x01 :: bs). split.
      * intros e0. cbn [encode_kind val_IsNil negb encode_bool val_Elem].
        unfold and_then. rewrite write_eq.
        fold (encode env e x). rewrite encode_supported by assumption.
        rewrite E. cbn [w]. now rewrite <- app_assoc.
      * intros d rest Hr Hn. rewrite len_cons in *. pose proof (len_nonneg bs).
        pose proof (decode_ptr_present env e (zero (TPtr e)) d (bs ++ rest) Hr) as Hp.
        unfold decode at 1, decode_with at 1 in Hp. cbn [unmarshaler_of] in Hp.
        rewrite Hp by lia. cbn [zero val_IsNil]. rewrite decode_supported by assumption.
        match goal with
        | |- context [decode_kind env e (zero e) ?d1] =>
            destruct (D d1 rest) as [a Ea]; [reflexivity | cbn [n]; lia |]
        end.
        exists a. rewrite Ea. cbn [normalize n]. f_equal. f_equal. lia.
    + exists [x00]. split.
      * intros e0. cbn [encode_kind val_IsNil negb encode_bool]. unfold and_then.
        rewrite write_eq. reflexivity.
      * intros d rest Hr Hn. change (len [x00]) with 1 in *. exists (allocated d + 1).
        pose proof (decode_ptr_absent env e (zero (TPtr e)) d rest Hr Hn) as Hp.
        unfold decode, decode_with in Hp. cbn [unmarshaler_of] in Hp. exact Hp.
  - (* defined types *)
    intros name u IH Hs v Ht Hw. cbn [supported] in Hs.
    apply andb_prop in Hs as [_ Hs]. cbn [has_type within_limits] in *.
    cbn [encode_kind decode_kind zero]. auto.
  - (* the other kinds *)
    discriminate.
  - (* no field *)
    intros _ l Ht _. destruct l; [|discriminate]. cbn [encode_fields zero_fields decode_fields map].
    apply (agree_nil (VStruct [])).
  - (* a field and the rest *)
    intros exported t IHt rest IHrest Hs l Ht Hw. cbn [supported_fields] in Hs.
    apply andb_prop in Hs as [Hs Hsr]. apply andb_prop in Hs as [-> Hst].
    destruct l as [|v l]; [discriminate|]. cbn [has_types within_fields] in *.
    apply andb_prop in Ht as [Htv Htl]. apply andb_prop in Hw as [Hwv Hwl].
    destruct (IHt Hst v Htv Hwv) as (bv & Ev & Dv).
    destruct (IHrest Hsr l Htl Hwl) as (bl & El & Dl).
    exists (bv ++ bl). split.
    + intros e. cbn [encode_fields]. unfold and_then.
      fold (encode env t v). rewrite encode_supported by assumption.
      rewrite Ev, El. cbn [w]. now rewrite app_assoc.
    + intros d rest0 Hr Hn. rewrite len_app in *. rewrite <- app_assoc in Hr.
      pose proof (len_nonneg bv). pose proof (len_nonneg bl).
      cbn [zero_fields decode_fields]. fold (decode env t (zero t)).
      rewrite decode_supported by assumption.
      destruct (Dv d (bl ++ rest0) Hr) as [a1 E1]; [lia|]. rewrite E1.
      destruct (Dl {| r := bl ++ rest0; n := n d + len bv; allocated := a1 |} rest0)
        as [a2 E2]; [reflexivity | cbn [n]; lia |].
      destruct (decode_fields env rest (zero_fields rest) _) as [[l' st] d'] eqn:Ef.
      injection E2 as -> -> ->. exists a2. cbn [map n]. f_equal. f_equal. lia.
Qed.


(** Encoding a value and decoding the bytes, trailing bytes or not, into
    a zero target of the same type. *)
Lemma roundtrip (env : Env) (t : type) (v : value) (s : list byte) :
  supported env t = true -> has_type t v = true -> within_limits env t v = true ->
  exists b,
    Marshal env (Some (t, v)) = Returned b /\
    (len b <= maxDecodeLen ->
     Unmarshal env (b ++ s) (Some (TPtr t, VPtr (Some (zero t)))) =
     (None, Some (TPtr t, VPtr (Some (normalize v))))).
Proof.
  intros Hs Ht Hw.
  destruct (proj1 (roundtrip_kind env) t Hs v Ht Hw) as (b & E & D).
  exists b. split.
  - apply Marshal_eq. intros e. cbn [Encode]. now rewrite encode_supported.
  - intros Hn. unfold Unmarshal, Decode, NewDecoder.
    cbn [ptr_elem val_IsNil val_Elem r n allocated].
    rewrite decode_supported by assumption.
    destruct (D {| r := b ++ s; n := 0; allocated := 0 |} s) as [a Ea];
      [reflexivity | cbn [n]; lia |].
    now rewrite Ea.
Qed.





(** ** Truncated streams *)

Lemma agree_bytes (enc : Enc) (dec : Upd) (v : value) :
  agree enc dec v ->
  (forall e, enc e = (Nil, {| w := w e ++ bytes_of enc |})) /\
  forall d rest,
    r d = bytes_of enc ++ rest -> n d + len (bytes_of enc) <= maxDecodeLen ->
    exists a,
      dec d = ((v, None), {| r := rest; n := n d + len (bytes_of enc); allocated := a |}).
Proof.
  intros (bs & E & D).
  assert (Hb : bytes_of enc = bs) by (unfold bytes_of; now rewrite E).
  rewrite Hb. auto.
Qed.

Lemma bytes_of_eq (enc : Enc) (bs : list byte) :
  (forall e, enc e = (Nil, {| w := w e ++ bs |})) -> bytes_of enc = bs.
Proof. intros E. unfold bytes_of. now rewrite E. Qed.

Lemma ReadFull_short (k : Z) (d : Decoder) :
  len (r d) < k -> n d + len (r d) <= maxDecodeLen ->
  exists got e d',
    ReadFull k d = (Returned (got, Some e), d') /\ (e = EOF \/ e = ErrUnexpectedEOF).
Proof.
  intros Hk Hn. pose proof (len_nonneg (r d)) as H0.
  pose proof (ReadFull_rounds k d) as R.
  inversion R as [got d' M L _ E | got d' M Hend L _ E | got d' M L Ho E].
  - destruct M as (M1 & _). rewrite M1, len_app in Hk.
    pose proof (len_nonneg (r d')). lia.
  - exists got, (match got with [] => EOF | _ => ErrUnexpectedEOF end), d'.
    split; [reflexivity | destruct got; auto].
  - destruct M as (M1 & M2 & _). rewrite M1, len_app in Hn.
    pose proof (len_nonneg (r d')). lia.
Qed.

Lemma readN_short (k : Z) (d : Decoder) :
  len (r d) < k -> n d + len (r d) <= maxDecodeLen ->
  exists st d', readN k d = (Panicked st, d') /\ eofish st.
Proof.
  intros Hk Hn. unfold readN, bind, alloc.
  destruct (ReadFull_short k {| r := r d; n := n d; allocated := allocated d + k |})
    as (got & e & d' & E & He); [exact Hk | exact Hn |].
  rewrite E. exists (PError e), d'. split; [reflexivity|].
  unfold eofish. destruct He as [-> | ->]; auto.
Qed.

(** Where a cut falls in two pieces of bytes one after the other: in the
    second piece or at its start, or inside the first. *)
Lemma cut_two (b1 b2 p q : list byte) :
  b1 ++ b2 = p ++ q ->
  (exists p', p = b1 ++ p' /\ b2 = p' ++ q) \/
  (exists q', q' <> [] /\ b1 = p ++ q' /\ q = q' ++ b2).
Proof.
  revert p. induction b1 as [|x b1 IH]; intros p H.
  - left. exists p. auto.
  - destruct p as [|y p].
    + right. exists (x :: b1). split; [discriminate|]. split; [reflexivity|].
      symmetry. exact H.
    + cbn in H. injection H as <- H. destruct (IH p H) as [(p' & -> & ->)|(q' & Hq & -> & ->)].
      * left. exists p'. auto.
      * right. exists q'. auto.
Qed.

Lemma readPrefix_short (d : Decoder) (data q : list byte) (p : list byte) :
  EncUint64 (len data) ++ data = p ++ q -> q <> [] -> r d = p ->
  len data <= maxSliceLen -> n d + len p <= maxDecodeLen ->
  exists st d', readPrefix d = (Panicked st, d') /\ eofish st.
Proof.
  intros Hcut Hq Hr Hl Hn. pose proof (len_nonneg data) as Hd.
  pose proof (len_nonneg p) as Hp.
  assert (Hq' : 0 < len q).
  { destruct q; [congruence|]. rewrite len_cons. pose proof (len_nonneg q). lia. }
  assert (Htot : 8 + len data = len p + len q).
  { rewrite <- !len_app, <- Hcut, len_app, len_EncUint64. reflexivity. }
  unfold readPrefix, ReadPrefix, bind, alloc.
  destruct (Z_lt_le_dec (len p) 8) as [Hshort|Hlong].
  - destruct (ReadFull_short 8 {| r := r d; n := n d; allocated := allocated d + 8 |})
      as (got & e & d' & E & He); [cbn [r]; rewrite Hr; lia | cbn [r n]; rewrite Hr; lia |].
    rewrite E. exists (PError e), d'. split; [reflexivity|].
    unfold eofish. destruct He as [-> | ->]; auto.
  - (* the prefix is whole, the data is cut *)
    assert (Hsplit : exists p', p = EncUint64 (len data) ++ p' /\ data = p' ++ q).
    { destruct (cut_two _ _ _ _ Hcut) as [Hs|(q' & Hq0 & He & _)]; [exact Hs|].
      apply (f_equal len) in He. rewrite len_app, len_EncUint64 in He.
      assert (0 < len q').
      { destruct q'; [congruence|]. rewrite len_cons. pose proof (len_nonneg q'). lia. }
      lia. }
    destruct Hsplit as (p' & -> & Hdata).
    rewrite len_app, len_EncUint64 in *.
    rewrite (ReadFull_enough 8 _ (EncUint64 (len data)) p')
      by first [cbn [r]; assumption | apply len_EncUint64
               | cbn [n]; pose proof (len_nonneg p'); lia].
    rewrite DecUint64_EncUint64_small by (consts; lia).
    replace (len data >? maxSliceLen) with false
      by (symmetry; rewrite Z.gtb_ltb; apply Z.ltb_ge; lia).
    destruct (ReadFull_short (len data)
                {| r := p'; n := n d + 8; allocated := allocated d + 8 + len data |})
      as (got & e & d' & E & He).
    { cbn [r]. rewrite Hdata, len_app. lia. }
    { cbn [r n]. lia. }
    cbn [r n allocated]. rewrite E. exists (PError e), d'. split; [reflexivity|].
    unfold eofish. destruct He as [-> | ->]; auto.
Qed.

Lemma len_pos {A : Type} (q : list A) : q <> [] -> 0 < len q.
Proof.
  destruct q; [congruence|]. intros _. rewrite len_cons. pose proof (len_nonneg q). lia.
Qed.

Lemma cut_len (bs p q : list byte) : bs = p ++ q -> q <> [] -> len p < len bs.
Proof. intros -> Hq. rewrite len_app. pose proof (len_pos q Hq). lia. Qed.

Lemma read_then_short (val : value) (k : Z) (f : list byte -> Upd) (bs : list byte) :
  len bs = k -> cut_fails (read_then val (readN k) f) bs.
Proof.
  intros Hk p q d Hcut Hq Hr Hn. pose proof (cut_len bs p q Hcut Hq) as Hlt.
  destruct (readN_short k d) as (st & d' & E & Hst); [rewrite Hr; lia | rewrite Hr; lia |].
  unfold read_then. rewrite E. eauto.
Qed.

Lemma cut_each (f : value -> Enc) (g : value -> Upd) (z : value) (l : list value) :
  Forall (fun x => agree (f x) (g z) (normalize x) /\ cut_fails (g z) (bytes_of (f x))) l ->
  cut_fails (each_in_place g (repeat z (length l))) (bytes_of (each f l)).
Proof.
  induction 1 as [|x l [Hx Cx] Hl IH]; intros p q d Hcut Hq Hr Hn.
  - cbn in Hcut. destruct p, q; try discriminate. congruence.
  - assert (Al : Forall (fun x => agree (f x) (g z) (normalize x)) l).
    { eapply Forall_impl; [|exact Hl]. now intros a [Ha _]. }
    destruct (agree_each f g z l Al) as (bl & El & _).
    destruct (agree_bytes _ _ _ Hx) as [Ex Dx].
    assert (Hb : bytes_of (each f (x :: l)) = bytes_of (f x) ++ bl).
    { apply bytes_of_eq. intros e. cbn [each]. unfold and_then.
      rewrite Ex, El. cbn [w]. now rewrite app_assoc. }
    rewrite Hb in Hcut. rewrite (bytes_of_eq _ _ El) in IH.
    cbn [length repeat each_in_place].
    destruct (cut_two _ _ _ _ Hcut) as [(p' & -> & Hbl)|(q' & Hq' & Hbx & _)].
    + rewrite len_app in Hn. pose proof (len_nonneg p').
      destruct (Dx d p' Hr) as [a Ea]; [lia|]. rewrite Ea.
      destruct (IH p' q {| r := p'; n := n d + len (bytes_of (f x)); allocated := a |}
                  Hbl Hq eq_refl) as (vs & st & d' & E & Hst); [cbn [n]; lia|].
      rewrite E. eauto.
    + destruct (Cx p q' d Hbx Hq' Hr Hn) as (v' & st & d' & E & Hst).
      rewrite E. eauto.
Qed.

Lemma cut_array (env : Env) (e : type) (val val' : value) (l : list value) :
  val_elems val = l -> val_elems val' = repeat (zero e) (length l) ->
  Forall (fun x => agree (encode env e x) (decode env e (zero e)) (normalize x) /\
                   cut_fails (decode env e (zero e)) (bytes_of (encode env e x))) l ->
  cut_fails (decode_array (decode env e) e val')
            (bytes_of (encode_array (encode env e) e val)).
Proof.
  intros Hv Hv' Hl. unfold encode_array, decode_array.
  destruct (is_Uint8 e) eqn:He.
  - rewrite (bytes_of_eq _ _ (write_eq (val_Bytes val))).
    intros p q d Hcut Hq Hr Hn. pose proof (cut_len _ p q Hcut Hq) as Hlt.
    assert (Hlen : val_Len val' = len (val_Bytes val)).
    { unfold val_Len, val_Bytes, len. rewrite Hv, Hv', length_map, repeat_length.
      reflexivity. }
    destruct (ReadFull_short (val_Len val') d) as (got & err & d' & E & Herr);
      [rewrite Hr; lia | rewrite Hr; lia |].
    rewrite E. do 3 eexists. split; [reflexivity|].
    unfold eofish. destruct Herr as [-> | ->]; auto.
  - rewrite Hv, Hv'. intros p q d Hcut Hq Hr Hn.
    destruct (cut_each _ _ _ l Hl p q d Hcut Hq Hr Hn) as (vs & st & d' & E & Hst).
    rewrite E. eauto.
Qed.

Lemma forallb_Forall_cut (env : Env) (e : type) (l : list value) :
  (forall v, has_type e v = true -> within_limits env e v = true ->
             agree (encode env e v) (decode env e (zero e)) (normalize v) /\
             cut_fails (decode env e (zero e)) (bytes_of (encode env e v))) ->
  forallb (has_type e) l = true -> forallb (within_limits env e) l = true ->
  Forall (fun x => agree (encode env e x) (decode env e (zero e)) (normalize x) /\
                   cut_fails (decode env e (zero e)) (bytes_of (encode env e x))) l.
Proof.
  intros H. induction l as [|x l IH]; cbn [forallb]; intros Ht Hw; constructor.
  - apply andb_prop in Ht as [Ht _]. apply andb_prop in Hw as [Hw _]. auto.
  - apply andb_prop in Ht as [_ Ht]. apply andb_prop in Hw as [_ Hw]. auto.
Qed.

Lemma truncated_kind (env : Env) :
  (forall t,
      supported env t = true ->
      forall v, has_type t v = true -> within_limits env t v = true ->
                cut_fails (decode_kind env t (zero t)) (bytes_of (encode_kind env t v))) /\
  (forall fs,
      supported_fields env fs = true ->
      forall l, has_types fs l = true -> within_fields env fs l = true ->
                cut_fails (decode_fields env fs (zero_fields fs))
                          (bytes_of (encode_fields env fs l))).
Proof.
  pose proof (roundtrip_kind env) as [RT RTf].
  apply type_mutind.
  - (* bool *)
    intros _ v Ht _. cbn [decode_kind]. unfold decode_bool. apply read_then_short.
    destruct v as [[|]| | | | | | | |]; try discriminate; reflexivity.
  - (* signed integers *)
    intros k _ v Ht _. cbn [decode_kind encode_kind]. apply read_then_short.
    rewrite (bytes_of_eq _ _ (write_eq _)). apply len_EncInt64.
  - (* unsigned integers *)
    intros k _ v Ht _. cbn [decode_kind encode_kind]. apply read_then_short.
    rewrite (bytes_of_eq _ _ (write_eq _)). apply len_EncUint64.
  - (* strings *)
    intros _ v Ht Hw. destruct v as [| | |s| | | | |]; try discriminate.
    cbn [within_limits val_String] in Hw. apply Z.leb_le in Hw.
    assert (Hb : bytes_of (encode_kind env TString (VString s)) = EncUint64 (len s) ++ s).
    { apply bytes_of_eq. intros e. cbn [encode_kind val_String].
      unfold WritePrefix, and_then. rewrite !write_eq. cbn [w]. now rewrite app_assoc. }
    rewrite Hb. intros p q d Hcut Hq Hr Hn. cbn [decode_kind]. unfold read_then.
    destruct (readPrefix_short d s q p Hcut Hq Hr Hw Hn) as (st & d' & E & Hst).
    rewrite E. eauto.
  - (* slices *)
    intros e IH Hs v Ht Hw. cbn [supported] in Hs.
    assert (IH' : forall x, has_type e x = true -> within_limits env e x = true ->
                  agree (encode env e x) (decode env e (zero e)) (normalize x) /\
                  cut_fails (decode env e (zero e)) (bytes_of (encode env e x))).
    { intros x Hx Hwx. rewrite encode_supported, decode_supported by assumption. auto. }
    destruct v as [| | | |[l|]| | | |]; try discriminate.
    + cbn [has_type] in Ht. cbn [within_limits] in Hw.
      apply andb_prop in Hw as [Hw Hwl]. apply andb_prop in Hw as [Hw1 Hw2].
      apply Z.leb_le in Hw1, Hw2.
      pose proof (len_nonneg l) as Hl0. pose proof (Size64_range env e) as HS.
      pose proof (forallb_Forall_cut env e l IH' Ht Hwl) as Hall.
      assert (Hagree : Forall (fun x => agree (encode env e x) (decode env e (zero e))
                                          (normalize x)) l).
      { eapply Forall_impl; [|exact Hall]. now intros a [Ha _]. }
      destruct (agree_bytes _ _ _
                  (agree_array env e (VSlice (Some l))
                     (VSlice (Some (repeat (zero e) (length l)))) l eq_refl eq_refl Ht Hagree))
        as [Ebody _].
      pose proof (cut_array env e (VSlice (Some l))
                    (VSlice (Some (repeat (zero e) (length l)))) l eq_refl eq_refl Hall)
        as Cbody.
      set (body := bytes_of (encode_array (encode env e) e (VSlice (Some l)))) in *.
      assert (Hb : bytes_of (encode_kind env (TSlice e) (VSlice (Some l))) =
                   EncUint64 (len l) ++ body).
      { apply bytes_of_eq. intros e0. cbn [encode_kind]. unfold and_then. rewrite write_eq.
        change (encode_with env (encode_kind env) e) with (encode env e).
        unfold val_Len. cbn [val_elems]. fold (len l).
        rewrite Ebody. cbn [w]. now rewrite app_assoc. }
      rewrite Hb. intros p q d Hcut Hq Hr Hn.
      cbn [decode_kind zero].
      destruct (cut_two _ _ _ _ Hcut) as [(p' & -> & Hbody)|(q' & Hq' & Hhead & _)].
      * rewrite len_app, len_EncUint64 in Hn. pose proof (len_nonneg p').
        unfold read_then at 1.
        rewrite (readN_enough 8 d (EncUint64 (len l)) p')
          by first [assumption | apply len_EncUint64 | lia].
        rewrite DecUint64_EncUint64_small by (consts; lia).
        assert (Hwrap : wrap_unsigned 64 (len l * Size64 env e) = len l * Size64 env e).
        { unfold wrap_unsigned. apply Z.mod_small. consts. nia. }
        rewrite Hwrap.
        replace ((len l >? 2 ^ 31 - 1) || (len l * Size64 env e >? maxSliceLen)) with false.
        2:{ symmetry. apply orb_false_intro; rewrite Z.gtb_ltb; apply Z.ltb_ge; lia. }
        unfold read_then, MakeSlice.
        replace (len l * Size64 env e >? maxAlloc) with false
          by (symmetry; rewrite Z.gtb_ltb; apply Z.ltb_ge; consts; lia).
        unfold bind, alloc, ret. unfold len at 1. rewrite Nat2Z.id.
        change (decode_with env (decode_kind env) e) with (decode env e).
        match goal with
        | |- context [decode_array _ _ _ ?d1] =>
            destruct (Cbody p' q d1 Hbody Hq eq_refl) as (x & st & d' & E & Hst);
              [cbn [n]; lia|]
        end.
        rewrite E. eauto.
      * assert (Hlt : len p < 8).
        { apply (f_equal len) in Hhead. rewrite len_app, len_EncUint64 in Hhead.
          pose proof (len_pos q' Hq'). lia. }
        destruct (readN_short 8 d) as (st & d' & E & Hst);
          [rewrite Hr; lia | rewrite Hr; lia |].
        unfold read_then. rewrite E. eauto.
    + assert (Hb : bytes_of (encode_kind env (TSlice e) (VSlice None)) = EncUint64 0).
      { apply bytes_of_eq. intros e0. cbn [encode_kind]. unfold and_then, encode_array.
        rewrite write_eq. change (val_Len (VSlice None)) with 0.
        destruct (is_Uint8 e).
        - rewrite write_eq. change (val_Bytes (VSlice None)) with (@nil byte).
          cbn [w]. now rewrite app_nil_r.
        - reflexivity. }
      rewrite Hb. cbn [decode_kind]. apply read_then_short. apply len_EncUint64.
  - (* arrays *)
    intros k e IH Hs v Ht Hw. cbn [supported] in Hs.
    assert (IH' : forall x, has_type e x = true -> within_limits env e x = true ->
                  agree (encode env e x) (decode env e (zero e)) (normalize x) /\
                  cut_fails (decode env e (zero e)) (bytes_of (encode env e x))).
    { intros x Hx Hwx. rewrite encode_supported, decode_supported by assumption. auto. }
    destruct v as [| | | | |l| | |]; try discriminate.
    cbn [has_type] in Ht. apply andb_prop in Ht as [Hk Ht]. apply Nat.eqb_eq in Hk.
    cbn [within_limits val_elems] in Hw. subst k.
    cbn [encode_kind decode_kind zero].
    change (encode_with env (encode_kind env) e) with (encode env e).
    change (decode_with env (decode_kind env) e) with (decode env e).
    apply (cut_array env e (VArray l) (VArray (repeat (zero e) (length l))) l
             eq_refl eq_refl (forallb_Forall_cut env e l IH' Ht Hw)).
  - (* structs *)
    intros fs IH Hs v Ht Hw. destruct v as [| | | | | |l| |]; try discriminate.
    cbn [supported has_type within_limits val_fields] in *.
    cbn [encode_kind decode_kind zero val_fields].
    intros p q d Hcut Hq Hr Hn.
    destruct (IH Hs l Ht Hw p q d Hcut Hq Hr Hn) as (x & st & d' & E & Hst).
    rewrite E. eauto.
  - (* pointers *)
    intros e IH Hs v Ht Hw. cbn [supported] in Hs.
    destruct v as [| | | | | | |[x|]|]; try discriminate.
    + cbn [has_type within_limits] in *.
      destruct (agree_bytes _ _ _ (RT e Hs x Ht Hw)) as [Ex _].
      assert (Hb : bytes_of (encode_kind env (TPtr e) (VPtr (Some x))) =
                   x01 :: bytes_of (encode_kind env e x)).
      { apply bytes_of_eq. intros e0.
        cbn [encode_kind val_IsNil negb encode_bool val_Elem].
        unfold and_then. rewrite write_eq.
        fold (encode env e x). rewrite encode_supported by assumption.
        rewrite Ex. cbn [w]. now rewrite <- app_assoc. }
      rewrite Hb. intros p q d Hcut Hq Hr Hn.
      destruct p as [|y p'].
      * cbn [decode_kind zero].
        destruct (readN_short 1 d) as (st & d' & E & Hst);
          [rewrite Hr; cbn; lia | rewrite Hr; exact Hn |].
        unfold decode_bool, read_then. rewrite E. eauto.
      * cbn [app] in Hcut. injection Hcut as <- Hcut.
        rewrite len_cons in Hn. pose proof (len_nonneg p').
        pose proof (decode_ptr_present env e (zero (TPtr e)) d p' Hr) as Hp.
        unfold decode at 1, decode_with at 1 in Hp. cbn [unmarshaler_of] in Hp.
        rewrite Hp by lia. cbn [zero val_IsNil]. rewrite decode_supported by assumption.
        match goal with
        | |- context [decode_kind env e (zero e) ?d1] =>
            destruct (IH Hs x Ht Hw p' q d1 Hcut Hq eq_refl) as (x' & st & d' & E & Hst);
              [cbn [n]; lia|]
        end.
        rewrite E. eauto.
    + intros p q d Hcut Hq Hr Hn.
      assert (Hp : len p < 1) by (apply (cut_len _ p q Hcut Hq)).
      cbn [decode_kind zero].
      destruct (readN_short 1 d) as (st & d' & E & Hst);
        [rewrite Hr; lia | rewrite Hr; exact Hn |].
      unfold decode_bool, read_then. rewrite E. eauto.
  - (* defined types *)
    intros name u IH Hs v Ht Hw. cbn [supported] in Hs.
    apply andb_prop in Hs as [_ Hs]. cbn [has_type within_limits] in *.
    cbn [encode_kind decode_kind zero]. auto.
  - (* the other kinds *)
    discriminate.
  - (* no field *)
    intros _ l Ht _ p q d Hcut. destruct l; [|discriminate].
    cbn in Hcut. destruct p, q; try discriminate. congruence.
  - (* a field and the rest *)
    intros exported t IHt rest IHrest Hs l Ht Hw. cbn [supported_fields] in Hs.
    apply andb_prop in Hs as [Hs Hsr]. apply andb_prop in Hs as [-> Hst].
    destruct l as [|v l]; [discriminate|]. cbn [has_types within_fields] in *.
    apply andb_prop in Ht as [Htv Htl]. apply andb_prop in Hw as [Hwv Hwl].
    destruct (agree_bytes _ _ _ (RT t Hst v Htv Hwv)) as [Ev Dv].
    destruct (agree_bytes _ _ _ (RTf rest Hsr l Htl Hwl)) as [El _].
    set (bv := bytes_of (encode_kind env t v)) in *.
    set (bl := bytes_of (encode_fields env rest l)) in *.
    assert (Hb : bytes_of (encode_fields env (FCons true t rest) (v :: l)) = bv ++ bl).
    { apply bytes_of_eq. intros e. cbn [encode_fields]. unfold and_then.
      fold (encode env t v). rewrite encode_supported by assumption.
      rewrite Ev, El. cbn [w]. now rewrite app_assoc. }
    rewrite Hb. intros p q d Hcut Hq Hr Hn.
    cbn [zero_fields decode_fields]. fold (decode env t (zero t)).
    rewrite decode_supported by assumption.
    destruct (cut_two _ _ _ _ Hcut) as [(p' & -> & Hbl)|(q' & Hq' & Hbv & _)].
    + rewrite len_app in Hn. pose proof (len_nonneg p').
      destruct (Dv d p' Hr) as [a Ea]; [lia|]. rewrite Ea.
      destruct (IHrest Hsr l Htl Hwl p' q
                  {| r := p'; n := n d + len bv; allocated := a |} Hbl Hq eq_refl)
        as (vs & st & d' & E & Hst0); [cbn [n]; lia|].
      rewrite E. eauto.
    + destruct (IHt Hst v Htv Hwv p q' d Hbv Hq' Hr Hn) as (v' & st & d' & E & Hst0).
      rewrite E. eauto.
Qed.

(** Decoding a proper prefix of the encoding of a value fails with
    [io.EOF] or [io.ErrUnexpectedEOF]. *)
Lemma truncated (env : Env) (t : type) (v : value) (p q : list byte) :
  supported env t = true -> has_type t v = true -> within_limits env t v = true ->
  Marshal env (Some (t, v)) = Returned (p ++ q) -> q <> [] ->
  len p <= maxDecodeLen ->
  exists st,
    fst (Unmarshal env p (Some (TPtr t, VPtr (Some (zero t))))) =
    Some (errCouldNotDecode t st) /\ eofish st.
Proof.
  intros Hs Ht Hw Hm Hq Hn.
  assert (Hb : bytes_of (encode_kind env t v) = p ++ q).
  { apply bytes_of_eq. intros e. apply Marshal_eq with (e := e) in Hm.
    cbn [Encode] in Hm. now rewrite encode_supported in Hm. }
  unfold Unmarshal, Decode, NewDecoder.
  cbn [ptr_elem val_IsNil val_Elem r n allocated].
  rewrite decode_supported by assumption.
  destruct (proj1 (truncated_kind env) t Hs v Ht Hw p q
              {| r := p; n := 0; allocated := 0 |} Hb Hq eq_refl)
    as (x & st & d' & E & Hst); [cbn [n]; lia|].
  rewrite E. exists st. split; [reflexivity | exact Hst].
Qed.

(** ** What [Decode] reports *)

Lemma Decode_step (env : Env) (t : type) (cur : value) (d : Decoder) :
  Decode env (Some (TPtr t, VPtr (Some cur))) d =
  let '((x, st), d') := decode env t cur {| r := r d; n := 0; allocated := allocated d |} in
  ((match st with
    | Some p => Some (errCouldNotDecode t p)
    | None => None
    end, Some (TPtr t, VPtr (Some x))), d').
Proof. reflexivity. Qed.

Lemma Decode_bad_bool (env : Env) (b : byte) (rest : list byte) (cur : value) (d : Decoder) :
  r d = b :: rest -> 1 < Z_of_byte b ->
  fst (fst (Decode env (Some (TPtr TBool, VPtr (Some cur))) d)) =
  Some (errCouldNotDecode TBool (PString "boolean value was not 0 or 1")).
Proof.
  intros Hr Hb. rewrite Decode_step. unfold decode, decode_with.
  cbn [unmarshaler_of decode_kind].
  rewrite (decode_bool_bad cur {| r := r d; n := 0; allocated := allocated d |} b rest)
    by first [assumption | cbn [n]; consts; lia].
  reflexivity.
Qed.

Lemma Decode_slice_over (env : Env) (elem : type) (cur : value) (d : Decoder)
      (b rest : list byte) :
  r d = b ++ rest -> len b = 8 ->
  2 ^ 31 - 1 < DecUint64 b \/ maxSliceLen < DecUint64 b * Size64 env elem ->
  exists p,
    fst (fst (Decode env (Some (TPtr (TSlice elem), VPtr (Some cur))) d)) =
    Some (errCouldNotDecode (TSlice elem) p).
Proof.
  intros Hr Hl Hover. rewrite Decode_step.
  destruct (decode_slice_over env elem cur
              {| r := r d; n := 0; allocated := allocated d |} b rest Hr Hl)
    as [p E]; [cbn [n]; consts; lia | exact Hover |].
  rewrite E. exists p. reflexivity.
Qed.

Lemma Decode_string_over (env : Env) (cur : value) (d : Decoder) (b rest : list byte) :
  r d = b ++ rest -> len b = 8 -> maxSliceLen < DecUint64 b ->
  fst (fst (Decode env (Some (TPtr TString, VPtr (Some cur))) d)) =
  Some (errCouldNotDecode TString (PError (ErrLength (DecUint64 b) maxSliceLen))).
Proof.
  intros Hr Hl Hover. rewrite Decode_step.
  rewrite (decode_string_over env cur {| r := r d; n := 0; allocated := allocated d |}
             b rest Hr Hl) by first [cbn [n]; consts; lia | assumption].
  reflexivity.
Qed.

Lemma Decode_over_ceiling (env : Env) (v : iface) (d : Decoder) :
  target_of v <> None -> maxDecodeLen < n (snd (Decode env v d)) ->
  exists t, fst (fst (Decode env v d)) = Some (errCouldNotDecode t size_limit).
Proof.
  unfold target_of, Decode. destruct v as [[pt pval]|]; [|congruence].
  destruct (ptr_elem pt) as [elem|]; [|congruence].
  destruct (val_IsNil pval); [congruence|]. intros _.
  set (d0 := {| r := r d; n := 0; allocated := allocated d |}).
  pose proof (guarded_decode env elem (val_Elem pval) d0) as [H _].
  destruct (decode env elem (val_Elem pval) d0) as [[x' st] d']; cbn [fst snd] in *.
  intros Hn. destruct H as [H|H]; [subst d0; cbn [n]; consts; lia | lia |].
  subst st. exists elem. reflexivity.
Qed.

Lemma Decode_custom_failure (env : Env) (name : string)
      (u : list byte -> value -> value * option panic_value) (und : type)
      (cur cur' : value) (blob rest : list byte) (p : panic_value) (d : Decoder) :
  UnmarshalSia env name = Some u ->
  len blob <= maxSliceLen ->
  r d = EncUint64 (len blob) ++ blob ++ rest ->
  u blob cur = (cur', Some p) ->
  fst (Decode env (Some (TPtr (TNamed name und), VPtr (Some cur))) d) =
  (Some (errCouldNotDecode (TNamed name und) p),
   Some (TPtr (TNamed name und), VPtr (Some cur'))).
Proof.
  intros Hu Hl Hr Hp. rewrite Decode_step. unfold decode, decode_with.
  cbn [unmarshaler_of]. rewrite Hu. unfold read_then.
  rewrite (readPrefix_enough {| r := r d; n := 0; allocated := allocated d |} blob rest)
    by first [assumption | cbn [n]; consts; pose proof (len_nonneg blob); lia].
  rewrite Hp. reflexivity.
Qed.

(** C3 (amended). [Decode] lets no panic through: it returns nil or an
    error value. When its argument is a nil interface, not a pointer, or
    a nil pointer, the error is [errBadPointer], which names no type, and
    neither the argument nor the decoder is touched. In every other case
    a failure is returned as "could not decode type T: cause", where T is
    the type of the target and the cause is the recovered panic. So are
    reported: a boolean byte above 1; a length prefix above a ceiling, of
    a slice or of a string; a read count above the total ceiling; a
    stream that stops inside the encoding of a value; the panic of an
    [UnmarshalSia]. *)
Theorem Decode_reports (env : Env) :
  (forall v d, target_of v = None -> Decode env v d = ((Some errBadPointer, v), d)) /\
  (forall v d t x,
      target_of v = Some (t, x) ->
      fst (fst (Decode env v d)) = None \/
      exists p, fst (fst (Decode env v d)) = Some (errCouldNotDecode t p) /\
                violation env p) /\
  (forall b rest cur d,
      r d = b :: rest -> 1 < Z_of_byte b ->
      fst (fst (Decode env (Some (TPtr TBool, VPtr (Some cur))) d)) =
      Some (errCouldNotDecode TBool (PString "boolean value was not 0 or 1"))) /\
  (forall elem cur d b rest,
      r d = b ++ rest -> len b = 8 ->
      2 ^ 31 - 1 < DecUint64 b \/ maxSliceLen < DecUint64 b * Size64 env elem ->
      exists p,
        fst (fst (Decode env (Some (TPtr (TSlice elem), VPtr (Some cur))) d)) =
        Some (errCouldNotDecode (TSlice elem) p)) /\
  (forall cur d b rest,
      r d = b ++ rest -> len b = 8 -> maxSliceLen < DecUint64 b ->
      fst (fst (Decode env (Some (TPtr TString, VPtr (Some cur))) d)) =
      Some (errCouldNotDecode TString (PError (ErrLength (DecUint64 b) maxSliceLen)))) /\
  (forall v d,
      target_of v <> None -> maxDecodeLen < n (snd (Decode env v d)) ->
      exists t, fst (fst (Decode env v d)) = Some (errCouldNotDecode t size_limit)) /\
  (forall t v p q,
      supported env t = true -> has_type t v = true -> within_limits env t v = true ->
      Marshal env (Some (t, v)) = Returned (p ++ q) -> q <> [] ->
      len p <= maxDecodeLen ->
      exists st,
        fst (Unmarshal env p (Some (TPtr t, VPtr (Some (zero t))))) =
        Some (errCouldNotDecode t st) /\ eofish st) /\
  (forall name u und cur cur' blob rest p d,
      UnmarshalSia env name = Some u ->
      len blob <= maxSliceLen ->
      r d = EncUint64 (len blob) ++ blob ++ rest ->
      u blob cur = (cur', Some p) ->
      fst (Decode env (Some (TPtr (TNamed name und), VPtr (Some cur))) d) =
      (Some (errCouldNotDecode (TNamed name und) p),
       Some (TPtr (TNamed name und), VPtr (Some cur')))).
Proof.
  repeat apply conj.
  - intros v d. apply Decode_classified.
  - intros v d. apply Decode_classified.
  - exact (Decode_bad_bool env).
  - exact (Decode_slice_over env).
  - exact (Decode_string_over env).
  - exact (Decode_over_ceiling env).
  - exact (truncated env).
  - exact (Decode_custom_failure env).
Qed.

Lemma Decode_reports_witness :
  Decode plain (Some (TPtr TBool, VPtr None)) (NewDecoder [x01]) =
  ((Some errBadPointer, Some (TPtr TBool, VPtr None)), NewDecoder [x01]) /\
  (exists st,
      fst (Unmarshal plain (firstn 12 (EncUint64 3 ++ bar ++ EncInt64 3))
             (Some (TPtr foo, VPtr (Some (zero foo))))) =
      Some (errCouldNotDecode foo st) /\ eofish st) /\
  fst (Decode with_checked (Some (TPtr checked, VPtr (Some (VUint 7))))
         (NewDecoder (EncUint64 2 ++ [x01; x02]))) =
  (Some (errCouldNotDecode checked (PString "checked: bad length")),
   Some (TPtr checked, VPtr (Some (VUint 7)))).
Proof.
  split; [|split].
  - apply (proj1 (Decode_reports plain)). reflexivity.
  - apply (proj1 (proj2 (proj2 (proj2 (proj2 (proj2 (proj2 (Decode_reports plain)))))))
             foo foo_bar_3 _ (skipn 12 (EncUint64 3 ++ bar ++ EncInt64 3)));
      try reflexivity; [discriminate | vm_compute; discriminate].
  - apply (proj2 (proj2 (proj2 (proj2 (proj2 (proj2 (proj2 (Decode_reports with_checked)))))))
             "checked"%string checked_UnmarshalSia (TUint Uint8) (VUint 7) (VUint 7)
             [x01; x02] []);
      try reflexivity. vm_compute. discriminate.
Defined.

(** C3 as stated fails: the error for a nil pointer names no type. *)
Lemma bad_pointer_names_no_type :
  exists e : decode_error,
    fst (Unmarshal plain [x01] (Some (TPtr TBool, VPtr None))) = Some e /\
    error_type e = None.
Proof. exists errBadPointer. split; reflexivity. Qed.

(** ** What the round trip loses *)




(** * Further properties of the codec *)

(** ** Marshalling never fails on a supported type *)

Lemma run_write (p : list byte) : run (write p) = Returned p.
Proof. unfold run. now rewrite write_eq. Qed.

Lemma run_and_then (m k : Enc) :
  buffered m -> buffered k ->
  run (m ;; k) =
  match run m with
  | Returned b1 =>
      match run k with
      | Returned b2 => Returned (b1 ++ b2)
      | Panicked p => Panicked p
      end
  | Panicked p => Panicked p
  end.
Proof.
  intros [Hm1 Hm2] [Hk1 Hk2]. unfold run, and_then.
  destruct (m (NewEncoder [])) as [[| err |p] e1]; cbn [fst snd] in *.
  - rewrite (Hk2 e1).
    destruct (k (NewEncoder [])) as [[| err |p] e2]; cbn [fst snd w] in *;
      reflexivity.
  - now destruct (Hm1 err).
  - reflexivity.
Qed.

Lemma run_Marshal (env : Env) (t : type) (v : value) :
  Marshal env (Some (t, v)) = run (encode env t v).
Proof. reflexivity. Qed.

Lemma run_returns (m : Enc) :
  buffered m -> fst (m (NewEncoder [])) = Nil -> exists b, run m = Returned b.
Proof.
  intros _ H. unfold run. destruct (m (NewEncoder [])) as [[| |] e]; try discriminate.
  eauto.
Qed.

Lemma Nil_and_then (m k : Enc) (e : Encoder) :
  (forall e', fst (m e') = Nil) -> (forall e', fst (k e') = Nil) ->
  fst ((m ;; k) e) = Nil.
Proof.
  intros Hm Hk. unfold and_then. specialize (Hm e).
  destruct (m e) as [[| |] e1]; try discriminate. apply Hk.
Qed.

Lemma Nil_each (f : value -> Enc) (l : list value) :
  (forall v e, fst (f v e) = Nil) -> forall e, fst (each f l e) = Nil.
Proof.
  intros Hf. induction l as [|v l IH]; intros e; cbn [each]; [reflexivity|].
  apply Nil_and_then; auto.
Qed.

Lemma Nil_write (p : list byte) (e : Encoder) : fst (write p e) = Nil.
Proof. now rewrite write_eq. Qed.

Lemma encode_kind_Nil (env : Env) :
  (forall t, supported env t = true -> forall v e, fst (encode_kind env t v e) = Nil) /\
  (forall fs, supported_fields env fs = true ->
              forall l e, fst (encode_fields env fs l e) = Nil).
Proof.
  apply type_mutind; cbn [supported supported_fields encode_kind encode_fields].
  - intros _ v e. unfold encode_bool. destruct (val_Bool v); apply Nil_write.
  - intros k _ v e. apply Nil_write.
  - intros k _ v e. apply Nil_write.
  - intros _ v e. unfold WritePrefix. apply Nil_and_then; intros; apply Nil_write.
  - intros el IH Hs v e. apply Nil_and_then; [intros; apply Nil_write|].
    intros e'. unfold encode_array. destruct (is_Uint8 el); [apply Nil_write|].
    apply Nil_each. intros x e''. fold (encode env el x).
    rewrite encode_supported by assumption. auto.
  - intros k el IH Hs v e. unfold encode_array.
    destruct (is_Uint8 el); [apply Nil_write|].
    apply Nil_each. intros x e''. fold (encode env el x).
    rewrite encode_supported by assumption. auto.
  - intros fs IH Hs v e. auto.
  - intros el IH Hs v e. apply Nil_and_then.
    + intros e'. unfold encode_bool. destruct (negb (val_IsNil v)); apply Nil_write.
    + intros e'. destruct (negb (val_IsNil v)); [|reflexivity].
      fold (encode env el (val_Elem v)). rewrite encode_supported by assumption. auto.
  - intros name u IH Hs v e. apply andb_prop in Hs as [_ Hs]. auto.
  - discriminate.
  - intros _ l e. destruct l; reflexivity.
  - intros exported t IHt rest IHr Hs l e.
    apply andb_prop in Hs as [Hs Hsr]. apply andb_prop in Hs as [-> Hst].
    destruct l as [|v l]; [reflexivity|].
    apply Nil_and_then; [|auto].
    intros e'. fold (encode env t v). rewrite encode_supported by assumption. auto.
Qed.

(** X1. "Marshalling should never fail": on a type the codec supports,
    [Marshal] returns bytes for every value; it does not panic. *)
Theorem Marshal_returns (env : Env) (t : type) (v : value) :
  supported env t = true -> exists b, Marshal env (Some (t, v)) = Returned b.
Proof.
  intros Hs. rewrite run_Marshal. apply run_returns; [apply buffered_encode|].
  rewrite encode_supported by assumption. now apply encode_kind_Nil.
Qed.

Lemma Marshal_returns_witness :
  exists b, Marshal plain (Some (foo, foo_bar_3)) = Returned b.
Proof. apply (Marshal_returns plain foo foo_bar_3). reflexivity. Defined.

(** ** A struct and its fields *)

Lemma buffered_encode_fields (env : Env) (fs : fields) (vals : list value) :
  buffered (encode_fields env fs vals).
Proof. apply buffered_encode_kind. Qed.





(** ** Unexported fields *)







(** ** Slices and arrays *)

(** X4. A slice is its length and then its elements as an array: [Marshal]
    of a slice that is not nil returns the 8 bytes of its length followed
    by what [Marshal] returns for the array of the same elements, and
    panics as that call does. *)
Theorem Marshal_slice_array (env : Env) (elem : type) (l : list value) :
  Marshal env (Some (TSlice elem, VSlice (Some l))) =
  match Marshal env (Some (TArray (length l) elem, VArray l)) with
  | Returned b => Returned (EncUint64 (len l) ++ b)
  | Panicked p => Panicked p
  end.
Proof.
  rewrite !run_Marshal. unfold encode, encode_with. cbn [marshaler_of encode_kind].
  rewrite run_and_then.
  - rewrite run_write. reflexivity.
  - apply buffered_write.
  - apply buffered_encode_array. intros x. apply buffered_encode.
Qed.

(** ** The encoding is canonical and delimits itself *)

(** X5. Two values of a supported type within the limits of the decoder:
    if the encoding of one starts with the encoding of the other (no
    longer than [maxDecodeLen]), the two encodings are equal and so are
    the values, nil slices counting as empty ones. *)
Theorem Marshal_prefix_free (env : Env) (t : type) (v1 v2 : value) (b q : list byte) :
  supported env t = true ->
  has_type t v1 = true -> within_limits env t v1 = true ->
  has_type t v2 = true -> within_limits env t v2 = true ->
  Marshal env (Some (t, v1)) = Returned b ->
  Marshal env (Some (t, v2)) = Returned (b ++ q) ->
  len b <= maxDecodeLen ->
  q = [] /\ normalize v1 = normalize v2.
Proof.
  intros Hs Ht1 Hw1 Ht2 Hw2 Hm1 Hm2 Hn.
  destruct (roundtrip env t v1 [] Hs Ht1 Hw1) as (b1 & Hb1 & Hu1).
  rewrite Hm1 in Hb1. injection Hb1 as <-. rewrite app_nil_r in Hu1.
  specialize (Hu1 Hn).
  assert (Hq : q = []).
  { destruct q as [|x q]; [reflexivity|]. exfalso.
    destruct (truncated env t v2 b (x :: q) Hs Ht2 Hw2 Hm2) as (st & E & _);
      [discriminate | assumption |].
    rewrite Hu1 in E. discriminate. }
  split; [exact Hq|]. subst q. rewrite app_nil_r in Hm2.
  destruct (roundtrip env t v2 [] Hs Ht2 Hw2) as (b2 & Hb2 & Hu2).
  rewrite Hm2 in Hb2. injection Hb2 as <-. rewrite app_nil_r in Hu2.
  specialize (Hu2 Hn). rewrite Hu1 in Hu2. now injection Hu2.
Qed.

Lemma Marshal_prefix_free_witness :
  @nil byte = [] /\ normalize (VSlice None) = normalize (VSlice (Some [])).
Proof.
  apply (Marshal_prefix_free plain (TSlice TBool) (VSlice None) (VSlice (Some []))
           zeros8 []); try reflexivity.
  vm_compute. discriminate.
Defined.

(** ** The read count is exact *)

Lemma took_refl (d : Decoder) : took d d.
Proof. exists []. split; [reflexivity | cbn; lia]. Qed.

Lemma took_trans (d d1 d2 : Decoder) : took d d1 -> took d1 d2 -> took d d2.
Proof.
  intros (g1 & R1 & N1) (g2 & R2 & N2). exists (g1 ++ g2). split.
  - now rewrite R1, R2, app_assoc.
  - rewrite len_app. lia.
Qed.

Lemma took_moved (d d' : Decoder) (got : list byte) : moved d got d' -> took d d'.
Proof. intros (R & N & _). now exists got. Qed.

Lemma took_alloc (d : Decoder) (k : Z) : took d (snd (alloc k d)).
Proof. exists []. split; [reflexivity | cbn; lia]. Qed.

Lemma counting_ReadFull (k : Z) : counting (ReadFull k).
Proof.
  intros d. pose proof (ReadFull_rounds k d) as R.
  inversion R as [got d' M L Hn E | got d' M Hend L Hn E | got d' M L Ho E];
    cbn [snd]; eauto using took_moved.
Qed.

Lemma counting_readN (k : Z) : counting (readN k).
Proof.
  intros d. unfold readN, bind. cbn [alloc].
  set (d0 := {| r := r d; n := n d; allocated := allocated d + k |}).
  apply took_trans with (d1 := d0); [apply (took_alloc d k)|].
  pose proof (counting_ReadFull k d0) as H.
  destruct (ReadFull k d0) as [[[b [e|]]|p] d']; exact H.
Qed.

Lemma counting_readPrefix : counting readPrefix.
Proof.
  intros d. unfold readPrefix, ReadPrefix, bind. cbn [alloc].
  set (d0 := {| r := r d; n := n d; allocated := allocated d + 8 |}).
  apply took_trans with (d1 := d0); [apply (took_alloc d 8)|].
  pose proof (counting_ReadFull 8 d0) as H.
  destruct (ReadFull 8 d0) as [[[b [e|]]|p] d1]; cbn [fst snd] in H; try exact H.
  apply took_trans with (d1 := d1); [exact H|]. clear H.
  destruct (DecUint64 b >? maxSliceLen); [apply took_refl|].
  set (d2 := {| r := r d1; n := n d1; allocated := allocated d1 + DecUint64 b |}).
  apply took_trans with (d1 := d2); [apply (took_alloc d1)|].
  pose proof (counting_ReadFull (DecUint64 b) d2) as H.
  destruct (ReadFull (DecUint64 b) d2) as [[[b' [e|]]|p] d3]; exact H.
Qed.

Lemma counting_MakeSlice (env : Env) (elem : type) (sliceLen : Z) :
  counting (MakeSlice env elem sliceLen).
Proof.
  intros d. unfold MakeSlice.
  destruct (sliceLen * Size64 env elem >? maxAlloc); [apply took_refl | apply took_alloc].
Qed.

Lemma counting_read_then {A : Type} (val : value) (m : Dec A) (k : A -> Upd) :
  counting m -> (forall a, counting (k a)) -> counting (read_then val m k).
Proof.
  intros Hm Hk d. unfold read_then. specialize (Hm d).
  destruct (m d) as [[a|p] d1]; cbn [fst snd] in *; [|exact Hm].
  apply took_trans with (d1 := d1); [exact Hm | apply Hk].
Qed.

Lemma counting_set (v : value) : counting (set v).
Proof. intros d. apply took_refl. Qed.

Lemma counting_raise (val : value) (p : panic_value) : counting (raise val p).
Proof. intros d. apply took_refl. Qed.

Lemma counting_decode_bool (val : value) : counting (decode_bool val).
Proof.
  apply counting_read_then; [apply counting_readN|].
  intros b. destruct (Z_of_byte (nth 0 b x00) >? 1);
    [apply counting_raise | apply counting_set].
Qed.

Lemma counting_each_in_place (f : value -> Upd) :
  (forall v, counting (f v)) -> forall vs, counting (each_in_place f vs).
Proof.
  intros Hf. induction vs as [|v vs IH]; intros d; cbn [each_in_place].
  - apply took_refl.
  - specialize (Hf v d). destruct (f v d) as [[v' [p|]] d1]; cbn [fst snd] in *.
    + exact Hf.
    + specialize (IH d1).
      destruct (each_in_place f vs d1) as [[l st] d2]; cbn [fst snd] in *.
      now apply took_trans with (d1 := d1).
Qed.

Lemma counting_decode_array (dec : value -> Upd) (elem : type) (val : value) :
  (forall v, counting (dec v)) -> counting (decode_array dec elem val).
Proof.
  intros Hdec d. unfold decode_array. destruct (is_Uint8 elem).
  - pose proof (counting_ReadFull (val_Len val) d) as H.
    destruct (ReadFull (val_Len val) d) as [[[b [e|]]|p] d']; exact H.
  - pose proof (counting_each_in_place dec Hdec (val_elems val) d) as H.
    destruct (each_in_place dec (val_elems val) d) as [[l st] d']; exact H.
Qed.

Lemma counting_decode_with (env : Env) (kind : type -> value -> Upd) (t : type) (val : value) :
  counting (kind t val) -> counting (decode_with env kind t val).
Proof.
  intros H. unfold decode_with.
  destruct (unmarshaler_of env t) as [u|]; [|exact H].
  apply counting_read_then; [apply counting_readPrefix|].
  intros b d. apply took_refl.
Qed.

Lemma counting_decode_kind (env : Env) :
  (forall t val, counting (decode_kind env t val)) /\
  (forall fs vals, counting (decode_fields env fs vals)).
Proof.
  apply type_mutind; intros; cbn [decode_kind decode_fields].
  - apply counting_decode_bool.
  - apply counting_read_then; [apply counting_readN | intros; apply counting_set].
  - apply counting_read_then; [apply counting_readN | intros; apply counting_set].
  - apply counting_read_then; [apply counting_readPrefix | intros; apply counting_set].
  - apply counting_read_then; [apply counting_readN|]. intros b.
    destruct ((DecUint64 b >? 2 ^ 31 - 1)
              || (wrap_unsigned 64 (DecUint64 b * Size64 env elem) >? maxSliceLen));
      [apply counting_raise|].
    apply counting_read_then; [apply counting_MakeSlice|]. intros val'.
    apply counting_decode_array. intros v. now apply counting_decode_with.
  - apply counting_decode_array. intros v. now apply counting_decode_with.
  - intros d. specialize (H (val_fields val) d).
    destruct (decode_fields env fs (val_fields val) d) as [[l st] d']. exact H.
  - intros d. pose proof (counting_decode_bool (VBool false) d) as Hb.
    destruct (decode_bool (VBool false) d) as [[valid [p|]] d1]; cbn [fst snd] in *;
      [exact Hb|].
    destruct (negb (val_Bool valid)); [exact Hb|].
    set (c := if val_IsNil val
              then (VPtr (Some (zero elem)), snd (alloc (Size64 env elem) d1))
              else (val, d1)).
    assert (Hc : took d (snd c)).
    { subst c. destruct (val_IsNil val); [|exact Hb].
      apply took_trans with (d1 := d1); [exact Hb | apply took_alloc]. }
    destruct c as [val1 d2]. cbn [snd] in Hc.
    pose proof (counting_decode_with env (decode_kind env) elem (val_Elem val1) (H _) d2) as Hd.
    destruct (decode_with env (decode_kind env) elem (val_Elem val1) d2) as [[x st] d3].
    now apply took_trans with (d1 := d2).
  - apply H.
  - apply counting_raise.
  - intros d. destruct vals; apply took_refl.
  - intros d. destruct vals as [|v vals]; [apply took_refl|].
    destruct exported; [|apply took_refl].
    pose proof (counting_decode_with env (decode_kind env) t v (H v) d) as Hd.
    destruct (decode_with env (decode_kind env) t v d) as [[v' [p|]] d1];
      cbn [fst snd] in *; [exact Hd|].
    specialize (H0 vals d1).
    destruct (decode_fields env rest vals d1) as [[l st] d2]; cbn [fst snd] in *.
    now apply took_trans with (d1 := d1).
Qed.

Lemma counting_decode (env : Env) (t : type) (val : value) : counting (decode env t val).
Proof. apply counting_decode_with, counting_decode_kind. Qed.

(** X6. The read count is exact: whatever the source holds, whatever type
    the target has and however the call ends, [Decode] takes bytes only
    from the front of the source, and the count [n] it leaves behind is
    the number of bytes it took; a call with a bad target takes none. *)
Theorem Decode_counts (env : Env) (v : iface) (d : Decoder) :
  exists got,
    r d = got ++ r (snd (Decode env v d)) /\
    match target_of v with
    | Some _ => n (snd (Decode env v d)) = len got
    | None => got = [] /\ snd (Decode env v d) = d
    end.
Proof.
  unfold target_of, Decode. destruct v as [[pt pval]|]; [|now exists []].
  destruct (ptr_elem pt) as [elem|]; [|now exists []].
  destruct (val_IsNil pval); [now exists []|].
  set (d0 := {| r := r d; n := 0; allocated := allocated d |}).
  destruct (counting_decode env elem (val_Elem pval) d0) as (got & R & N).
  destruct (decode env elem (val_Elem pval) d0) as [[x st] d']; cbn [fst snd] in *.
  exists got. split; [exact R | exact N].
Qed.

(** ** Decoding a stream of values *)





(** ** Integers of another width *)

Lemma Unmarshal_8_bytes (env : Env) (t : type) (cur : value) (b : list byte)
      (k : list byte -> Upd) :
  len b = 8 ->
  unmarshaler_of env t = None ->
  decode_kind env t cur = read_then cur (readN 8) k ->
  Unmarshal env b (holding t cur) =
  let '((x, st), _) := k b {| r := []; n := 8; allocated := 8 |} in
  (match st with Some p => Some (errCouldNotDecode t p) | None => None end,
   holding t x).
Proof.
  intros Hl Hu Hk. unfold Unmarshal, holding. rewrite Decode_step.
  unfold decode, decode_with. rewrite Hu, Hk. unfold read_then, NewDecoder.
  cbn [r n allocated].
  rewrite (readN_enough 8 _ b []) by (cbn [r n]; rewrite ?app_nil_r; consts; auto; lia).
  cbn [n allocated]. destruct (k b _) as [[x st] d']. reflexivity.
Qed.

(** X8. Integers of every kind are the same 8 bytes on the wire, and the
    decoder does not check the width of its target: the encoding of a
    signed integer [x] decodes into a signed target of any kind without
    an error, to [x] when the kind of the target is at least as wide as
    the one [x] came from, and to the low bits of [x] otherwise. The
    same holds between the unsigned kinds. *)
Theorem integer_widths (env : Env) :
  (forall (k k' : int_kind) (x : Z) (cur : value),
      has_type (TInt k) (VInt x) = true ->
      Marshal env (Some (TInt k, VInt x)) = Returned (EncInt64 x) /\
      Unmarshal env (EncInt64 x) (holding (TInt k') cur) =
      (None, holding (TInt k') (VInt (wrap_signed (int_bits k') x))) /\
      (int_bits k <= int_bits k' -> wrap_signed (int_bits k') x = x)) /\
  (forall (k k' : uint_kind) (u : Z) (cur : value),
      has_type (TUint k) (VUint u) = true ->
      Marshal env (Some (TUint k, VUint u)) = Returned (EncUint64 u) /\
      Unmarshal env (EncUint64 u) (holding (TUint k') cur) =
      (None, holding (TUint k') (VUint (wrap_unsigned (uint_bits k') u))) /\
      (uint_bits k <= uint_bits k' -> wrap_unsigned (uint_bits k') u = u)).
Proof.
  split.
  - intros k k' x cur Ht. destruct (int_range k x Ht) as [Hk H64].
    split; [|split].
    + rewrite run_Marshal. unfold encode, encode_with. cbn [marshaler_of encode_kind val_Int].
      apply run_write.
    + rewrite (Unmarshal_8_bytes env (TInt k') cur (EncInt64 x)
                 (fun b => set (SetInt k' (DecInt64 b))));
        [|apply len_EncInt64 | reflexivity | reflexivity].
      unfold set, SetInt. now rewrite DecInt64_EncInt64.
    + intros Hb. apply wrap_signed_small; [destruct k'; cbn; lia|].
      assert (2 ^ (int_bits k - 1) <= 2 ^ (int_bits k' - 1))
        by (apply Z.pow_le_mono_r; destruct k; cbn in *; lia).
      lia.
  - intros k k' u cur Ht. destruct (uint_range k u Ht) as [Hk H64].
    split; [|split].
    + rewrite run_Marshal. unfold encode, encode_with. cbn [marshaler_of encode_kind val_Uint].
      apply run_write.
    + rewrite (Unmarshal_8_bytes env (TUint k') cur (EncUint64 u)
                 (fun b => set (SetUint k' (DecUint64 b))));
        [|apply len_EncUint64 | reflexivity | reflexivity].
      unfold set, SetUint. now rewrite DecUint64_EncUint64_small.
    + intros Hb. unfold wrap_unsigned. apply Z.mod_small.
      assert (2 ^ uint_bits k <= 2 ^ uint_bits k')
        by (apply Z.pow_le_mono_r; destruct k; cbn in *; lia).
      lia.
Qed.

Lemma integer_widths_witness :
  (Marshal plain (Some (TInt Int16, VInt (-300))) = Returned (EncInt64 (-300)) /\
   Unmarshal plain (EncInt64 (-300)) (holding (TInt Int8) (VInt 0)) =
   (None, holding (TInt Int8) (VInt (wrap_signed (int_bits Int8) (-300)))) /\
   (int_bits Int16 <= int_bits Int8 -> wrap_signed (int_bits Int8) (-300) = -300)) /\
  (Marshal plain (Some (TUint Uint16, VUint 300)) = Returned (EncUint64 300) /\
   Unmarshal plain (EncUint64 300) (holding (TUint Uint64) (VUint 0)) =
   (None, holding (TUint Uint64) (VUint (wrap_unsigned (uint_bits Uint64) 300))) /\
   (uint_bits Uint16 <= uint_bits Uint64 -> wrap_unsigned (uint_bits Uint64) 300 = 300)).
Proof.
  split.
  - apply (proj1 (integer_widths plain) Int16 Int8 (-300) (VInt 0)). reflexivity.
  - apply (proj2 (integer_widths plain) Uint16 Uint64 300 (VUint 0)). reflexivity.
Defined.

(** ** Types with methods of their own *)

(** X9. A type with [MarshalSia] and [UnmarshalSia]: [Marshal] returns
    what [MarshalSia] returns behind its length, whatever the type is
    underneath; and when that is at most [maxSliceLen] bytes, [Unmarshal]
    hands just those bytes to [UnmarshalSia] on the target, returns nil
    if it returns and the error of its panic if it panics, and leaves the
    target as [UnmarshalSia] left it. *)
Theorem custom_methods (env : Env) (name : string) (und : type)
        (m : value -> list byte)
        (u : list byte -> value -> value * option panic_value) (v cur : value) :
  MarshalSia env name = Some m -> UnmarshalSia env name = Some u ->
  len (m v) <= maxSliceLen ->
  Marshal env (Some (TNamed name und, v)) = Returned (EncUint64 (len (m v)) ++ m v) /\
  Unmarshal env (EncUint64 (len (m v)) ++ m v) (holding (TNamed name und) cur) =
  (match snd (u (m v) cur) with
   | Some p => Some (errCouldNotDecode (TNamed name und) p)
   | None => None
   end, holding (TNamed name und) (fst (u (m v) cur))).
Proof.
  intros Hm Hu Hl. split.
  - rewrite run_Marshal. unfold encode, encode_with. cbn [marshaler_of]. rewrite Hm.
    unfold WritePrefix. rewrite run_and_then by apply buffered_write.
    now rewrite !run_write.
  - unfold Unmarshal, holding. rewrite Decode_step.
    unfold decode, decode_with. cbn [unmarshaler_of]. rewrite Hu.
    unfold read_then, NewDecoder. cbn [r n allocated].
    rewrite (readPrefix_enough _ (m v) []);
      [|cbn [r]; now rewrite app_nil_r | assumption | cbn [n]; consts; lia].
    destruct (u (m v) cur) as [cur' [p|]]; reflexivity.
Qed.

Lemma custom_methods_witness :
  Marshal with_checked (Some (checked, VUint 7)) = Returned (EncUint64 1 ++ [x07]) /\
  Unmarshal with_checked (EncUint64 1 ++ [x07]) (holding checked (VUint 0)) =
  (None, holding checked (VUint 7)).
Proof.
  apply (custom_methods with_checked "checked" (TUint Uint8)
           (fun v => [byte_of_Z (val_Uint v)]) checked_UnmarshalSia (VUint 7) (VUint 0));
    try reflexivity.
  vm_compute. discriminate.
Defined.

(** ** Elements that take no memory *)

Lemma each_in_place_same (f : value -> Upd) (v : value) :
  (forall d, f v d = ((v, None), d)) ->
  forall k d, each_in_place f (repeat v k) d = ((repeat v k, None), d).
Proof.
  intros Hf. induction k as [|k IH]; intros d; cbn [repeat each_in_place].
  - reflexivity.
  - now rewrite Hf, IH.
Qed.

(** X10. The ceiling on a slice counts bytes of memory, not elements:
    when the elements of a slice take no memory (the empty struct), the
    8 bytes of any length up to [1<<31 - 1] decode without an error into
    a slice of that many elements. *)
Theorem empty_elements_pass (env : Env) (L : Z) (cur : value) :
  Size64 env (TStruct FNil) = 0 -> 0 <= L <= 2 ^ 31 - 1 ->
  Unmarshal env (EncUint64 L) (holding (TSlice (TStruct FNil)) cur) =
  (None, holding (TSlice (TStruct FNil))
                 (VSlice (Some (repeat (VStruct []) (Z.to_nat L))))).
Proof.
  intros Hz HL.
  rewrite (Unmarshal_8_bytes env (TSlice (TStruct FNil)) cur (EncUint64 L)
             (fun b =>
                let sliceLen := DecUint64 b in
                if (sliceLen >? 2 ^ 31 - 1)
                   || (wrap_unsigned 64 (sliceLen * Size64 env (TStruct FNil)) >? maxSliceLen)
                then raise cur (PString "slice is too large")
                else
                  read_then cur (MakeSlice env (TStruct FNil) sliceLen) (fun val' =>
                    decode_array (decode_with env (decode_kind env) (TStruct FNil))
                                 (TStruct FNil) val')));
    [|apply len_EncUint64 | reflexivity | reflexivity].
  cbv zeta. rewrite DecUint64_EncUint64_small by (consts; lia).
  rewrite Hz, Z.mul_0_r. unfold wrap_unsigned. rewrite Z.mod_0_l by (consts; lia).
  replace (L >? 2 ^ 31 - 1) with false by (symmetry; rewrite Z.gtb_ltb; apply Z.ltb_ge; lia).
  change (0 >? maxSliceLen) with false. cbn [orb].
  unfold read_then, MakeSlice. rewrite Hz, Z.mul_0_r.
  change (0 >? maxAlloc) with false. unfold bind, alloc, ret. cbn [r n allocated].
  unfold decode_array. cbn [is_Uint8 val_elems zero zero_fields].
  rewrite each_in_place_same; [reflexivity|].
  intros d. reflexivity.
Qed.

Lemma empty_elements_pass_witness :
  Unmarshal plain (EncUint64 1000) (holding (TSlice (TStruct FNil)) (VSlice None)) =
  (None, holding (TSlice (TStruct FNil))
                 (VSlice (Some (repeat (VStruct []) (Z.to_nat 1000))))).
Proof.
  apply (empty_elements_pass plain 1000 (VSlice None)); [reflexivity | consts; lia].
Defined.

(** ** A byte array and a source that is too short *)

(** X11. A byte array is read in place: when the source holds fewer
    bytes than the array is long, [Unmarshal] returns an error ([io.EOF]
    on an empty source, [io.ErrUnexpectedEOF] otherwise), and the array
    holds the bytes of the source followed by what it held before. *)
Theorem byte_array_short (env : Env) (size : nat) (elem : type) (old : list value)
        (p : list byte) :
  is_Uint8 elem = true -> length old = size -> len p < Z.of_nat size ->
  len p <= maxDecodeLen ->
  Unmarshal env p (holding (TArray size elem) (VArray old)) =
  (Some (errCouldNotDecode (TArray size elem)
           (PError (match p with [] => EOF | _ => ErrUnexpectedEOF end))),
   holding (TArray size elem) (VArray (bytes_values p ++ skipn (length p) old))).
Proof.
  intros H8 Hold Hp Hn. unfold Unmarshal, holding. rewrite Decode_step.
  unfold decode, decode_with. cbn [unmarshaler_of decode_kind]. unfold decode_array.
  rewrite H8. unfold NewDecoder. cbn [r n allocated].
  set (d := {| r := p; n := 0; allocated := 0 |}).
  assert (Hk : val_Len (VArray old) = Z.of_nat size) by (unfold val_Len; cbn; now rewrite Hold).
  rewrite Hk.
  pose proof (ReadFull_rounds (Z.of_nat size) d) as R.
  inversion R as [got d' M L Hc E | got d' M Hend L Hc E | got d' M L Ho E].
  - exfalso. destruct M as (Hr & _). cbn [r d] in Hr.
    assert (len p = len got + len (r d')) by (rewrite Hr at 1; apply len_app).
    pose proof (len_nonneg (r d')). lia.
  - destruct M as (Hr & _). cbn [r d] in Hr. rewrite Hend, app_nil_r in Hr. subst got.
    cbn [fst snd set_elems val_elems]. reflexivity.
  - exfalso. destruct M as (Hr & Hn' & _). cbn [r n d] in *.
    assert (len p = len got + len (r d')) by (rewrite Hr at 1; apply len_app).
    pose proof (len_nonneg (r d')). lia.
Qed.

Lemma byte_array_short_witness :
  Unmarshal plain [x01; x02]
    (holding (TArray 4 (TUint Uint8)) (VArray [VUint 9; VUint 9; VUint 9; VUint 9])) =
  (Some (errCouldNotDecode (TArray 4 (TUint Uint8)) (PError ErrUnexpectedEOF)),
   holding (TArray 4 (TUint Uint8)) (VArray [VUint 1; VUint 2; VUint 9; VUint 9])).
Proof.
  apply (byte_array_short plain 4 (TUint Uint8) [VUint 9; VUint 9; VUint 9; VUint 9]
           [x01; x02]); try reflexivity.
  vm_compute. discriminate.
Defined.

(** ** Strings and byte slices *)







(** ** Types of a fixed size *)

Lemma run_each_sized (f : value -> Enc) (k : Z) (l : list value) :
  (forall x, buffered (f x)) ->
  Forall (fun x => exists b, run (f x) = Returned b /\ len b = k) l ->
  exists b, run (each f l) = Returned b /\ len b = len l * k.
Proof.
  intros Hf. induction 1 as [|x l (b & Eb & Lb) _ (bs & Ebs & Lbs)]; cbn [each].
  - exists []. split; [reflexivity | cbn; lia].
  - rewrite run_and_then by (first [apply Hf | apply buffered_each, Hf]).
    rewrite Eb, Ebs. exists (b ++ bs). split; [reflexivity|].
    rewrite len_app, len_cons. lia.
Qed.

Lemma fixed_size_kind (env : Env) :
  (forall t, supported env t = true ->
             forall k v, fixed_size t = Some k -> has_type t v = true ->
                         exists b, run (encode_kind env t v) = Returned b /\ len b = k) /\
  (forall fs, supported_fields env fs = true ->
              forall k l, fixed_fields fs = Some k -> has_types fs l = true ->
                          exists b, run (encode_fields env fs l) = Returned b /\ len b = k).
Proof.
  apply type_mutind;
    cbn [supported supported_fields fixed_size fixed_fields has_type has_types encode_kind
         encode_fields]; try discriminate.
  - intros _ k v [= <-] _. unfold encode_bool.
    destruct (val_Bool v); rewrite run_write; eexists; split; reflexivity.
  - intros i _ k v [= <-] _. rewrite run_write. eauto using len_EncInt64.
  - intros i _ k v [= <-] _. rewrite run_write. eauto using len_EncUint64.
  - intros size el IH Hs k v Hk Ht. destruct v as [| | | | |l| | |]; try discriminate.
    apply andb_prop in Ht as [Hlen Hall]. apply Nat.eqb_eq in Hlen.
    unfold encode_array. destruct (is_Uint8 el).
    + injection Hk as <-. rewrite run_write. eexists. split; [reflexivity|].
      unfold val_Bytes, len. cbn [val_elems]. now rewrite length_map, Hlen.
    + destruct (fixed_size el) as [ke|]; [|discriminate]. injection Hk as <-.
      cbn [val_elems]. rewrite <- Hlen. fold (len l).
      apply run_each_sized.
      * intros x. apply buffered_encode.
      * rewrite forallb_forall in Hall. apply Forall_forall. intros x Hx.
        fold (encode env el x). rewrite encode_supported by assumption.
        apply IH; auto.
  - intros fs IH Hs k v Hk Ht. destruct v; try discriminate. now apply IH.
  - intros name u IH Hs k v Hk Ht. apply andb_prop in Hs as [_ Hs]. now apply IH.
  - intros _ k l [= <-] Hl. destruct l; [|discriminate].
    exists []. split; reflexivity.
  - intros exported t IHt rest IHr Hs k l Hk Hl.
    apply andb_prop in Hs as [Hs Hsr]. apply andb_prop in Hs as [-> Hst].
    destruct l as [|v l]; [discriminate|]. apply andb_prop in Hl as [Hv Hl].
    destruct (fixed_size t) as [a|]; [|discriminate].
    destruct (fixed_fields rest) as [c|]; [|discriminate]. injection Hk as <-.
    rewrite run_and_then by (first [apply buffered_encode | apply buffered_encode_fields]).
    fold (encode env t v). rewrite encode_supported by assumption.
    destruct (IHt Hst a v eq_refl Hv) as (b1 & -> & L1).
    destruct (IHr Hsr c l eq_refl Hl) as (b2 & -> & L2).
    exists (b1 ++ b2). split; [reflexivity|]. rewrite len_app. lia.
Qed.

(** X13. Types of a fixed size: for a supported type with no string,
    slice or pointer in it, every value encodes to the same number of
    bytes: 1 for a bool, 8 for an integer of any kind, the number of
    elements for an array of bytes, the sum over the elements for any
    other array and over the fields for a struct. *)
Theorem Marshal_fixed_size (env : Env) (t : type) (k : Z) (v : value) :
  supported env t = true -> fixed_size t = Some k -> has_type t v = true ->
  exists b, Marshal env (Some (t, v)) = Returned b /\ len b = k.
Proof.
  intros Hs Hk Ht. rewrite run_Marshal, encode_supported by assumption.
  now apply (proj1 (fixed_size_kind env) t Hs k v).
Qed.

Lemma Marshal_fixed_size_witness :
  exists b,
    Marshal plain (Some (TStruct (FCons true (TArray 3 (TUint Uint8))
                                   (FCons true (TUint Uint8) FNil)),
                         VStruct [VArray [VUint 1; VUint 2; VUint 3]; VUint 4])) =
    Returned b /\ len b = 11.
Proof.
  apply (Marshal_fixed_size plain
           (TStruct (FCons true (TArray 3 (TUint Uint8)) (FCons true (TUint Uint8) FNil)))
           11 (VStruct [VArray [VUint 1; VUint 2; VUint 3]; VUint 4])); reflexivity.
Defined.

(** ** Reading a fixed number of bytes *)

(** X14. [readN] returns all the bytes asked for or panics: for [k >= 0]
    it returns the next [k] bytes of the source, or it panics with
    [io.EOF] when the source is empty, with [io.ErrUnexpectedEOF] when
    the source ends before [k] bytes, or with the panic of [Decoder.Read]
    when the count has passed [maxDecodeLen]. It never returns fewer
    bytes than asked for. *)
Theorem readN_all_or_panic (k : Z) (d : Decoder) :
  0 <= k ->
  match readN k d with
  | (Returned b, d') => len b = k /\ r d = b ++ r d'
  | (Panicked p, d') =>
      (p = PError EOF /\ r d = [] /\ 0 < k) \/
      (p = PError ErrUnexpectedEOF /\ 0 < len (r d) < k /\ r d' = []) \/
      (p = size_limit /\ maxDecodeLen < n d')
  end.
Proof.
  intros Hk. unfold readN, bind. cbn [alloc].
  set (d0 := {| r := r d; n := n d; allocated := allocated d + k |}).
  pose proof (ReadFull_rounds k d0) as R.
  inversion R as [got d' M L Hc E | got d' M Hend L Hc E | got d' M L Ho E];
    destruct M as (Hr & Hn & _); cbn [r n d0] in *; unfold ret, panic.
  - split; [lia | exact Hr].
  - rewrite Hend, app_nil_r in Hr. destruct got as [|x got].
    + left. pose proof (len_nonneg (@nil byte)). cbn in L. auto.
    + right. left. rewrite Hr. rewrite len_cons in *. pose proof (len_nonneg got).
      repeat split; try lia. exact Hend.
  - right. right. split; [reflexivity | exact Ho].
Qed.

Lemma readN_all_or_panic_witness :
  match readN 2 (NewDecoder [x01]) with
  | (Returned b, d') => len b = 2 /\ r (NewDecoder [x01]) = b ++ r d'
  | (Panicked p, d') =>
      (p = PError EOF /\ r (NewDecoder [x01]) = [] /\ 0 < 2) \/
      (p = PError ErrUnexpectedEOF /\ 0 < len (r (NewDecoder [x01])) < 2 /\ r d' = []) \/
      (p = size_limit /\ maxDecodeLen < n d')
  end.
Proof. apply (readN_all_or_panic 2 (NewDecoder [x01])). lia. Defined.

(** * Properties of the callers and of the modules beside the package *)

(** ** The miner fills a block *)

Section MinerFacts.
Context {Block BlockID Target Timestamp : Type}.
Variable w : @miner.World Block BlockID Target Timestamp.
Variable env : Env.

Lemma miner_loop_prefix (unconfirmed : list value) :
  Forall (fun tx => exists b, Marshal env (Some (miner.Transaction w, tx)) = Returned b /\
                              len b < 2 ^ 63) unconfirmed ->
  forall remaining acc,
    0 <= remaining < 2 ^ 63 ->
    exists sel rest,
      miner.ReceiveTransactionPoolUpdate_loop w env unconfirmed remaining acc =
      (acc ++ sel, None) /\
      unconfirmed = sel ++ rest /\
      miner.total_size env (miner.Transaction w) sel <= remaining /\
      match rest with
      | [] => True
      | tx :: _ =>
          remaining <
          miner.total_size env (miner.Transaction w) sel + miner.size env (miner.Transaction w) tx
      end.
Proof.
  induction 1 as [|tx l (b & Eb & Lb) _ IH]; intros remaining acc Hr;
    cbn [miner.ReceiveTransactionPoolUpdate_loop].
  - exists [], []. rewrite app_nil_r. cbn. repeat split; auto; lia.
  - rewrite Eb. pose proof (len_nonneg b) as Hb.
    rewrite wrap_signed_small by lia.
    destruct (remaining - len b <? 0) eqn:Hc.
    + apply Z.ltb_lt in Hc. exists [], (tx :: l). rewrite app_nil_r.
      unfold miner.size. rewrite Eb. cbn. repeat split; auto; lia.
    + apply Z.ltb_ge in Hc.
      destruct (IH (remaining - len b) (acc ++ [tx])) as (sel & rest & E & Hl & Ht & Hn);
        [lia|].
      exists (tx :: sel), rest. rewrite E, <- app_assoc. cbn [app].
      split; [reflexivity|]. split; [now rewrite Hl|].
      cbn [miner.total_size fold_right]. fold (miner.total_size env (miner.Transaction w) sel).
      assert (Hs : miner.size env (miner.Transaction w) tx = len b)
        by (unfold miner.size; now rewrite Eb).
      rewrite Hs. split; [lia|]. destruct rest; [exact I | lia].
Qed.

(** X15. The miner fills its block with the longest run of unconfirmed
    transactions, taken from the front of the pool, whose encodings
    together take at most [BlockSizeLimit - 5000] bytes: the transactions
    it keeps are the first ones of the pool in order, their encoded sizes
    add up to no more than that, and the first transaction left out, if
    there is one, would not have fitted; the ones after it are left out
    even where they would fit. *)
Theorem transactions_fit (cc : miner.ConsensusChange) (unconfirmed : list value)
        (m : miner.Miner) :
  Forall (fun tx => exists b, Marshal env (Some (miner.Transaction w, tx)) = Returned b /\
                              len b < 2 ^ 63) unconfirmed ->
  0 <= miner.BlockSizeLimit w - 5000 < 2 ^ 63 ->
  exists rest,
    unconfirmed =
    miner.transactions (snd (miner.ReceiveTransactionPoolUpdate w env cc unconfirmed m))
    ++ rest /\
    miner.total_size env (miner.Transaction w)
      (miner.transactions (snd (miner.ReceiveTransactionPoolUpdate w env cc unconfirmed m)))
    <= miner.BlockSizeLimit w - 5000 /\
    match rest with
    | [] => True
    | tx :: _ =>
        miner.BlockSizeLimit w - 5000 <
        miner.total_size env (miner.Transaction w)
          (miner.transactions (snd (miner.ReceiveTransactionPoolUpdate w env cc unconfirmed m)))
        + miner.size env (miner.Transaction w) tx
    end.
Proof.
  intros Hu Hl.
  destruct (miner_loop_prefix unconfirmed Hu (miner.BlockSizeLimit w - 5000) [] Hl)
    as (sel & rest & E & Hp & Ht & Hn).
  cbn [app] in E. exists rest.
  assert (Htx : miner.transactions
                  (snd (miner.ReceiveTransactionPoolUpdate w env cc unconfirmed m)) = sel).
  { unfold miner.ReceiveTransactionPoolUpdate. rewrite E.
    destruct (len (miner.AppliedBlocks cc) =? 0).
    - destruct (miner.DEBUG w && negb (len (miner.RevertedBlocks cc) =? 0)); reflexivity.
    - destruct (index (miner.AppliedBlocks cc) (len (miner.AppliedBlocks cc) - 1));
        [|reflexivity].
      destruct (miner.ChildTarget w (miner.ID w b)) as [t e1].
      destruct (miner.EarliestChildTimestamp w (miner.ID w b)) as [ts e2].
      destruct (miner.DEBUG w && negb e1); [reflexivity|].
      destruct (miner.DEBUG w && negb e2); reflexivity. }
  rewrite Htx. auto.
Qed.

End MinerFacts.

Lemma transactions_fit_witness :
  exists rest,
    miner.pool =
    miner.transactions
      (snd (miner.ReceiveTransactionPoolUpdate miner.small_world plain miner.one_block
              miner.pool miner.idle))
    ++ rest /\
    miner.total_size plain (miner.Transaction miner.small_world)
      (miner.transactions
         (snd (miner.ReceiveTransactionPoolUpdate miner.small_world plain miner.one_block
                 miner.pool miner.idle)))
    <= miner.BlockSizeLimit miner.small_world - 5000 /\
    match rest with
    | [] => True
    | tx :: _ =>
        miner.BlockSizeLimit miner.small_world - 5000 <
        miner.total_size plain (miner.Transaction miner.small_world)
          (miner.transactions
             (snd (miner.ReceiveTransactionPoolUpdate miner.small_world plain miner.one_block
                     miner.pool miner.idle)))
        + miner.size plain (miner.Transaction miner.small_world) tx
    end.
Proof.
  apply (transactions_fit miner.small_world plain miner.one_block miner.pool miner.idle).
  - repeat constructor; eexists; (split; [reflexivity | vm_compute; reflexivity]).
  - cbn. lia.
Defined.

(** ** The block explorer follows the consensus set *)

Section ExplorerFacts.
Context {Block Currency DB : Type}.
Variable w : @blockexplorer.World Block Currency DB.

Lemma wrap_unsigned_add (bits a b : Z) :
  wrap_unsigned bits (wrap_unsigned bits a + b) = wrap_unsigned bits (a + b).
Proof. unfold wrap_unsigned. now rewrite Zplus_mod_idemp_l. Qed.

Lemma count_diff_counters (be : blockexplorer.BlockExplorer)
      (diff : blockexplorer.FileContractDiff) :
  blockexplorer.totalContracts (blockexplorer.count_diff w be diff) =
  (if blockexplorer.Direction diff
   then wrap_unsigned 64 (blockexplorer.totalContracts be + 1)
   else blockexplorer.totalContracts be) /\
  blockexplorer.activeContracts (blockexplorer.count_diff w be diff) =
  (if blockexplorer.Direction diff
   then wrap_unsigned 64 (blockexplorer.activeContracts be + 1)
   else wrap_unsigned 64 (blockexplorer.activeContracts be - 1)).
Proof. unfold blockexplorer.count_diff. destruct (blockexplorer.Direction diff); now split. Qed.

Lemma count_diff_frame (be : blockexplorer.BlockExplorer)
      (diff : blockexplorer.FileContractDiff) :
  blockexplorer.db (blockexplorer.count_diff w be diff) = blockexplorer.db be /\
  blockexplorer.currentBlock (blockexplorer.count_diff w be diff) =
  blockexplorer.currentBlock be /\
  blockexplorer.blockchainHeight (blockexplorer.count_diff w be diff) =
  blockexplorer.blockchainHeight be /\
  blockexplorer.printed (blockexplorer.count_diff w be diff) = blockexplorer.printed be /\
  blockexplorer.updates (blockexplorer.count_diff w be diff) = blockexplorer.updates be.
Proof.
  unfold blockexplorer.count_diff. destruct (blockexplorer.Direction diff); repeat split.
Qed.

Lemma count_diffs_counters (diffs : list blockexplorer.FileContractDiff) :
  forall be : blockexplorer.BlockExplorer,
    wrap_unsigned 64
      (blockexplorer.totalContracts (fold_left (blockexplorer.count_diff w) diffs be)) =
    wrap_unsigned 64 (blockexplorer.totalContracts be + blockexplorer.applied diffs) /\
    wrap_unsigned 64
      (blockexplorer.activeContracts (fold_left (blockexplorer.count_diff w) diffs be)) =
    wrap_unsigned 64 (blockexplorer.activeContracts be + blockexplorer.applied diffs
                      - blockexplorer.reverted diffs).
Proof.
  unfold blockexplorer.applied, blockexplorer.reverted.
  induction diffs as [|diff diffs IH]; intros be; cbn [fold_left filter].
  - cbn. now rewrite !Z.add_0_r, Z.sub_0_r.
  - destruct (IH (blockexplorer.count_diff w be diff)) as (Ht & Ha). rewrite Ht, Ha.
    destruct (count_diff_counters be diff) as (-> & ->).
    destruct (blockexplorer.Direction diff); cbn [negb]; rewrite ?len_cons.
    + rewrite <- Z.add_sub_assoc, !wrap_unsigned_add. split; f_equal; lia.
    + rewrite <- Z.add_sub_assoc, !wrap_unsigned_add. split; f_equal; lia.
Qed.

Lemma count_diffs_frame (diffs : list blockexplorer.FileContractDiff) :
  forall be : blockexplorer.BlockExplorer,
    blockexplorer.db (fold_left (blockexplorer.count_diff w) diffs be) =
    blockexplorer.db be /\
    blockexplorer.currentBlock (fold_left (blockexplorer.count_diff w) diffs be) =
    blockexplorer.currentBlock be /\
    blockexplorer.blockchainHeight (fold_left (blockexplorer.count_diff w) diffs be) =
    blockexplorer.blockchainHeight be /\
    blockexplorer.printed (fold_left (blockexplorer.count_diff w) diffs be) =
    blockexplorer.printed be /\
    blockexplorer.updates (fold_left (blockexplorer.count_diff w) diffs be) =
    blockexplorer.updates be.
Proof.
  induction diffs as [|diff diffs IH]; intros be; cbn [fold_left]; [repeat split|].
  destruct (IH (blockexplorer.count_diff w be diff)) as (-> & -> & -> & -> & ->).
  apply count_diff_frame.
Qed.

Lemma add_blocks_frame (blocks : list Block) :
  forall be : blockexplorer.BlockExplorer,
    blockexplorer.db (fold_left (blockexplorer.add_block w) blocks be) =
    blockexplorer.add_all w (blockexplorer.db be) blocks /\
    blockexplorer.printed (fold_left (blockexplorer.add_block w) blocks be) =
    blockexplorer.printed be ++ blockexplorer.add_errors w (blockexplorer.db be) blocks /\
    blockexplorer.currentBlock (fold_left (blockexplorer.add_block w) blocks be) =
    blockexplorer.currentBlock be /\
    blockexplorer.activeContracts (fold_left (blockexplorer.add_block w) blocks be) =
    blockexplorer.activeContracts be /\
    blockexplorer.totalContracts (fold_left (blockexplorer.add_block w) blocks be) =
    blockexplorer.totalContracts be /\
    blockexplorer.updates (fold_left (blockexplorer.add_block w) blocks be) =
    blockexplorer.updates be.
Proof.
  unfold blockexplorer.add_all.
  induction blocks as [|block blocks IH]; intros be;
    cbn [fold_left blockexplorer.add_errors].
  - rewrite app_nil_r. repeat split.
  - destruct (IH (blockexplorer.add_block w be block)) as (-> & -> & -> & -> & -> & ->).
    unfold blockexplorer.add_block.
    destruct (blockexplorer.addBlockDB w (blockexplorer.db be) block) as [d' [e|]];
      cbn [fst blockexplorer.db blockexplorer.printed blockexplorer.currentBlock
           blockexplorer.activeContracts blockexplorer.totalContracts
           blockexplorer.updates];
      rewrite <- ?app_assoc; repeat split.
Qed.

Lemma index_last_app {A : Type} (l : list A) (x : A) :
  index (l ++ [x]) (len (l ++ [x]) - 1) = Some x.
Proof.
  unfold index. rewrite len_app, len_cons. pose proof (len_nonneg l) as H.
  replace (len l + (1 + len []) - 1) with (len l) by (cbn; lia).
  replace (len l <? 0) with false by (symmetry; apply Z.ltb_ge; lia).
  unfold len. rewrite Nat2Z.id, nth_error_app2 by lia.
  now rewrite Nat.sub_diag.
Qed.

Lemma count_diffs_range (diffs : list blockexplorer.FileContractDiff) :
  forall be : blockexplorer.BlockExplorer,
    0 <= blockexplorer.totalContracts be < 2 ^ 64 ->
    0 <= blockexplorer.activeContracts be < 2 ^ 64 ->
    0 <= blockexplorer.totalContracts (fold_left (blockexplorer.count_diff w) diffs be)
    < 2 ^ 64 /\
    0 <= blockexplorer.activeContracts (fold_left (blockexplorer.count_diff w) diffs be)
    < 2 ^ 64.
Proof.
  induction diffs as [|diff diffs IH]; intros be Ht Ha; cbn [fold_left]; [now split|].
  apply IH; destruct (count_diff_counters be diff) as (E1 & E2); rewrite ?E1, ?E2;
    destruct (blockexplorer.Direction diff); try assumption;
    unfold wrap_unsigned; apply Z.mod_pos_bound; consts; lia.
Qed.

Lemma update_counters (cc : blockexplorer.ConsensusChange)
      (be : blockexplorer.BlockExplorer) :
  blockexplorer.totalContracts (snd (blockexplorer.ReceiveConsensusSetUpdate w cc be)) =
  blockexplorer.totalContracts
    (fold_left (blockexplorer.count_diff w) (blockexplorer.FileContractDiffs cc) be) /\
  blockexplorer.activeContracts (snd (blockexplorer.ReceiveConsensusSetUpdate w cc be)) =
  blockexplorer.activeContracts
    (fold_left (blockexplorer.count_diff w) (blockexplorer.FileContractDiffs cc) be).
Proof.
  unfold blockexplorer.ReceiveConsensusSetUpdate.
  match goal with
  | |- context [fold_left (blockexplorer.add_block w) ?l ?b] =>
      destruct (add_blocks_frame l b) as (_ & _ & _ & Ha & Ht & _)
  end.
  destruct (index _ _); cbn [snd blockexplorer.totalContracts blockexplorer.activeContracts];
    rewrite ?Ha, ?Ht; now split.
Qed.

(** X16. The counters of the explorer: after an update the number of
    contracts ever seen has grown by the number of diffs that apply a
    contract, and the number of active contracts by that less the number
    of diffs that revert one, both as [uint64]; this holds also when the
    update panics. *)
Theorem contract_counters (cc : blockexplorer.ConsensusChange)
        (be : blockexplorer.BlockExplorer) :
  0 <= blockexplorer.totalContracts be < 2 ^ 64 ->
  0 <= blockexplorer.activeContracts be < 2 ^ 64 ->
  blockexplorer.totalContracts (snd (blockexplorer.ReceiveConsensusSetUpdate w cc be)) =
  wrap_unsigned 64 (blockexplorer.totalContracts be
                    + blockexplorer.applied (blockexplorer.FileContractDiffs cc)) /\
  blockexplorer.activeContracts (snd (blockexplorer.ReceiveConsensusSetUpdate w cc be)) =
  wrap_unsigned 64 (blockexplorer.activeContracts be
                    + blockexplorer.applied (blockexplorer.FileContractDiffs cc)
                    - blockexplorer.reverted (blockexplorer.FileContractDiffs cc)).
Proof.
  intros Ht Ha. destruct (update_counters cc be) as (-> & ->).
  destruct (count_diffs_range (blockexplorer.FileContractDiffs cc) be Ht Ha) as (Rt & Ra).
  destruct (count_diffs_counters (blockexplorer.FileContractDiffs cc) be) as (Et & Ea).
  rewrite <- Et, <- Ea. unfold wrap_unsigned. now rewrite !Z.mod_small.
Qed.

(** X17. An update that applies no block makes the explorer panic: the
    last applied block is taken without a check of the length. The
    subscribers are not notified, the current block and the database are
    as before; the counters of the contracts have already been
    changed. *)
Theorem no_block_applied (cc : blockexplorer.ConsensusChange)
        (be : blockexplorer.BlockExplorer) :
  blockexplorer.AppliedBlocks cc = [] ->
  fst (blockexplorer.ReceiveConsensusSetUpdate w cc be) = Some index_out_of_range /\
  blockexplorer.updates (snd (blockexplorer.ReceiveConsensusSetUpdate w cc be)) =
  blockexplorer.updates be /\
  blockexplorer.currentBlock (snd (blockexplorer.ReceiveConsensusSetUpdate w cc be)) =
  blockexplorer.currentBlock be /\
  blockexplorer.db (snd (blockexplorer.ReceiveConsensusSetUpdate w cc be)) =
  blockexplorer.db be /\
  blockexplorer.totalContracts (snd (blockexplorer.ReceiveConsensusSetUpdate w cc be)) =
  blockexplorer.totalContracts
    (fold_left (blockexplorer.count_diff w) (blockexplorer.FileContractDiffs cc) be).
Proof.
  intros Hb. split; [|split; [|split; [|split]]].
  - unfold blockexplorer.ReceiveConsensusSetUpdate. now rewrite Hb.
  - unfold blockexplorer.ReceiveConsensusSetUpdate. rewrite Hb.
    cbn [fold_left snd blockexplorer.updates].
    apply count_diffs_frame.
  - unfold blockexplorer.ReceiveConsensusSetUpdate. rewrite Hb.
    cbn [fold_left snd blockexplorer.currentBlock]. apply count_diffs_frame.
  - unfold blockexplorer.ReceiveConsensusSetUpdate. rewrite Hb.
    cbn [fold_left snd blockexplorer.db]. apply count_diffs_frame.
  - apply update_counters.
Qed.

(** X18. An update that applies blocks hands each of them to the
    database, in order, and an error of the database does not stop it:
    the error is printed, the blocks after it are added all the same, the
    last applied block becomes the current block, and the subscribers are
    notified once. *)
Theorem blocks_added (cc : blockexplorer.ConsensusChange)
        (be : blockexplorer.BlockExplorer) (blocks : list Block) (last : Block) :
  blockexplorer.AppliedBlocks cc = blocks ++ [last] ->
  fst (blockexplorer.ReceiveConsensusSetUpdate w cc be) = None /\
  blockexplorer.currentBlock (snd (blockexplorer.ReceiveConsensusSetUpdate w cc be)) = last /\
  blockexplorer.db (snd (blockexplorer.ReceiveConsensusSetUpdate w cc be)) =
  blockexplorer.add_all w (blockexplorer.db be) (blocks ++ [last]) /\
  blockexplorer.printed (snd (blockexplorer.ReceiveConsensusSetUpdate w cc be)) =
  blockexplorer.printed be ++
  blockexplorer.add_errors w (blockexplorer.db be) (blocks ++ [last]) /\
  blockexplorer.updates (snd (blockexplorer.ReceiveConsensusSetUpdate w cc be)) =
  S (blockexplorer.updates be).
Proof.
  intros Hb. unfold blockexplorer.ReceiveConsensusSetUpdate. rewrite Hb, index_last_app.
  cbn [fst snd blockexplorer.currentBlock blockexplorer.db blockexplorer.printed
       blockexplorer.updates].
  match goal with
  | |- context [fold_left (blockexplorer.add_block w) ?l ?b] =>
      destruct (add_blocks_frame l b) as (-> & -> & _ & _ & _ & ->)
  end.
  cbn [blockexplorer.db blockexplorer.printed blockexplorer.updates].
  destruct (count_diffs_frame (blockexplorer.FileContractDiffs cc) be)
    as (-> & _ & _ & -> & ->).
  repeat split.
Qed.

End ExplorerFacts.

Lemma contract_counters_witness :
  blockexplorer.totalContracts
    (snd (blockexplorer.ReceiveConsensusSetUpdate blockexplorer.small_world
            blockexplorer.two_diffs blockexplorer.fresh)) =
  wrap_unsigned 64 (blockexplorer.totalContracts blockexplorer.fresh
                    + blockexplorer.applied
                        (blockexplorer.FileContractDiffs blockexplorer.two_diffs)) /\
  blockexplorer.activeContracts
    (snd (blockexplorer.ReceiveConsensusSetUpdate blockexplorer.small_world
            blockexplorer.two_diffs blockexplorer.fresh)) =
  wrap_unsigned 64 (blockexplorer.activeContracts blockexplorer.fresh
                    + blockexplorer.applied
                        (blockexplorer.FileContractDiffs blockexplorer.two_diffs)
                    - blockexplorer.reverted
                        (blockexplorer.FileContractDiffs blockexplorer.two_diffs)).
Proof.
  apply (contract_counters blockexplorer.small_world blockexplorer.two_diffs
           blockexplorer.fresh); cbn; lia.
Defined.

Lemma no_block_applied_witness :
  fst (blockexplorer.ReceiveConsensusSetUpdate blockexplorer.small_world
         blockexplorer.two_diffs blockexplorer.fresh) = Some index_out_of_range /\
  blockexplorer.updates
    (snd (blockexplorer.ReceiveConsensusSetUpdate blockexplorer.small_world
            blockexplorer.two_diffs blockexplorer.fresh)) =
  blockexplorer.updates blockexplorer.fresh /\
  blockexplorer.currentBlock
    (snd (blockexplorer.ReceiveConsensusSetUpdate blockexplorer.small_world
            blockexplorer.two_diffs blockexplorer.fresh)) =
  blockexplorer.currentBlock blockexplorer.fresh /\
  blockexplorer.db
    (snd (blockexplorer.ReceiveConsensusSetUpdate blockexplorer.small_world
            blockexplorer.two_diffs blockexplorer.fresh)) =
  blockexplorer.db blockexplorer.fresh /\
  blockexplorer.totalContracts
    (snd (blockexplorer.ReceiveConsensusSetUpdate blockexplorer.small_world
            blockexplorer.two_diffs blockexplorer.fresh)) =
  blockexplorer.totalContracts
    (fold_left (blockexplorer.count_diff blockexplorer.small_world)
       (blockexplorer.FileContractDiffs blockexplorer.two_diffs) blockexplorer.fresh).
Proof.
  apply (no_block_applied blockexplorer.small_world blockexplorer.two_diffs
           blockexplorer.fresh).
  reflexivity.
Defined.

Lemma blocks_added_witness :
  fst (blockexplorer.ReceiveConsensusSetUpdate blockexplorer.small_world
         blockexplorer.three_blocks blockexplorer.fresh) = None /\
  blockexplorer.currentBlock
    (snd (blockexplorer.ReceiveConsensusSetUpdate blockexplorer.small_world
            blockexplorer.three_blocks blockexplorer.fresh)) = 2 /\
  blockexplorer.db
    (snd (blockexplorer.ReceiveConsensusSetUpdate blockexplorer.small_world
            blockexplorer.three_blocks blockexplorer.fresh)) =
  blockexplorer.add_all blockexplorer.small_world (blockexplorer.db blockexplorer.fresh)
    ([1; 0] ++ [2]) /\
  blockexplorer.printed
    (snd (blockexplorer.ReceiveConsensusSetUpdate blockexplorer.small_world
            blockexplorer.three_blocks blockexplorer.fresh)) =
  blockexplorer.printed blockexplorer.fresh ++
  blockexplorer.add_errors blockexplorer.small_world (blockexplorer.db blockexplorer.fresh)
    ([1; 0] ++ [2]) /\
  blockexplorer.updates
    (snd (blockexplorer.ReceiveConsensusSetUpdate blockexplorer.small_world
            blockexplorer.three_blocks blockexplorer.fresh)) =
  S (blockexplorer.updates blockexplorer.fresh).
Proof.
  apply (blocks_added blockexplorer.small_world blockexplorer.three_blocks
           blockexplorer.fresh [1; 0] 2).
  reflexivity.
Defined.

(** ** The gate of the API *)

Lemma prefix_app (a s : string) :
  String.prefix a s = true <-> exists after, s = (a ++ after)%string.
Proof.
  revert s. induction a as [|c a IH]; intros s.
  - split; [intros _; now exists s | intros _; destruct s; reflexivity].
  - destruct s as [|c' s]; simpl String.prefix.
    + split; [discriminate | intros [after H]; discriminate].
    + destruct (Ascii.ascii_dec c c') as [<-|Hc].
      * rewrite IH. split; intros [after H]; exists after; cbn in *; congruence.
      * split; [discriminate|]. intros [after H]. cbn in H. congruence.
Qed.

Lemma Contains_mentions (s marker : string) :
  api.Contains s marker = true <-> api.mentions s marker.
Proof.
  unfold api.mentions. induction s as [|c s IH]; cbn [api.Contains].
  - destruct (String.prefix marker EmptyString) eqn:Hp.
    + split; [intros _|reflexivity]. apply prefix_app in Hp as [after H].
      exists EmptyString, after. exact H.
    + split; [discriminate|]. intros (before & after & H).
      destruct before; [|discriminate]. cbn in H.
      assert (String.prefix marker EmptyString = true) by (apply prefix_app; eauto). congruence.
  - destruct (String.prefix marker (String c s)) eqn:Hp.
    + split; [intros _|reflexivity]. apply prefix_app in Hp as [after H].
      exists EmptyString, after. exact H.
    + rewrite IH. split.
      * intros (before & after & H). exists (String c before), after. cbn. now rewrite H.
      * intros (before & after & H). destruct before as [|c' before].
        -- cbn in H. assert (String.prefix marker (String c s) = true)
             by (apply prefix_app; eauto). congruence.
        -- cbn in H. injection H as _ H. eauto.
Qed.

Lemma Contains_false (s marker : string) :
  api.Contains s marker = false <-> ~ api.mentions s marker.
Proof.
  rewrite <- Contains_mentions. destruct (api.Contains s marker); split; intros H;
    try reflexivity; try discriminate; try (intros ?; discriminate). now destruct H.
Qed.

Lemma gate_condition (ua : string) :
  negb (api.Contains ua "Sia-Miner")
  && negb (String.eqb ua EmptyString)
  && negb (String.eqb ua "Go 1.1 package http")
  && negb (api.Contains ua "Electron")
  && negb (api.Contains ua "AtomShell") = false <-> api.let_through ua.
Proof.
  unfold api.let_through. rewrite <- !Contains_mentions, <- !String.eqb_eq.
  destruct (api.Contains ua "Sia-Miner"), (String.eqb ua EmptyString),
    (String.eqb ua "Go 1.1 package http"), (api.Contains ua "Electron"),
    (api.Contains ua "AtomShell"); cbn; intuition discriminate.
Qed.

Section ApiFacts.
Context {ResponseWriter : Type}.
Variable W : @api.World ResponseWriter.

Lemma handleHTTPRequest_gate (mux : api.ServeMux) (url : string) (handler : api.HandlerFunc) :
  match api.handleHTTPRequest W mux url handler with
  | Returned mux' =>
      exists h,
        mux' = mux ++ [(url, h)] /\
        forall w req,
          (api.let_through (api.UserAgent req) -> h w req = handler w req) /\
          (~ api.let_through (api.UserAgent req) -> h w req = api.refusal W w)
  | Panicked _ => url = EmptyString \/ In url (map fst mux)
  end.
Proof.
  unfold api.handleHTTPRequest, api.HandleFunc.
  destruct (String.eqb url EmptyString) eqn:He; [left; now apply String.eqb_eq|].
  destruct (existsb _ mux) eqn:Hx.
  - right. apply existsb_exists in Hx as ([u h] & Hin & Hu). cbn [fst] in Hu.
    apply String.eqb_eq in Hu. subst u. apply in_map_iff. now exists (url, h).
  - eexists. split; [reflexivity|]. intros w req. cbv beta.
    pose proof (gate_condition (api.UserAgent req)) as Hg.
    destruct (negb (api.Contains (api.UserAgent req) "Sia-Miner") && _ && _ && _ && _).
    + split; [|reflexivity]. intros Hl. apply Hg in Hl. discriminate.
    + split; [reflexivity|]. intros Hl. destruct Hl. now apply Hg.
Qed.

(** X19. The gate of the API looks for its markers anywhere in the user
    agent. [handleHTTPRequest] registers under [url] a handler that
    passes a request on to [handler] when its user agent is empty, is
    ["Go 1.1 package http"], or has ["Sia-Miner"], ["Electron"] or
    ["AtomShell"] somewhere in it, and that answers every other request
    with the error of status 500 without calling [handler]. It panics
    only on an empty [url] and on one that is registered already. *)
Theorem user_agent_gate (mux : api.ServeMux) (url : string) (handler : api.HandlerFunc) :
  match api.handleHTTPRequest W mux url handler with
  | Returned mux' =>
      exists h,
        mux' = mux ++ [(url, h)] /\
        forall w req,
          (api.let_through (api.UserAgent req) -> h w req = handler w req) /\
          (~ api.let_through (api.UserAgent req) -> h w req = api.refusal W w)
  | Panicked _ => url = EmptyString \/ In url (map fst mux)
  end.
Proof. apply handleHTTPRequest_gate. Qed.

Lemma register_returns (calls : list (string * string)) :
  forall mux : api.ServeMux,
    api.distinct (map fst calls) = true ->
    (forall url, In url (map fst mux) -> ~ In url (map fst calls)) ->
    exists mux',
      api.register W calls mux = Returned mux' /\
      map fst mux' = map fst mux ++ map fst calls /\
      (Forall (fun e => api.gated W (snd e)) mux ->
       Forall (fun e => api.gated W (snd e)) mux').
Proof.
  induction calls as [|[url name] calls IH]; intros mux Hd Hm; cbn [api.register].
  - exists mux. rewrite app_nil_r. auto.
  - cbn [map fst api.distinct] in Hd.
    apply andb_prop in Hd as [Hd Hr]. apply andb_prop in Hd as [Hu Hx].
    pose proof (handleHTTPRequest_gate mux url (api.method W name)) as H.
    destruct (api.handleHTTPRequest W mux url (api.method W name)) as [mux1|p].
    + destruct H as (h & -> & Hh).
      destruct (IH (mux ++ [(url, h)]) Hr) as (mux' & E & Hf & Hg).
      { intros u Hin Hc. rewrite map_app in Hin. apply in_app_or in Hin as [Hin|Hin].
        - apply (Hm u Hin). now right.
        - cbn in Hin. destruct Hin as [<-|[]].
          apply negb_true_iff in Hx. rewrite <- not_true_iff_false in Hx. apply Hx.
          apply existsb_exists. exists url. split; [exact Hc | apply String.eqb_refl]. }
      exists mux'. split; [exact E|]. split.
      * rewrite Hf, map_app, <- app_assoc. reflexivity.
      * intros Hall. apply Hg. apply Forall_app. split; [exact Hall|].
        constructor; [|constructor]. intros w req. apply Hh.
    + exfalso. destruct H as [->|Hin].
      * discriminate.
      * apply (Hm url Hin). now left.
Qed.

Lemma routes_distinct (srv : api.Server) : api.distinct (map fst (api.routes srv)) = true.
Proof. destruct srv as [[|] [|] [|] [|] [|] [|] [|]]; vm_compute; reflexivity. Qed.

(** X20. [initAPI] never panics, whichever modules the server has: it
    registers the patterns of its calls in order, none of them twice.
    And no route gets round the gate: every handler it registers, the one
    of the 404 page behind ["/"] among them, answers a request whose user
    agent is not let through with the error of status 500. *)
Theorem initAPI_all_gated (srv : api.Server) :
  exists mux,
    api.initAPI W srv = Returned mux /\
    map fst mux = map fst (api.routes srv) /\
    Forall (fun e => api.gated W (snd e)) mux.
Proof.
  destruct (register_returns (api.routes srv) [] (routes_distinct srv)) as (mux & E & Hf & Hg).
  - intros url [].
  - exists mux. split; [exact E|]. split; [exact Hf|]. apply Hg. constructor.
Qed.

End ApiFacts.
